(** * Thread locals and primitive parameters of Gauche (src/parameter.c)

    A shallow embedding of the C code of [parameter.c]: the process-wide
    index counter, the per-VM thread-local tables with their separately
    allocated slot vectors, the accessor and the modifier, the two
    parameter procedures and the deprecated entry points.

    The C code works on a garbage-collected heap through pointers.  The
    embedding keeps that: a table ([ScmVMThreadLocalTable]) and its slot
    vector are two heap objects, each named by an address, and every
    function of the source is a state transformer over the heap.

    Sizes and indices are [ScmSize] in C, a signed machine word.  They are
    natural numbers here: the index counter starts at 0 and only counts
    up, a table of [n] slots occupies [n] words of memory, and
    [ensure_tl_slot] adds at most [THREAD_LOCAL_GROW] to an index, so none
    of these values comes near the end of the word's range.

    Calls are interleaved as wholes: each runs from call to return on the
    state the call before it left.  The code relies on no more: the index
    counter is taken under a mutex, and a table is touched by its own
    thread only, or by the creating thread before the new one starts. *)

From Stdlib Require Import ZArith NArith String.
From stdpp Require Import base tactics option list numbers strings.

Local Open Scope string_scope.
Local Open Scope list_scope.

(** ** Values *)

(** A heap address.  Tables, slot vectors and promises live in separate
    address spaces (they are objects of different types). *)
Abbreviation loc := nat (only parsing).

(** [ScmObj], restricted to the kinds of object this file touches.
    [SCM_UNBOUND] is the marker of a slot without a value, [SCM_NULLOBJ]
    is the all-zero word that freshly allocated memory holds. *)
Inductive ScmObj : Type :=
| SCM_FALSE
| SCM_TRUE
| SCM_NIL
| SCM_UNBOUND
| SCM_UNDEFINED
| SCM_NULLOBJ
| SCM_INT (n : Z)
| SCM_SYMBOL (s : string)
| SCM_PAIR (car cdr : ScmObj)
| SCM_PROMISE (p : loc).

#[global] Instance ScmObj_eq_dec : EqDecision ScmObj.
Proof. solve_decision. Defined.

Definition SCM_UNBOUNDP (obj : ScmObj) : bool :=
  match obj with SCM_UNBOUND => true | _ => false end.

Definition SCM_PAIRP (obj : ScmObj) : bool :=
  match obj with SCM_PAIR _ _ => true | _ => false end.

(** The argument list a subr with one optional argument receives in
    [argv[0]]: a proper list of the actual arguments. *)
Fixpoint Scm_List (args : list ScmObj) : ScmObj :=
  match args with
  | [] => SCM_NIL
  | a :: rest => SCM_PAIR a (Scm_List rest)
  end.

(** ** Classes *)

(** Modelled from the spec: the class system, which is in class.c.  Here
    are the two classes [parameter.c] defines and classes derived from
    them; a derived class records its direct superclass. *)
Inductive ScmClass : Type :=
| SCM_CLASS_THREAD_LOCAL
| SCM_CLASS_PRIMITIVE_PARAMETER
| SCM_CLASS_DERIVED (name : string) (super : ScmClass).

#[global] Instance ScmClass_eq_dec : EqDecision ScmClass.
Proof. solve_decision. Defined.

(** Modelled from the spec: [SCM_ISA] of gauche.h, true for the class
    itself and for its ancestors. *)
Fixpoint SCM_ISA (c k : ScmClass) : bool :=
  if decide (c = k) then true
  else match c with
       | SCM_CLASS_DERIVED _ super => SCM_ISA super k
       | _ => false
       end.

(** ** Descriptors *)

(** Modelled from the spec: the flag [SCM_PARAMETER_LAZY], declared in
    gauche/parameter.h; the one flag there is, taken as bit 0. *)
Definition SCM_PARAMETER_LAZY : N := 1.

(** [ScmThreadLocal]: the fields [Scm_MakeThreadLocal] fills in.  The flags
    are an [u_long], used only through a bitwise and. *)
Record ScmThreadLocal : Type := mkThreadLocal {
  klass : ScmClass;
  name : ScmObj;
  index : nat;
  initialValue : ScmObj;
  flags : N
}.

(** [parameter.c] casts between [ScmPrimitiveParameter*] and
    [ScmThreadLocal*] and reads the same fields through both: at this
    layer the two are one structure. *)
Definition ScmPrimitiveParameter : Type := ScmThreadLocal.

(** [tl->flags & SCM_PARAMETER_LAZY] used as a C condition. *)
Definition lazy_flag (tl : ScmThreadLocal) : bool :=
  negb (N.land (flags tl) SCM_PARAMETER_LAZY =? 0)%N.

Definition SCM_PRIMITIVE_PARAMETER_P (p : ScmThreadLocal) : bool :=
  SCM_ISA (klass p) SCM_CLASS_PRIMITIVE_PARAMETER.

(** ** Heap objects *)

(** [ScmVMThreadLocalTable]: a pointer to the slot vector and its size. *)
Record ScmVMThreadLocalTable : Type := mkTable {
  vector : loc;
  size : nat
}.

(** The part of [ScmVM] used here: the pointer to its table. *)
Record ScmVM : Type := mkVM {
  threadLocals : loc
}.

(** Modelled from the spec: a deferred computation, as [Scm_Force] of
    lazy.c sees it.  The spec says that forcing resolves a deferred
    computation to its concrete result and is idempotent.  A promise is
    either still delayed or already forced; [thunk_value] is what its
    computation returns, [thunk_runs] counts how often the computation has
    been run.  The computation is taken to return normally and to leave
    the thread locals alone. *)
Record ScmPromise : Type := mkPromise {
  forced : bool;
  thunk_value : ScmObj;
  thunk_runs : nat
}.

(** The two C functions a parameter subr can point to. *)
Inductive SubrProc : Type :=
| prim_param_proc_ptr
| general_param_proc_ptr.

(** [ScmSubr] as built by [Scm_MakeSubr(func, data, required, optional, info)]. *)
Record ScmSubr : Type := mkSubr {
  subr_func : SubrProc;
  subr_data : ScmPrimitiveParameter;
  subr_required : nat;
  subr_optional : nat;
  subr_info : ScmPrimitiveParameter
}.

Definition ScmModule : Type := string.

(** ** Process state *)

Record State : Type := mkState {
  next_tl_index : nat;                       (* static ScmSize next_tl_index *)
  tables : list ScmVMThreadLocalTable;       (* SCM_NEW(ScmVMThreadLocalTable) *)
  arrays : list (list ScmObj);               (* SCM_NEW_ARRAY(ScmObj, n) *)
  promises : loc -> ScmPromise;              (* promise objects *)
  warnings : list string;                    (* what Scm_Warn has printed *)
  bindings : list (ScmModule * ScmObj * ScmSubr)  (* what Scm_Define has bound *)
}.

Definition set_next_tl_index (n : nat) (s : State) : State :=
  mkState n (tables s) (arrays s) (promises s) (warnings s) (bindings s).
Definition set_tables (ts : list ScmVMThreadLocalTable) (s : State) : State :=
  mkState (next_tl_index s) ts (arrays s) (promises s) (warnings s) (bindings s).
Definition set_arrays (vs : list (list ScmObj)) (s : State) : State :=
  mkState (next_tl_index s) (tables s) vs (promises s) (warnings s) (bindings s).
Definition set_promises (ps : loc -> ScmPromise) (s : State) : State :=
  mkState (next_tl_index s) (tables s) (arrays s) ps (warnings s) (bindings s).
Definition set_warnings (ws : list string) (s : State) : State :=
  mkState (next_tl_index s) (tables s) (arrays s) (promises s) ws (bindings s).
Definition set_bindings (bs : list (ScmModule * ScmObj * ScmSubr)) (s : State) : State :=
  mkState (next_tl_index s) (tables s) (arrays s) (promises s) (warnings s) bs.

(** The process before any thread local or table exists. *)
Definition process_start (ps : loc -> ScmPromise) : State :=
  mkState 0 [] [] ps [] [].

(** ** The monad of C-level computations *)

(** How a call ends: it returns, it raises a Scheme error with [Scm_Error]
    (the state reached so far stays), the process is aborted by
    [Scm_Panic] or a failed [SCM_ASSERT], or it touches memory that is not
    there ([Fault], which the C code never does on a well-formed heap). *)
Inductive Result (A : Type) : Type :=
| Done (a : A) (s : State)
| Raised (fmt : string) (irritants : list ScmObj) (s : State)
| Panicked (msg : string)
| Fault.
Arguments Done {A} a s.
Arguments Raised {A} fmt irritants s.
Arguments Panicked {A} msg.
Arguments Fault {A}.

Definition M (A : Type) : Type := State -> Result A.

Definition ret {A} (a : A) : M A := fun s => Done a s.

Definition bind {A B} (m : M A) (f : A -> M B) : M B :=
  fun s => match m s with
           | Done a s' => f a s'
           | Raised fmt irr s' => Raised fmt irr s'
           | Panicked msg => Panicked msg
           | Fault => Fault
           end.

Declare Scope cmd_scope.
Delimit Scope cmd_scope with cmd.
Notation "'let*' x ':=' m 'in' k" := (bind m (fun x => k))
  (at level 10, x name, m at level 100, k at level 200) : cmd_scope.
Notation "m ';;' k" := (bind m (fun _ => k))
  (at level 100, k at level 200, right associativity) : cmd_scope.
Local Open Scope cmd_scope.

Definition result_value {A} (r : Result A) : option A :=
  match r with Done a _ => Some a | _ => None end.

Definition result_state {A} (r : Result A) : option State :=
  match r with Done _ s => Some s | Raised _ _ s => Some s | _ => None end.

(** *** Primitive effects *)

(** Modelled from the spec: [Scm_Error] of error.c, the user-facing error
    raised at the call site: control leaves the function, the process goes
    on. *)
Definition Scm_Error {A} (fmt : string) (irritants : list ScmObj) : M A :=
  fun s => Raised fmt irritants s.

(** Modelled from the spec: [Scm_Panic] of error.c, the fatal error that
    ends the process. *)
Definition Scm_Panic {A} (msg : string) : M A := fun _ => Panicked msg.

(** Modelled from the spec: [SCM_ASSERT] of gauche.h, a panic when the
    condition is false. *)
Definition SCM_ASSERT (cond : bool) : M unit :=
  if cond then ret tt else Scm_Panic "assertion failed".

(** Modelled from the spec: [Scm_Warn] of error.c, which prints the warning
    and returns. *)
Definition Scm_Warn (msg : string) : M unit :=
  fun s => Done tt (set_warnings (warnings s ++ [msg]) s).

(** Reading the table structure behind a pointer ([p->vector], [p->size]). *)
Definition get_table (p : loc) : M ScmVMThreadLocalTable :=
  fun s => match tables s !! p with
           | Some t => Done t s
           | None => Fault
           end.

(** Overwriting both fields of the table behind [p]. *)
Definition put_table (p : loc) (t : ScmVMThreadLocalTable) : M unit :=
  fun s => match tables s !! p with
           | Some _ => Done tt (set_tables (<[p := t]> (tables s)) s)
           | None => Fault
           end.

(** Modelled from the spec: [SCM_NEW(ScmVMThreadLocalTable)] of the memory
    manager, a fresh table, taken together with the two assignments that
    initialise its fields. *)
Definition new_table (t : ScmVMThreadLocalTable) : M loc :=
  fun s => Done (length (tables s)) (set_tables (tables s ++ [t]) s).

(** Modelled from the spec: [SCM_NEW_ARRAY(ScmObj, n)] of the memory
    manager, a fresh zero-filled block of [n] words. *)
Definition SCM_NEW_ARRAY (n : nat) : M loc :=
  fun s => Done (length (arrays s))
                (set_arrays (arrays s ++ [replicate n SCM_NULLOBJ]) s).

(** [a[i]] as an rvalue. *)
Definition load (a : loc) (i : nat) : M ScmObj :=
  fun s => match arrays s !! a with
           | Some vec => match vec !! i with
                         | Some v => Done v s
                         | None => Fault
                         end
           | None => Fault
           end.

(** [a[i] = v]. *)
Definition store (a : loc) (i : nat) (v : ScmObj) : M unit :=
  fun s => match arrays s !! a with
           | Some vec =>
               if decide (i < length vec)
               then Done tt (set_arrays (<[a := <[i := v]> vec]> (arrays s)) s)
               else Fault
           | None => Fault
           end.

(** [for (i = lo; i < lo + n; i++) body(i)]. *)
Fixpoint for_range (lo n : nat) (body : nat -> M unit) : M unit :=
  match n with
  | 0 => ret tt
  | S n' => body lo ;; for_range (S lo) n' body
  end.

(** Modelled from the spec: [Scm_Force] of lazy.c.  An object that is not a
    promise is returned as it is.  A promise that was forced before yields
    its cached value; a delayed one runs its computation once, caches the
    result in the promise object and yields it. *)
Definition Scm_Force (obj : ScmObj) : M ScmObj :=
  fun s => match obj with
           | SCM_PROMISE l =>
               let p := promises s l in
               if forced p then Done (thunk_value p) s
               else Done (thunk_value p)
                      (set_promises
                         (fun l' => if decide (l' = l)
                                    then mkPromise true (thunk_value p) (S (thunk_runs p))
                                    else promises s l') s)
           | _ => Done obj s
           end.

(** ** The functions of parameter.c *)

Definition THREAD_LOCAL_INIT_SIZE : nat := 64.
Definition THREAD_LOCAL_GROW : nat := 16.

(** [Scm__MakeVMThreadLocalTable(base)]; [None] is the NULL base of the
    primordial thread. *)
Definition Scm__MakeVMThreadLocalTable (base : option ScmVM) : M loc :=
  match base with
  | Some base =>
      let* bt := get_table (threadLocals base) in
      let* vec := SCM_NEW_ARRAY (size bt) in
      let* table := new_table (mkTable vec (size bt)) in
      for_range 0 (size bt)
        (fun i => let* x := load (vector bt) i in store vec i x) ;;
      ret table
  | None =>
      let* vec := SCM_NEW_ARRAY THREAD_LOCAL_INIT_SIZE in
      let* table := new_table (mkTable vec THREAD_LOCAL_INIT_SIZE) in
      for_range 0 THREAD_LOCAL_INIT_SIZE (fun i => store vec i SCM_UNBOUND) ;;
      ret table
  end.

(** [ensure_tl_slot(p, index)]. *)
Definition ensure_tl_slot (p : loc) (index : nat) : M unit :=
  let* t := get_table p in
  if decide (size t <= index) then
    let newsiz :=
      ((index + THREAD_LOCAL_GROW) / THREAD_LOCAL_GROW) * THREAD_LOCAL_GROW in
    let* newvec := SCM_NEW_ARRAY newsiz in
    for_range 0 (size t)
      (fun i => let* x := load (vector t) i in
                store newvec i x ;;
                store (vector t) i SCM_FALSE) ;;
    for_range (size t) (newsiz - size t)
      (fun i => store newvec i SCM_UNBOUND) ;;
    put_table p (mkTable newvec newsiz)
  else ret tt.

(** [Scm_MakeThreadLocal(klass, name, initval, flags)], called by the thread
    whose VM is [cur] (what [Scm_VM()] returns).  The mutex only brackets
    the post-increment. *)
Definition Scm_MakeThreadLocal (cur : ScmVM) (klass : ScmClass) (name initval : ScmObj)
    (flags : N) : M ScmThreadLocal :=
  let* index := (fun s => Done (next_tl_index s)
                            (set_next_tl_index (S (next_tl_index s)) s)) in
  ensure_tl_slot (threadLocals cur) index ;;
  ret (mkThreadLocal klass name index initval flags).

Definition Scm_MakePrimitiveParameter (cur : ScmVM) (klass : ScmClass)
    (name initval : ScmObj) (flags : N) : M ScmPrimitiveParameter :=
  Scm_MakeThreadLocal cur klass name initval flags.

(** [Scm_ThreadLocalRef(vm, tl)]. *)
Definition Scm_ThreadLocalRef (vm : ScmVM) (tl : ScmThreadLocal) : M ScmObj :=
  let* t := get_table (threadLocals vm) in
  let* result :=
    (if decide (size t <= index tl) then ret (initialValue tl)
     else
       let* result := load (vector t) (index tl) in
       if SCM_UNBOUNDP result then
         store (vector t) (index tl) (initialValue tl) ;;
         ret (initialValue tl)
       else ret result) in
  if lazy_flag tl then Scm_Force result else ret result.

Definition Scm_PrimitiveParameterRef (vm : ScmVM) (p : ScmPrimitiveParameter) : M ScmObj :=
  Scm_ThreadLocalRef vm p.

(** [Scm_ThreadLocalSet(vm, tl, val)].  After [ensure_tl_slot] the vector
    pointer is read again from the table, as [t->vector] is in C. *)
Definition Scm_ThreadLocalSet (vm : ScmVM) (tl : ScmThreadLocal) (val : ScmObj) : M ScmObj :=
  let* t := get_table (threadLocals vm) in
  let* oldval :=
    (if decide (size t <= index tl) then
       ensure_tl_slot (threadLocals vm) (index tl) ;; ret SCM_UNBOUND
     else load (vector t) (index tl)) in
  let oldval := if SCM_UNBOUNDP oldval then initialValue tl else oldval in
  let* t' := get_table (threadLocals vm) in
  store (vector t') (index tl) val ;;
  if lazy_flag tl then Scm_Force oldval else ret oldval.

Definition Scm_PrimitiveParameterSet (vm : ScmVM) (p : ScmPrimitiveParameter)
    (val : ScmObj) : M ScmObj :=
  Scm_ThreadLocalSet vm p val.

(** *** Parameter procedures *)

(** Modelled from the spec: [Scm_VMApply2] of vm.c.  A subr hands back to
    the VM a value, or the request to call a Scheme procedure next, which
    is what [Scm_VMApply2(proc, arg1, arg2)] returns.  The procedure is
    named by the binding [SCM_BIND_PROC] looks up; its first argument here
    is always the parameter. *)
Inductive SubrResult : Type :=
| SubrValue (v : ScmObj)
| SubrVMApply2 (proc : string) (arg1 : ScmPrimitiveParameter) (arg2 : ScmObj).

(** The format string of the arity error of both procedures. *)
Definition arity_message : string :=
  "Wrong number of arguments for a parameter: 0 or 1 argument(s) expected, but got %S".

(** [prim_param_proc(argv, argc, data)], run by the thread whose VM is [cur]. *)
Definition prim_param_proc (cur : ScmVM) (argv : list ScmObj) (argc : nat)
    (data : ScmPrimitiveParameter) : M SubrResult :=
  let p := data in
  SCM_ASSERT (SCM_PRIMITIVE_PARAMETER_P p) ;;
  SCM_ASSERT (Nat.eqb argc 1) ;;
  match argv !! 0 with
  | None => fun _ => Fault
  | Some (SCM_PAIR a d) =>
      (if SCM_PAIRP d then Scm_Error arity_message [SCM_PAIR a d] else ret tt) ;;
      let* v := Scm_PrimitiveParameterSet cur p a in
      ret (SubrValue v)
  | Some _ =>
      let* v := Scm_PrimitiveParameterRef cur p in
      ret (SubrValue v)
  end.

(** [general_param_proc(argv, argc, data)]. *)
Definition general_param_proc (cur : ScmVM) (argv : list ScmObj) (argc : nat)
    (data : ScmPrimitiveParameter) : M SubrResult :=
  let p := data in
  SCM_ASSERT (SCM_PRIMITIVE_PARAMETER_P p) ;;
  SCM_ASSERT (Nat.eqb argc 1) ;;
  match argv !! 0 with
  | None => fun _ => Fault
  | Some (SCM_PAIR a d) =>
      (if SCM_PAIRP d then Scm_Error arity_message [SCM_PAIR a d] else ret tt) ;;
      ret (SubrVMApply2 "%parameter-set!" p a)
  | Some _ =>
      let* v := Scm_PrimitiveParameterRef cur p in
      ret (SubrValue v)
  end.

(** [Scm_MakePrimitiveParameterSubr(p)]; [Scm_ClassOf(SCM_OBJ(p))] is the
    class stored in the instance. *)
Definition Scm_MakePrimitiveParameterSubr (p : ScmPrimitiveParameter) : ScmSubr :=
  if decide (klass p = SCM_CLASS_PRIMITIVE_PARAMETER)
  then mkSubr prim_param_proc_ptr p 0 1 p
  else mkSubr general_param_proc_ptr p 0 1 p.

(** Modelled from the spec: the call of a subr by the VM (vm.c), as far as
    [Scm_MakeSubr(proc, p, 0, 1, info)] and the use of [argv[0]] in the two
    procedures fix it.  The required arguments are passed one by one; a
    subr that takes optional arguments gets the remaining ones as a list in
    the last element of [argv].  Too few arguments, or too many for a subr
    without optional arguments, are rejected before the C function runs. *)
Definition call_subr (cur : ScmVM) (f : ScmSubr) (args : list ScmObj) : M SubrResult :=
  if decide (length args < subr_required f) then
    Scm_Error "wrong number of arguments" []
  else if decide (subr_optional f = 0 /\ subr_required f < length args) then
    Scm_Error "wrong number of arguments" []
  else
    let argv := take (subr_required f) args
                ++ (if decide (subr_optional f = 0) then []
                    else [Scm_List (drop (subr_required f) args)]) in
    let argc := subr_required f + subr_optional f in
    match subr_func f with
    | prim_param_proc_ptr => prim_param_proc cur argv argc (subr_data f)
    | general_param_proc_ptr => general_param_proc cur argv argc (subr_data f)
    end.

(** Modelled from the spec: [Scm_Define] of module.c, recorded as a binding
    of the symbol in the module. *)
Definition Scm_Define (module : ScmModule) (sym : ScmObj) (val : ScmSubr) : M unit :=
  fun s => Done tt (set_bindings (bindings s ++ [(module, sym, val)]) s).

(** Modelled from the spec: [SCM_INTERN] of symbol.c, the symbol of that
    name. *)
Definition SCM_INTERN (cname : string) : ScmObj := SCM_SYMBOL cname.

(** [Scm_BindPrimitiveParameter(mod, name, initval, flags)]. *)
Definition Scm_BindPrimitiveParameter (cur : ScmVM) (module : ScmModule) (cname : string)
    (initval : ScmObj) (flags : N) : M ScmPrimitiveParameter :=
  let* p := Scm_MakePrimitiveParameter cur SCM_CLASS_PRIMITIVE_PARAMETER
              (SCM_INTERN cname) initval flags in
  let subr := Scm_MakePrimitiveParameterSubr p in
  Scm_Define module (name p) subr ;;
  ret p.

(** *** The deprecated entry points ([GAUCHE_API_VERSION < 98]) *)

(** [ScmParameterLoc]: a structure holding one pointer, [p].  The functions
    that fill a location given as an out argument return it here. *)
Record ScmParameterLoc : Type := mkParameterLoc {
  loc_p : ScmPrimitiveParameter
}.

Definition Scm_DefinePrimitiveParameter (cur : ScmVM) (module : ScmModule) (cname : string)
    (initval : ScmObj) : M ScmParameterLoc :=
  let* p := Scm_BindPrimitiveParameter cur module cname initval 0 in
  ret (mkParameterLoc p).

Definition Scm_ParameterRef (vm : ScmVM) (location : ScmParameterLoc) : M ScmObj :=
  Scm_Warn "Scm_ParameterRef is deprecated." ;;
  Scm_PrimitiveParameterRef vm (loc_p location).

Definition Scm_ParameterSet (vm : ScmVM) (location : ScmParameterLoc) (value : ScmObj)
    : M ScmObj :=
  Scm_Warn "Scm_ParameterSet is deprecated." ;;
  Scm_PrimitiveParameterSet vm (loc_p location) value.

(** The [vm] argument is unused; the parameter is created by the calling
    thread, whose VM is [cur]. *)
Definition Scm_InitParameterLoc (cur : ScmVM) (vm : ScmVM) (initval : ScmObj)
    : M ScmParameterLoc :=
  Scm_Warn "Scm_InitParameterLoc is deprecated.  Use Scm_MakePrimitiveParameter" ;;
  let* p := Scm_MakePrimitiveParameter cur SCM_CLASS_PRIMITIVE_PARAMETER
              SCM_FALSE initval 0 in
  ret (mkParameterLoc p).

Definition Scm_MakeParameterSlot (cur : ScmVM) (vm : ScmVM) : M ScmParameterLoc :=
  Scm_Warn "Scm_MakeParameterSlot is deprecated.  Use Scm_MakePrimitiveParameter." ;;
  Scm_InitParameterLoc cur vm SCM_FALSE.

Definition Scm__VMParameterTableInit : M unit :=
  Scm_Panic "Scm__VMParameterTableInit is obsoleted.  Shouldn't be called.".

(** * Specification vocabulary *)

(** ** Observations *)

(** The slots of the table of [vm]: the content of its vector, provided
    the table and the vector are allocated and the recorded size is the
    length of the vector. *)
Definition vm_slots (s : State) (vm : ScmVM) : option (list ScmObj) :=
  match tables s !! threadLocals vm with
  | Some t =>
      match arrays s !! vector t with
      | Some vec => if decide (size t = length vec) then Some vec else None
      | None => None
      end
  | None => None
  end.

(** Two VMs whose tables are distinct objects with distinct slot vectors. *)
Definition isolated (s : State) (a b : ScmVM) : Prop :=
  exists ta tb veca vecb,
    tables s !! threadLocals a = Some ta /\ tables s !! threadLocals b = Some tb
    /\ arrays s !! vector ta = Some veca /\ arrays s !! vector tb = Some vecb
    /\ size ta = length veca /\ size tb = length vecb
    /\ threadLocals a <> threadLocals b /\ vector ta <> vector tb.

(** The content of slot [i] of the table of [vm] in the state a call has
    ended in. *)
Definition slot_after {A} (r : Result A) (vm : ScmVM) (i : nat) : option ScmObj :=
  match result_state r with
  | Some s => match vm_slots s vm with
              | Some vec => vec !! i
              | None => None
              end
  | None => None
  end.

(** How often the computation of the promise at [l] has been run in the
    state a call has ended in. *)
Definition runs_after {A} (r : Result A) (l : loc) : option nat :=
  match result_state r with
  | Some s => Some (thunk_runs (promises s l))
  | None => None
  end.

(** The same outcome with the returned value mapped by [f]. *)
Definition map_result {A B} (f : A -> B) (r : Result A) : Result B :=
  match r with
  | Done a s => Done (f a) s
  | Raised fmt irr s => Raised fmt irr s
  | Panicked msg => Panicked msg
  | Fault => Fault
  end.

(** The same outcome with the state it ends in mapped by [g]. *)
Definition map_state {A} (g : State -> State) (r : Result A) : Result A :=
  match r with
  | Done a s => Done a (g s)
  | Raised fmt irr s => Raised fmt irr (g s)
  | Panicked msg => Panicked msg
  | Fault => Fault
  end.

(** ** Values read *)

(** The value a slot vector gives for [tl] before any forcing: the stored
    value, or the initial value when the index is outside the vector or the
    slot holds [SCM_UNBOUND]. *)
Definition slot_value (tl : ScmThreadLocal) (vec : list ScmObj) : ScmObj :=
  match vec !! index tl with
  | Some v => if SCM_UNBOUNDP v then initialValue tl else v
  | None => initialValue tl
  end.

(** The final step of the accessor and of the modifier: force if the
    descriptor is lazy. *)
Definition force_if_lazy (tl : ScmThreadLocal) (v : ScmObj) : M ScmObj :=
  if lazy_flag tl then Scm_Force v else ret v.

(** The value [Scm_Force] yields for [obj] in the state [s]. *)
Definition forced_in (s : State) (obj : ScmObj) : ScmObj :=
  match Scm_Force obj s with
  | Done v _ => v
  | _ => obj
  end.

(** What a read hands out for the stored value [v]: [v] itself, forced
    when the descriptor has the lazy flag. *)
Definition read_result (s : State) (tl : ScmThreadLocal) (v : ScmObj) : ScmObj :=
  if lazy_flag tl then forced_in s v else v.

(** ** States reached *)

(** The size [ensure_tl_slot] grows a table to for [index]. *)
Definition grown_size (index : nat) : nat :=
  ((index + THREAD_LOCAL_GROW) / THREAD_LOCAL_GROW) * THREAD_LOCAL_GROW.

(** The slots of a table of slots [vec] once it can hold the index [i]:
    unchanged if it already could, otherwise extended with [SCM_UNBOUND]
    up to [grown_size i]. *)
Definition widened (vec : list ScmObj) (i : nat) : list ScmObj :=
  if decide (length vec <= i)
  then vec ++ replicate (grown_size i - length vec) SCM_UNBOUND
  else vec.

(** The state [ensure_tl_slot(p, index)] leaves behind when it has to grow
    the table [t] behind [p], whose vector holds [vec]: a new vector at the
    next free address, the old vector overwritten with [SCM_FALSE], the
    table redirected. *)
Definition grown (s : State) (p : loc) (t : ScmVMThreadLocalTable)
    (vec : list ScmObj) (index : nat) : State :=
  set_tables (<[p := mkTable (length (arrays s)) (grown_size index)]> (tables s))
    (set_arrays
       (<[vector t := replicate (size t) SCM_FALSE]> (arrays s)
        ++ [vec ++ replicate (grown_size index - size t) SCM_UNBOUND]) s).

(** The heap after the vector at [a], holding [vec], got [v] at [i]. *)
Definition with_slot (s : State) (a : loc) (vec : list ScmObj) (i : nat) (v : ScmObj)
    : State :=
  set_arrays (<[a := <[i := v]> vec]> (arrays s)) s.

(** The heap after the table part of a read of [tl]: an unbound slot inside
    the vector has received the initial value, nothing else has changed. *)
Definition after_read (s : State) (t : ScmVMThreadLocalTable) (vec : list ScmObj)
    (tl : ScmThreadLocal) : State :=
  match vec !! index tl with
  | Some v => if SCM_UNBOUNDP v
              then with_slot s (vector t) vec (index tl) (initialValue tl)
              else s
  | None => s
  end.

(** The heap after the table part of a write of [val] to [tl] through the
    table pointer [p]. *)
Definition after_write (s : State) (p : loc) (t : ScmVMThreadLocalTable)
    (vec : list ScmObj) (tl : ScmThreadLocal) (val : ScmObj) : State :=
  if decide (size t <= index tl) then
    with_slot (grown s p t vec (index tl)) (length (arrays s))
      (vec ++ replicate (grown_size (index tl) - size t) SCM_UNBOUND) (index tl) val
  else with_slot s (vector t) vec (index tl) val.

(** ** The log of warnings *)

(** A computation that neither reads nor writes the log of warnings: run
    with another log, it does the same and leaves that log. *)
Definition ignores_warnings {A} (m : M A) : Prop :=
  forall w s, m (set_warnings w s) = map_state (set_warnings w) (m s).

(** The state [s] with the log of [s0] followed by the warnings [msgs]. *)
Definition warned (msgs : list string) (s0 : State) (s : State) : State :=
  set_warnings (warnings s0 ++ msgs) s.

(** ** Sequences of creations *)

(** One call of [Scm_MakeThreadLocal]: the VM of the calling thread and the
    arguments. *)
Record Creation : Type := mkCreation {
  by_vm : ScmVM;
  c_klass : ScmClass;
  c_name : ScmObj;
  c_initval : ScmObj;
  c_flags : N
}.

(** The calls of a list, one after the other, in any order of threads.
    With each descriptor goes what the caller's table is right after the
    call: its slots, if the table points to an allocated vector of the
    recorded size, and nothing otherwise. *)
Fixpoint make_all (cs : list Creation)
    : M (list (ScmThreadLocal * option (list ScmObj))) :=
  match cs with
  | [] => ret []
  | c :: rest =>
      let* tl := Scm_MakeThreadLocal (by_vm c) (c_klass c) (c_name c)
                   (c_initval c) (c_flags c) in
      let* slots := (fun s => Done (vm_slots s (by_vm c)) s) in
      let* out := make_all rest in
      ret ((tl, slots) :: out)
  end.

(** ** Concrete states and runs *)

(** A promise store in which every promise is still delayed and will
    evaluate to 42. *)
Definition delayed_42 : loc -> ScmPromise :=
  fun _ => mkPromise false (SCM_INT 42) 0.

(** A process with one VM whose table has four slots, two of them set. *)
Definition sample_vm : ScmVM := mkVM 0.
Definition sample_state : State :=
  mkState 2 [mkTable 0 4]
    [[SCM_INT 10; SCM_UNBOUND; SCM_PROMISE 0; SCM_UNBOUND]] delayed_42 [] [].

(** The same process with a second VM whose table is a separate copy. *)
Definition sample_child : ScmVM := mkVM 1.
Definition sample_state2 : State :=
  mkState 2 [mkTable 0 4; mkTable 1 4]
    [[SCM_INT 10; SCM_UNBOUND; SCM_PROMISE 0; SCM_UNBOUND];
     [SCM_INT 10; SCM_UNBOUND; SCM_PROMISE 0; SCM_UNBOUND]] delayed_42 [] [].

(** Descriptors for these states: a plain one and a lazy one. *)
Definition sample_tl (i : nat) (init : ScmObj) : ScmThreadLocal :=
  mkThreadLocal SCM_CLASS_THREAD_LOCAL SCM_FALSE i init 0.
Definition sample_lazy_tl (i : nat) (init : ScmObj) : ScmThreadLocal :=
  mkThreadLocal SCM_CLASS_THREAD_LOCAL SCM_FALSE i init SCM_PARAMETER_LAZY.


(** The scenario of the spec: a root context A, a descriptor with initial
    value 0, a write of 5 and a read in A, a context B spawned from A, a
    read and a write of 9 in B, and a last read in A.  The result lists
    what the first write, the read in A, the read in B and the last read
    in A return. *)
Definition spawn_scenario : M (list ScmObj) :=
  let* ta := Scm__MakeVMThreadLocalTable None in
  let A := mkVM ta in
  let* d0 := Scm_MakeThreadLocal A SCM_CLASS_THREAD_LOCAL SCM_FALSE (SCM_INT 0) 0 in
  let* w1 := Scm_ThreadLocalSet A d0 (SCM_INT 5) in
  let* r1 := Scm_ThreadLocalRef A d0 in
  let* tb := Scm__MakeVMThreadLocalTable (Some A) in
  let B := mkVM tb in
  let* r2 := Scm_ThreadLocalRef B d0 in
  Scm_ThreadLocalSet B d0 (SCM_INT 9) ;;
  let* r3 := Scm_ThreadLocalRef A d0 in
  ret [w1; r1; r2; r3].

(** * The UTF-8 codec (src/gauche/char_utf_8.h) *)

(** A character buffer: bytes as numbers from 0 to 255, addressed by their
    offset.  Reading through [unsigned char *] yields these numbers;
    storing into a [char] keeps the low eight bits of the value. *)
Abbreviation buffer := (list Z) (only parsing).

(** A step that may leave the buffer, followed by the next one. *)
Definition and_then {A B} (m : option A) (f : A -> option B) : option B :=
  match m with
  | Some a => f a
  | None => None
  end.
Infix ">>=" := and_then (at level 50, left associativity).

(** Modelled from the spec: the constant [SCM_CHAR_INVALID] of gauche.h,
    which is not among the sources; [ScmChar] is a signed integer there and
    the constant is -1, no character. *)
Definition SCM_CHAR_INVALID : Z := -1.

Definition SCM_CHAR_MAX_BYTES : nat := 6.

(** [Scm_CharSizeTable], row by row. *)
Definition Scm_CharSizeTable : list Z :=
  [ 0; 0; 0; 0; 0; 0; 0; 0; 0; 0; 0; 0; 0; 0; 0; 0;  (* 0x *)
    0; 0; 0; 0; 0; 0; 0; 0; 0; 0; 0; 0; 0; 0; 0; 0;  (* 1x *)
    0; 0; 0; 0; 0; 0; 0; 0; 0; 0; 0; 0; 0; 0; 0; 0;  (* 2x *)
    0; 0; 0; 0; 0; 0; 0; 0; 0; 0; 0; 0; 0; 0; 0; 0;  (* 3x *)
    0; 0; 0; 0; 0; 0; 0; 0; 0; 0; 0; 0; 0; 0; 0; 0;  (* 4x *)
    0; 0; 0; 0; 0; 0; 0; 0; 0; 0; 0; 0; 0; 0; 0; 0;  (* 5x *)
    0; 0; 0; 0; 0; 0; 0; 0; 0; 0; 0; 0; 0; 0; 0; 0;  (* 6x *)
    0; 0; 0; 0; 0; 0; 0; 0; 0; 0; 0; 0; 0; 0; 0; 0;  (* 7x *)
    0; 0; 0; 0; 0; 0; 0; 0; 0; 0; 0; 0; 0; 0; 0; 0;  (* 8x *)
    0; 0; 0; 0; 0; 0; 0; 0; 0; 0; 0; 0; 0; 0; 0; 0;  (* 9x *)
    0; 0; 0; 0; 0; 0; 0; 0; 0; 0; 0; 0; 0; 0; 0; 0;  (* ax *)
    0; 0; 0; 0; 0; 0; 0; 0; 0; 0; 0; 0; 0; 0; 0; 0;  (* bx *)
    1; 1; 1; 1; 1; 1; 1; 1; 1; 1; 1; 1; 1; 1; 1; 1;  (* cx *)
    1; 1; 1; 1; 1; 1; 1; 1; 1; 1; 1; 1; 1; 1; 1; 1;  (* dx *)
    2; 2; 2; 2; 2; 2; 2; 2; 2; 2; 2; 2; 2; 2; 2; 2;  (* ex *)
    3; 3; 3; 3; 3; 3; 3; 3; 4; 4; 4; 4; 5; 5; 0; 0   (* fx *)
  ]%Z.

(** [SCM_CHAR_NFOLLOWS(ch)]: the table entry of a byte; there is none for a
    number that is not a byte. *)
Definition SCM_CHAR_NFOLLOWS (ch : Z) : option Z :=
  if decide (0 <= ch)%Z then Scm_CharSizeTable !! Z.to_nat ch else None.

(** [SCM_CHAR_NBYTES(ch)]. *)
Definition SCM_CHAR_NBYTES (ch : Z) : nat :=
  if (ch <? 0x80)%Z then 1
  else if (ch <? 0x800)%Z then 2
  else if (ch <? 0x10000)%Z then 3
  else if (ch <? 0x200000)%Z then 4
  else if (ch <? 0x4000000)%Z then 5
  else 6.

(** What [Scm_CharUtf8Getc] comes back with: a character or
    [SCM_CHAR_INVALID]; nothing defined, when it returns its local [ch]
    without having assigned it; or a read outside the buffer. *)
Inductive getc_result : Type :=
| GotChar (ch : Z)
| Unassigned
| ReadOutside.

(** One step [ch = (ch<<6) | (b & 0x3f)], [b] being the byte the advancing
    pointer [ucp] reads at offset [i]. *)
Definition follow_byte (buf : buffer) (i : nat) (ch : Z) : option Z :=
  match buf !! i with
  | Some b => Some (Z.lor (Z.shiftl ch 6) (Z.land b 0x3f))
  | None => None
  end.

(** The closing test of a branch: [if (ch < least) ch = SCM_CHAR_INVALID]. *)
Definition least_or_invalid (least : Z) (r : option Z) : getc_result :=
  match r with
  | Some ch => GotChar (if (ch <? least)%Z then SCM_CHAR_INVALID else ch)
  | None => ReadOutside
  end.

(** [Scm_CharUtf8Getc(cp)], [cp] being the offset [cp] of [buf]. *)
Definition Scm_CharUtf8Getc (buf : buffer) (cp : nat) : getc_result :=
  match buf !! cp with
  | None => ReadOutside
  | Some first =>
      if (first <? 0x80)%Z then Unassigned
      else if (first <? 0xc0)%Z then GotChar SCM_CHAR_INVALID
      else if (first <? 0xe0)%Z then
        least_or_invalid 0x80
          (follow_byte buf (cp + 1) (Z.land first 0x1f))
      else if (first <? 0xf0)%Z then
        least_or_invalid 0x800
          (follow_byte buf (cp + 1) (Z.land first 0x0f)
             >>= follow_byte buf (cp + 2))
      else if (first <? 0xf8)%Z then
        least_or_invalid 0x10000
          (follow_byte buf (cp + 1) (Z.land first 0x07)
             >>= follow_byte buf (cp + 2)
             >>= follow_byte buf (cp + 3))
      else if (first <? 0xfc)%Z then
        least_or_invalid 0x200000
          (follow_byte buf (cp + 1) (Z.land first 0x03)
             >>= follow_byte buf (cp + 2)
             >>= follow_byte buf (cp + 3)
             >>= follow_byte buf (cp + 4))
      else if (first <? 0xfe)%Z then
        least_or_invalid 0x4000000
          (follow_byte buf (cp + 1) (Z.land first 0x01)
             >>= follow_byte buf (cp + 2)
             >>= follow_byte buf (cp + 3)
             >>= follow_byte buf (cp + 4)
             >>= follow_byte buf (cp + 5))
      else GotChar SCM_CHAR_INVALID
  end.

(** [*cp = v] for a [char *cp] at offset [i]: the low eight bits of [v]
    are stored; there is no store outside the buffer. *)
Definition put_byte (i : nat) (v : Z) (buf : buffer) : option buffer :=
  if decide (i < length buf) then Some (<[i := Z.land v 0xff]> buf) else None.

(** [Scm_CharUtf8Putc(cp, ch)]. *)
Definition Scm_CharUtf8Putc (buf : buffer) (cp : nat) (ch : Z) : option buffer :=
  if (ch <? 0x80)%Z then
    put_byte cp ch buf
  else if (ch <? 0x800)%Z then
    put_byte cp (Z.lor (Z.land (Z.shiftr ch 6) 0x1f) 0xc0) buf
      >>= put_byte (cp + 1) (Z.lor (Z.land ch 0x3f) 0x80)
  else if (ch <? 0x10000)%Z then
    put_byte cp (Z.lor (Z.land (Z.shiftr ch 12) 0x0f) 0xe0) buf
      >>= put_byte (cp + 1) (Z.lor (Z.land (Z.shiftr ch 6) 0x3f) 0x80)
      >>= put_byte (cp + 2) (Z.lor (Z.land ch 0x3f) 0x80)
  else if (ch <? 0x200000)%Z then
    put_byte cp (Z.lor (Z.land (Z.shiftr ch 18) 0x07) 0xf0) buf
      >>= put_byte (cp + 1) (Z.lor (Z.land (Z.shiftr ch 12) 0x3f) 0x80)
      >>= put_byte (cp + 2) (Z.lor (Z.land (Z.shiftr ch 6) 0x3f) 0x80)
      >>= put_byte (cp + 3) (Z.lor (Z.land ch 0x3f) 0x80)
  else if (ch <? 0x4000000)%Z then
    put_byte cp (Z.lor (Z.land (Z.shiftr ch 24) 0x03) 0xf8) buf
      >>= put_byte (cp + 1) (Z.lor (Z.land (Z.shiftr ch 18) 0x3f) 0x80)
      >>= put_byte (cp + 2) (Z.lor (Z.land (Z.shiftr ch 12) 0x3f) 0x80)
      >>= put_byte (cp + 3) (Z.lor (Z.land (Z.shiftr ch 6) 0x3f) 0x80)
      >>= put_byte (cp + 4) (Z.lor (Z.land ch 0x3f) 0x80)
  else
    put_byte cp (Z.lor (Z.land (Z.shiftr ch 30) 0x1) 0xfc) buf
      >>= put_byte (cp + 1) (Z.lor (Z.land (Z.shiftr ch 24) 0x3f) 0x80)
      >>= put_byte (cp + 2) (Z.lor (Z.land (Z.shiftr ch 18) 0x3f) 0x80)
      >>= put_byte (cp + 3) (Z.lor (Z.land (Z.shiftr ch 12) 0x3f) 0x80)
      >>= put_byte (cp + 4) (Z.lor (Z.land (Z.shiftr ch 6) 0x3f) 0x80)
      >>= put_byte (cp + 5) (Z.lor (Z.land ch 0x3f) 0x80).

(** [SCM_CHAR_GET(cp, ch)]: the value [ch] has afterwards. *)
Definition SCM_CHAR_GET (buf : buffer) (cp : nat) : getc_result :=
  match buf !! cp with
  | None => ReadOutside
  | Some ch => if (0x80 <=? ch)%Z then Scm_CharUtf8Getc buf cp else GotChar ch
  end.

(** [SCM_CHAR_PUT(cp, ch)]. *)
Definition SCM_CHAR_PUT (buf : buffer) (cp : nat) (ch : Z) : option buffer :=
  if (0x80 <=? ch)%Z then Scm_CharUtf8Putc buf cp ch else put_byte cp ch buf.

(** What [SCM_CHAR_BACKWARD] leaves in [result]: a position, [NULL], or it
    has read outside the buffer or outside the table on the way. *)
Inductive backward_result : Type :=
| FoundAt (result : Z)
| FoundNull
| BackwardOutside.

(** The loop of [SCM_CHAR_BACKWARD] with [k] positions left to try, the
    next one being [start + k - 1]; with none left, [result] is below
    [start] and becomes [NULL]. *)
Fixpoint backward_loop (buf : buffer) (cp start : Z) (k : nat) : backward_result :=
  match k with
  | 0 => FoundNull
  | S k' =>
      let result := (start + Z.of_nat k')%Z in
      if decide (0 <= result)%Z then
        match buf !! Z.to_nat result with
        | Some b =>
            match SCM_CHAR_NFOLLOWS b with
            | Some n =>
                if (result + n + 1 =? cp)%Z then FoundAt result
                else backward_loop buf cp start k'
            | None => BackwardOutside
            end
        | None => BackwardOutside
        end
      else BackwardOutside
  end.

(** [SCM_CHAR_BACKWARD(cp, start, result)]: [result] starts at [cp] and
    goes down to [start]. *)
Definition SCM_CHAR_BACKWARD (buf : buffer) (cp start : Z) : backward_result :=
  backward_loop buf cp start (Z.to_nat (cp - start + 1)).

(** ** The codec in arithmetic *)

(** The values [Scm_CharUtf8Putc] stores for [ch], in the order of the
    stores, before they are cut to a byte. *)
Definition putc_values (ch : Z) : list Z :=
  if (ch <? 0x80)%Z then [ch]
  else if (ch <? 0x800)%Z then
    [Z.lor (Z.land (Z.shiftr ch 6) 0x1f) 0xc0; Z.lor (Z.land ch 0x3f) 0x80]
  else if (ch <? 0x10000)%Z then
    [Z.lor (Z.land (Z.shiftr ch 12) 0x0f) 0xe0;
     Z.lor (Z.land (Z.shiftr ch 6) 0x3f) 0x80; Z.lor (Z.land ch 0x3f) 0x80]
  else if (ch <? 0x200000)%Z then
    [Z.lor (Z.land (Z.shiftr ch 18) 0x07) 0xf0;
     Z.lor (Z.land (Z.shiftr ch 12) 0x3f) 0x80;
     Z.lor (Z.land (Z.shiftr ch 6) 0x3f) 0x80; Z.lor (Z.land ch 0x3f) 0x80]
  else if (ch <? 0x4000000)%Z then
    [Z.lor (Z.land (Z.shiftr ch 24) 0x03) 0xf8;
     Z.lor (Z.land (Z.shiftr ch 18) 0x3f) 0x80;
     Z.lor (Z.land (Z.shiftr ch 12) 0x3f) 0x80;
     Z.lor (Z.land (Z.shiftr ch 6) 0x3f) 0x80; Z.lor (Z.land ch 0x3f) 0x80]
  else
    [Z.lor (Z.land (Z.shiftr ch 30) 0x1) 0xfc;
     Z.lor (Z.land (Z.shiftr ch 24) 0x3f) 0x80;
     Z.lor (Z.land (Z.shiftr ch 18) 0x3f) 0x80;
     Z.lor (Z.land (Z.shiftr ch 12) 0x3f) 0x80;
     Z.lor (Z.land (Z.shiftr ch 6) 0x3f) 0x80; Z.lor (Z.land ch 0x3f) 0x80].

(** The bytes that represent [ch]: the low eight bits of those values. *)
Definition utf8_bytes (ch : Z) : list Z :=
  map (fun v => Z.land v 0xff) (putc_values ch).

(** Stores of the values [vs] at the offsets [i], [i+1], ... *)
Fixpoint put_bytes (i : nat) (vs : list Z) (buf : buffer) : option buffer :=
  match vs with
  | [] => Some buf
  | v :: vs' => put_byte i v buf >>= put_bytes (S i) vs'
  end.

(** The buffer with the bytes [bs] in place of those from offset [i] on. *)
Definition spliced (buf : buffer) (i : nat) (bs : list Z) : buffer :=
  take i buf ++ bs ++ drop (i + length bs) buf.

(** A byte of the form 10xxxxxx. *)
Definition continuation (b : Z) : Prop := (0x80 <= b < 0xc0)%Z.

(** The number of following bytes a lead byte announces, by ranges; the
    table [Scm_CharSizeTable] in arithmetic. *)
Definition lead_follows (first : Z) : nat :=
  if (first <? 0xc0)%Z then 0
  else if (first <? 0xe0)%Z then 1
  else if (first <? 0xf0)%Z then 2
  else if (first <? 0xf8)%Z then 3
  else if (first <? 0xfc)%Z then 4
  else if (first <? 0xfe)%Z then 5
  else 0.

(** The number the decoder builds from a lead byte and its following
    bytes: the low bits of the lead byte, then six bits of each byte. *)
Definition decode_value (first : Z) (conts : list Z) : Z :=
  fold_left (fun ch b => ch * 64 + b mod 64)%Z conts
    (first mod 2 ^ (6 - Z.of_nat (length conts)))%Z.

(** The least number a sequence with [n] following bytes may stand for. *)
Definition least_of (n : nat) : Z :=
  match n with
  | 1 => 0x80%Z
  | 2 => 0x800%Z
  | 3 => 0x10000%Z
  | 4 => 0x200000%Z
  | _ => 0x4000000%Z
  end.

(** The test of [SCM_CHAR_BACKWARD] at the position [r]: the byte there
    and the bytes it announces end right before [cp]. *)
Definition ends_before (buf : buffer) (cp r : Z) : Prop :=
  exists b n, (0 <= r)%Z /\ buf !! Z.to_nat r = Some b
              /\ SCM_CHAR_NFOLLOWS b = Some n /\ (r + n + 1 = cp)%Z.

(** The order in which [memcmp] puts two byte sequences when it finds a
    differing byte: the first byte that differs is smaller in the first
    sequence. *)
Fixpoint bytes_lt (a b : list Z) : Prop :=
  match a, b with
  | x :: a', y :: b' => (x < y)%Z \/ (x = y /\ bytes_lt a' b')
  | _, _ => False
  end.

(** * The heap invariant *)

(** What holds of the tables in every state the functions of [parameter.c]
    reach from the start of the process: every table points to a vector of
    the recorded size, the slots at and above [next_tl_index], for which
    no descriptor has been issued, hold [SCM_UNBOUND], and no two tables
    share a vector. *)
Definition heap_ok (s : State) : Prop :=
  (forall p t, tables s !! p = Some t ->
     exists vec, arrays s !! vector t = Some vec /\ size t = length vec
                 /\ forall j, next_tl_index s <= j < length vec ->
                              vec !! j = Some SCM_UNBOUND)
  /\ (forall p q tp tq, tables s !! p = Some tp -> tables s !! q = Some tq ->
                        vector tp = vector tq -> p = q).

(** A process in which two descriptors have been issued and one VM has a
    table of four slots, the first of them set. *)
Definition started_state : State :=
  mkState 2 [mkTable 0 4]
    [[SCM_INT 10; SCM_UNBOUND; SCM_UNBOUND; SCM_UNBOUND]] delayed_42 [] [].

(** The same process after the creation of a second thread. *)
Definition started_state2 : State :=
  mkState 2 [mkTable 0 4; mkTable 1 4]
    [[SCM_INT 10; SCM_UNBOUND; SCM_UNBOUND; SCM_UNBOUND];
     [SCM_INT 10; SCM_UNBOUND; SCM_UNBOUND; SCM_UNBOUND]] delayed_42 [] [].

(** * Reasoning principles *)

(** Reduces field accesses and updates of a state, and nothing else. *)
Ltac norm_state :=
  cbn [next_tl_index tables arrays promises warnings bindings
       set_next_tl_index set_tables set_arrays set_promises set_warnings
       set_bindings] in *.

Section Monad.
Context {A B : Type}.

Lemma bind_Done (m : M A) (f : A -> M B) s a s' :
  m s = Done a s' -> bind m f s = f a s'.
Proof. intros E. unfold bind. now rewrite E. Qed.

End Monad.

(** The invariant rule for the counted loop. *)
Lemma for_range_inv (I : nat -> State -> Prop) body n :
  forall lo s,
    I lo s ->
    (forall i si, lo <= i < lo + n -> I i si ->
                  exists si', body i si = Done tt si' /\ I (S i) si') ->
    exists s', for_range lo n body s = Done tt s' /\ I (lo + n) s'.
Proof.
  induction n as [|n IH]; intros lo s H0 Hstep; simpl.
  - exists s. split; [reflexivity|]. now replace (lo + 0) with lo by lia.
  - destruct (Hstep lo s) as (s1 & E1 & I1); [lia | assumption |].
    destruct (IH (S lo) s1 I1) as (s2 & E2 & I2).
    { intros i si Hi. apply Hstep. lia. }
    exists s2. split.
    + now rewrite (bind_Done _ _ _ _ _ E1).
    + now replace (lo + S n) with (S lo + n) by lia.
Qed.

Section Memory.
Implicit Types (s : State) (a p : loc) (vec : list ScmObj).

Lemma get_table_Done s p t :
  tables s !! p = Some t -> get_table p s = Done t s.
Proof. intros E. unfold get_table. now rewrite E. Qed.

Lemma put_table_Done s p t t' :
  tables s !! p = Some t ->
  put_table p t' s = Done tt (set_tables (<[p := t']> (tables s)) s).
Proof. intros E. unfold put_table. now rewrite E. Qed.

Lemma load_Done s a vec i v :
  arrays s !! a = Some vec -> vec !! i = Some v -> load a i s = Done v s.
Proof. intros E1 E2. unfold load. now rewrite E1, E2. Qed.

Lemma store_Done s a vec i v :
  arrays s !! a = Some vec -> i < length vec ->
  store a i v s = Done tt (set_arrays (<[a := <[i := v]> vec]> (arrays s)) s).
Proof.
  intros E Hi. unfold store. rewrite E.
  destruct (decide (i < length vec)); [reflexivity | contradiction].
Qed.
End Memory.

(** One step of each of the three loops, on the vectors themselves. *)
Section Steps.
Context {A : Type}.
Implicit Types (l : list A).

Lemma copy_step l i n x pad :
  l !! i = Some x -> i < n ->
  <[i := x]> (take i l ++ replicate (n - i) pad)
  = take (S i) l ++ replicate (n - S i) pad.
Proof.
  intros Hx Hi. pose proof (lookup_lt_Some _ _ _ Hx) as Hlen.
  replace (n - i) with (S (n - S i)) by lia. simpl.
  rewrite insert_app_r_alt by (rewrite length_take; lia).
  rewrite length_take. replace (i - i `min` length l) with 0 by lia. simpl.
  rewrite (take_S_r _ _ _ Hx). now rewrite <- app_assoc.
Qed.

Lemma clear_step l i x pad :
  l !! i = Some x ->
  <[i := pad]> (replicate i pad ++ drop i l)
  = replicate (S i) pad ++ drop (S i) l.
Proof.
  intros Hx. rewrite replicate_S_end, <- app_assoc, (drop_S _ _ _ Hx).
  rewrite insert_app_r_alt by (rewrite length_replicate; lia).
  rewrite length_replicate. replace (i - i) with 0 by lia. reflexivity.
Qed.

Lemma pad_step l i n pad0 pad :
  length l <= i < n ->
  <[i := pad]> (l ++ replicate (i - length l) pad ++ replicate (n - i) pad0)
  = l ++ replicate (S i - length l) pad ++ replicate (n - S i) pad0.
Proof.
  intros Hi.
  replace (S i - length l) with (S (i - length l)) by lia.
  rewrite replicate_S_end, <- app_assoc.
  rewrite insert_app_r_alt by lia. f_equal.
  rewrite insert_app_r_alt by (rewrite length_replicate; lia).
  rewrite length_replicate.
  replace (i - length l - (i - length l)) with 0 by lia.
  replace (n - i) with (S (n - S i)) by lia. reflexivity.
Qed.
End Steps.

Lemma grown_size_gt index : index < grown_size index.
Proof.
  unfold grown_size, THREAD_LOCAL_GROW.
  pose proof (Nat.div_mod_eq (index + 16) 16) as E.
  pose proof (Nat.mod_upper_bound (index + 16) 16). lia.
Qed.

Lemma grown_size_multiple index : (THREAD_LOCAL_GROW | grown_size index).
Proof. exists ((index + THREAD_LOCAL_GROW) / THREAD_LOCAL_GROW). reflexivity. Qed.

(** A heap of vectors in which one old block and the block allocated last
    are being written. *)
Section TwoBlocks.
Variables (H : list (list ScmObj)) (old : loc).
Hypothesis Hold : old < length H.

Lemma heap2_lookup_old a b : (<[old := a]> H ++ [b]) !! old = Some a.
Proof.
  rewrite lookup_app_l by (rewrite length_insert; exact Hold).
  now apply list_lookup_insert_eq.
Qed.

Lemma heap2_lookup_new a b : (<[old := a]> H ++ [b]) !! length H = Some b.
Proof.
  rewrite lookup_app_r by (rewrite length_insert; lia).
  rewrite length_insert. now replace (length H - length H) with 0 by lia.
Qed.

Lemma heap2_insert_old a a' b :
  <[old := a']> (<[old := a]> H ++ [b]) = <[old := a']> H ++ [b].
Proof.
  rewrite insert_app_l by (rewrite length_insert; exact Hold).
  now rewrite list_insert_insert_eq.
Qed.

Lemma heap2_insert_new a b b' :
  <[length H := b']> (<[old := a]> H ++ [b]) = <[old := a]> H ++ [b'].
Proof.
  rewrite insert_app_r_alt by (rewrite length_insert; lia).
  rewrite length_insert. now replace (length H - length H) with 0 by lia.
Qed.
End TwoBlocks.

Section EnsureSlot.
Variables (s : State) (p : loc) (t : ScmVMThreadLocalTable) (vec : list ScmObj).
Hypothesis Htable : tables s !! p = Some t.

Lemma ensure_tl_slot_fits index :
  index < size t -> ensure_tl_slot p index s = Done tt s.
Proof.
  intros Hi. unfold ensure_tl_slot.
  rewrite (bind_Done _ _ _ _ _ (get_table_Done _ _ _ Htable)).
  destruct (decide (size t <= index)); [lia | reflexivity].
Qed.

Hypothesis Hvec : arrays s !! vector t = Some vec.
Hypothesis Hsize : size t = length vec.

Lemma ensure_tl_slot_grows index :
  size t <= index -> ensure_tl_slot p index s = Done tt (grown s p t vec index).
Proof.
  intros Hi. unfold ensure_tl_slot.
  rewrite (bind_Done _ _ _ _ _ (get_table_Done _ _ _ Htable)).
  destruct (decide (size t <= index)) as [_|]; [|lia].
  fold (grown_size index). pose proof (grown_size_gt index) as Hgt.
  set (n := grown_size index) in *.
  pose proof (lookup_lt_Some _ _ _ Hvec) as Hold.
  unfold bind at 1, SCM_NEW_ARRAY at 1.
  (* the copying loop *)
  destruct (for_range_inv
    (fun i si => si = set_arrays
       (<[vector t := replicate i SCM_FALSE ++ drop i vec]> (arrays s)
        ++ [take i vec ++ replicate (n - i) SCM_NULLOBJ]) s)
    (fun i => let* x := load (vector t) i in
              store (length (arrays s)) i x ;; store (vector t) i SCM_FALSE)
    (size t) 0
    (set_arrays (arrays s ++ [replicate n SCM_NULLOBJ]) s))
    as (s1 & E1 & I1).
  { rewrite Nat.sub_0_r, drop_0. simpl. now rewrite (list_insert_id _ _ _ Hvec). }
  { intros i si [_ Hlt] ->. rewrite Nat.add_0_l in Hlt.
    destruct (lookup_lt_is_Some_2 vec i) as [x Hx]; [lia|].
    erewrite bind_Done; cycle 1.
    { eapply load_Done; norm_state.
      - now apply heap2_lookup_old.
      - rewrite lookup_app_r by (rewrite length_replicate; lia).
        rewrite length_replicate, lookup_drop.
        replace (i + (i - i)) with i by lia. exact Hx. }
    erewrite bind_Done; cycle 1.
    { eapply store_Done; norm_state.
      - now apply heap2_lookup_new.
      - rewrite length_app, length_take, length_replicate. lia. }
    norm_state. rewrite heap2_insert_new by assumption.
    erewrite store_Done; cycle 1.
    { norm_state. now apply heap2_lookup_old. }
    { rewrite length_app, length_replicate, length_drop. lia. }
    norm_state. rewrite heap2_insert_old by assumption.
    eexists. split; [reflexivity|].
    now rewrite (copy_step _ _ _ _ _ Hx) by lia; rewrite (clear_step _ _ _ _ Hx). }
  rewrite (bind_Done _ _ _ _ _ E1). rewrite Nat.add_0_l in I1. subst s1.
  rewrite drop_ge, take_ge, app_nil_r by lia.
  (* the filling loop *)
  destruct (for_range_inv
    (fun i si => si = set_arrays
       (<[vector t := replicate (size t) SCM_FALSE]> (arrays s)
        ++ [vec ++ replicate (i - length vec) SCM_UNBOUND
                ++ replicate (n - i) SCM_NULLOBJ]) s)
    (fun i => store (length (arrays s)) i SCM_UNBOUND)
    (n - size t) (size t)
    (set_arrays (<[vector t := replicate (size t) SCM_FALSE]> (arrays s)
                 ++ [vec ++ replicate (n - size t) SCM_NULLOBJ]) s))
    as (s2 & E2 & I2).
  { now replace (size t - length vec) with 0 by lia. }
  { intros i si Hrange ->.
    erewrite store_Done; cycle 1.
    { norm_state. now apply heap2_lookup_new. }
    { rewrite !length_app, !length_replicate. lia. }
    norm_state. rewrite heap2_insert_new by assumption.
    eexists. split; [reflexivity|].
    now rewrite pad_step by lia. }
  rewrite (bind_Done _ _ _ _ _ E2). subst s2.
  erewrite put_table_Done by (norm_state; exact Htable).
  unfold grown. norm_state. fold n.
  replace (size t + (n - size t)) with n by lia.
  replace (n - n) with 0 by lia.
  replace (n - length vec) with (n - size t) by lia.
  cbn [replicate]. now rewrite app_nil_r.
Qed.
End EnsureSlot.

Section NewBlock.
Variables (H : list (list ScmObj)).

Lemma heap1_lookup_new b : (H ++ [b]) !! length H = Some b.
Proof. now apply list_lookup_middle. Qed.

Lemma heap1_insert_new b b' : <[length H := b']> (H ++ [b]) = H ++ [b'].
Proof.
  rewrite insert_app_r_alt by lia.
  now replace (length H - length H) with 0 by lia.
Qed.
End NewBlock.

Lemma fill_step {A} (i n : nat) (pad0 pad : A) :
  i < n ->
  <[i := pad]> (replicate i pad ++ replicate (n - i) pad0)
  = replicate (S i) pad ++ replicate (n - S i) pad0.
Proof.
  intros Hi. pose proof (pad_step (@nil A) i n pad0 pad) as E.
  cbn [length app] in E. rewrite !Nat.sub_0_r in E. apply E. lia.
Qed.

(** The table of the primordial thread. *)
Lemma Scm__MakeVMThreadLocalTable_root s :
  Scm__MakeVMThreadLocalTable None s
  = Done (length (tables s))
      (set_tables (tables s ++ [mkTable (length (arrays s)) THREAD_LOCAL_INIT_SIZE])
         (set_arrays (arrays s ++ [replicate THREAD_LOCAL_INIT_SIZE SCM_UNBOUND]) s)).
Proof.
  unfold Scm__MakeVMThreadLocalTable.
  set (n := THREAD_LOCAL_INIT_SIZE).
  unfold bind at 1, SCM_NEW_ARRAY at 1. unfold bind at 1, new_table at 1.
  norm_state.
  destruct (for_range_inv
    (fun i si => si = set_tables (tables s ++ [mkTable (length (arrays s)) n])
       (set_arrays (arrays s ++ [replicate i SCM_UNBOUND
                                 ++ replicate (n - i) SCM_NULLOBJ]) s))
    (fun i => store (length (arrays s)) i SCM_UNBOUND)
    n 0
    (set_tables (tables s ++ [mkTable (length (arrays s)) n])
       (set_arrays (arrays s ++ [replicate n SCM_NULLOBJ]) s)))
    as (s1 & E1 & I1).
  { now rewrite Nat.sub_0_r. }
  { intros i si [_ Hlt] ->. rewrite Nat.add_0_l in Hlt.
    erewrite store_Done; cycle 1.
    { norm_state. apply heap1_lookup_new. }
    { rewrite length_app, !length_replicate. lia. }
    norm_state. rewrite heap1_insert_new.
    eexists. split; [reflexivity|]. now rewrite fill_step by lia. }
  rewrite (bind_Done _ _ _ _ _ E1). rewrite Nat.add_0_l in I1. subst s1.
  replace (n - n) with 0 by lia. cbn [replicate]. now rewrite app_nil_r.
Qed.

(** The table of a thread created by the thread of [base]. *)
Lemma Scm__MakeVMThreadLocalTable_copy s base bt vec :
  tables s !! threadLocals base = Some bt ->
  arrays s !! vector bt = Some vec ->
  size bt = length vec ->
  Scm__MakeVMThreadLocalTable (Some base) s
  = Done (length (tables s))
      (set_tables (tables s ++ [mkTable (length (arrays s)) (size bt)])
         (set_arrays (arrays s ++ [vec]) s)).
Proof.
  intros Htable Hvec Hsize. unfold Scm__MakeVMThreadLocalTable.
  rewrite (bind_Done _ _ _ _ _ (get_table_Done _ _ _ Htable)).
  pose proof (lookup_lt_Some _ _ _ Hvec) as Hold.
  unfold bind at 1, SCM_NEW_ARRAY at 1. unfold bind at 1, new_table at 1.
  norm_state. set (n := size bt) in *.
  destruct (for_range_inv
    (fun i si => si = set_tables (tables s ++ [mkTable (length (arrays s)) n])
       (set_arrays (arrays s ++ [take i vec ++ replicate (n - i) SCM_NULLOBJ]) s))
    (fun i => let* x := load (vector bt) i in store (length (arrays s)) i x)
    n 0
    (set_tables (tables s ++ [mkTable (length (arrays s)) n])
       (set_arrays (arrays s ++ [replicate n SCM_NULLOBJ]) s)))
    as (s1 & E1 & I1).
  { now rewrite Nat.sub_0_r. }
  { intros i si [_ Hlt] ->. rewrite Nat.add_0_l in Hlt.
    destruct (lookup_lt_is_Some_2 vec i) as [x Hx]; [lia|].
    erewrite bind_Done; cycle 1.
    { eapply load_Done; norm_state; [|exact Hx].
      rewrite lookup_app_l by exact Hold. exact Hvec. }
    erewrite store_Done; cycle 1.
    { norm_state. apply heap1_lookup_new. }
    { rewrite length_app, length_take, length_replicate. lia. }
    norm_state. rewrite heap1_insert_new.
    eexists. split; [reflexivity|]. now rewrite (copy_step _ _ _ _ _ Hx) by lia. }
  rewrite (bind_Done _ _ _ _ _ E1). rewrite Nat.add_0_l in I1. subst s1.
  rewrite take_ge by lia. replace (n - n) with 0 by lia.
  cbn [replicate]. now rewrite app_nil_r.
Qed.

(** ** The table of a VM *)

Lemma vm_slots_Some s vm vec :
  vm_slots s vm = Some vec <->
  exists t, tables s !! threadLocals vm = Some t
            /\ arrays s !! vector t = Some vec /\ size t = length vec.
Proof.
  unfold vm_slots. split.
  - destruct (tables s !! threadLocals vm) as [t|] eqn:Et; [|discriminate].
    destruct (arrays s !! vector t) as [vec'|] eqn:Ev; [|discriminate].
    destruct (decide (size t = length vec')); [|discriminate].
    intros [= ->]. now exists t.
  - intros (t & -> & -> & E).
    destruct (decide (size t = length vec)); [reflexivity | contradiction].
Qed.

Section Accessors.
Variables (s : State) (vm : ScmVM) (t : ScmVMThreadLocalTable) (vec : list ScmObj).
Hypothesis Htable : tables s !! threadLocals vm = Some t.
Hypothesis Hvec : arrays s !! vector t = Some vec.
Hypothesis Hsize : size t = length vec.

(** The accessor: the table part followed by the forcing step. *)
Lemma Scm_ThreadLocalRef_eq tl :
  Scm_ThreadLocalRef vm tl s
  = force_if_lazy tl (slot_value tl vec) (after_read s t vec tl).
Proof.
  unfold Scm_ThreadLocalRef, slot_value, after_read.
  rewrite (bind_Done _ _ _ _ _ (get_table_Done _ _ _ Htable)).
  destruct (decide (size t <= index tl)) as [Hge|Hlt].
  - rewrite (proj2 (lookup_ge_None vec (index tl))) by lia. reflexivity.
  - destruct (lookup_lt_is_Some_2 vec (index tl)) as [v Hv]; [lia|].
    rewrite Hv. unfold bind at 1.
    rewrite (bind_Done _ _ _ _ _ (load_Done _ _ _ _ _ Hvec Hv)).
    destruct (SCM_UNBOUNDP v); [|reflexivity].
    assert (index tl < length vec) as Hin by lia.
    rewrite (bind_Done _ _ _ _ _
               (store_Done _ _ _ _ (initialValue tl) Hvec Hin)).
    reflexivity.
Qed.

(** The modifier: the old value is what the accessor would have read. *)
Lemma Scm_ThreadLocalSet_eq tl val :
  Scm_ThreadLocalSet vm tl val s
  = force_if_lazy tl (slot_value tl vec)
      (after_write s (threadLocals vm) t vec tl val).
Proof.
  unfold Scm_ThreadLocalSet, slot_value, after_write.
  rewrite (bind_Done _ _ _ _ _ (get_table_Done _ _ _ Htable)).
  pose proof (lookup_lt_Some _ _ _ Htable) as Hp.
  pose proof (lookup_lt_Some _ _ _ Hvec) as Hold.
  destruct (decide (size t <= index tl)) as [Hge|Hlt].
  - rewrite (proj2 (lookup_ge_None vec (index tl))) by lia.
    unfold bind at 1.
    rewrite (bind_Done _ _ _ _ _
               (ensure_tl_slot_grows s _ t vec Htable Hvec Hsize _ Hge)).
    unfold ret at 1. cbn [SCM_UNBOUNDP].
    pose proof (grown_size_gt (index tl)) as Hgt.
    erewrite bind_Done; cycle 1.
    { apply get_table_Done. unfold grown. norm_state.
      now apply list_lookup_insert_eq. }
    cbn [vector].
    erewrite bind_Done; cycle 1.
    { eapply store_Done.
      - unfold grown. norm_state.
        now apply heap2_lookup_new.
      - rewrite length_app, length_replicate. lia. }
    reflexivity.
  - destruct (lookup_lt_is_Some_2 vec (index tl)) as [v Hv]; [lia|].
    rewrite Hv.
    rewrite (bind_Done _ _ _ _ _ (load_Done _ _ _ _ _ Hvec Hv)).
    rewrite (bind_Done _ _ _ _ _ (get_table_Done _ _ _ Htable)).
    assert (index tl < length vec) as Hin by lia.
    rewrite (bind_Done _ _ _ _ _ (store_Done _ _ _ _ val Hvec Hin)).
    reflexivity.
Qed.
End Accessors.

(** ** Forcing *)

(** [Scm_Force] always returns; it touches nothing but the promise it
    forces, and it never changes what a promise evaluates to. *)
Lemma Scm_Force_Done obj s :
  exists s', Scm_Force obj s = Done (forced_in s obj) s'
             /\ next_tl_index s' = next_tl_index s
             /\ tables s' = tables s /\ arrays s' = arrays s
             /\ warnings s' = warnings s /\ bindings s' = bindings s
             /\ (forall l, thunk_value (promises s' l) = thunk_value (promises s l)).
Proof.
  unfold forced_in. destruct obj; try (eexists; repeat split; reflexivity).
  cbn [Scm_Force]. destruct (forced (promises s p)).
  - eexists; repeat split; reflexivity.
  - eexists; repeat split; try reflexivity.
    intros l. norm_state. destruct (decide (l = p)) as [->|]; reflexivity.
Qed.

Lemma forced_in_thunks s s' obj :
  (forall l, thunk_value (promises s' l) = thunk_value (promises s l)) ->
  forced_in s' obj = forced_in s obj.
Proof.
  intros E. unfold forced_in. destruct obj; try reflexivity.
  cbn [Scm_Force]. specialize (E p).
  destruct (forced (promises s p)), (forced (promises s' p)); exact E.
Qed.

Lemma read_result_thunks s s' tl v :
  (forall l, thunk_value (promises s' l) = thunk_value (promises s l)) ->
  read_result s' tl v = read_result s tl v.
Proof.
  intros E. unfold read_result. destruct (lazy_flag tl); [|reflexivity].
  now apply forced_in_thunks.
Qed.

Lemma force_if_lazy_Done tl v s :
  exists s', force_if_lazy tl v s = Done (read_result s tl v) s'
             /\ next_tl_index s' = next_tl_index s
             /\ tables s' = tables s /\ arrays s' = arrays s
             /\ warnings s' = warnings s /\ bindings s' = bindings s
             /\ (lazy_flag tl = false -> s' = s)
             /\ (forall l, thunk_value (promises s' l) = thunk_value (promises s l)).
Proof.
  unfold force_if_lazy, read_result. destruct (lazy_flag tl).
  - destruct (Scm_Force_Done v s) as (s' & E & H1 & H2 & H3 & H4 & H5 & H6).
    exists s'. repeat split; try assumption. discriminate.
  - exists s. repeat split; reflexivity.
Qed.

Lemma vm_slots_ext s s' vm :
  tables s' = tables s -> arrays s' = arrays s -> vm_slots s' vm = vm_slots s vm.
Proof. intros E1 E2. unfold vm_slots. now rewrite E1, E2. Qed.

Lemma widened_length vec i : length vec <= length (widened vec i) /\ i < length (widened vec i).
Proof.
  unfold widened. pose proof (grown_size_gt i).
  destruct (decide (length vec <= i)); [|lia].
  rewrite length_app, length_replicate. lia.
Qed.

Lemma widened_lookup vec i j : j < length vec -> widened vec i !! j = vec !! j.
Proof.
  intros Hj. unfold widened. destruct (decide (length vec <= i)); [|reflexivity].
  now apply lookup_app_l.
Qed.

Section Slots.
Variables (s : State) (vm : ScmVM) (t : ScmVMThreadLocalTable) (vec : list ScmObj).
Hypothesis Htable : tables s !! threadLocals vm = Some t.
Hypothesis Hvec : arrays s !! vector t = Some vec.
Hypothesis Hsize : size t = length vec.

Lemma vm_slots_intro : vm_slots s vm = Some vec.
Proof. apply vm_slots_Some. now exists t. Qed.

Lemma vm_slots_with_slot i v :
  vm_slots (with_slot s (vector t) vec i v) vm = Some (<[i := v]> vec).
Proof.
  apply vm_slots_Some. exists t. unfold with_slot. norm_state.
  repeat split; [assumption | | now rewrite length_insert].
  apply list_lookup_insert_eq. now apply lookup_lt_Some with vec.
Qed.

Lemma vm_slots_grown i :
  size t <= i ->
  vm_slots (grown s (threadLocals vm) t vec i) vm = Some (widened vec i).
Proof.
  intros Hi. apply vm_slots_Some.
  exists (mkTable (length (arrays s)) (grown_size i)).
  pose proof (grown_size_gt i). unfold grown, widened. norm_state.
  destruct (decide (length vec <= i)); [|lia].
  repeat split.
  - apply list_lookup_insert_eq. now apply lookup_lt_Some with t.
  - cbn [vector]. rewrite Hsize.
    apply heap2_lookup_new. now apply lookup_lt_Some with vec.
  - cbn [size]. rewrite length_app, length_replicate. lia.
Qed.

Lemma vm_slots_after_read tl :
  vm_slots (after_read s t vec tl) vm
  = Some (match vec !! index tl with
          | Some SCM_UNBOUND => <[index tl := initialValue tl]> vec
          | _ => vec
          end).
Proof.
  unfold after_read. destruct (vec !! index tl) as [v|]; [|apply vm_slots_intro].
  destruct v; cbn [SCM_UNBOUNDP];
    first [apply vm_slots_intro | apply vm_slots_with_slot].
Qed.

Lemma after_read_frame tl :
  next_tl_index (after_read s t vec tl) = next_tl_index s
  /\ tables (after_read s t vec tl) = tables s
  /\ promises (after_read s t vec tl) = promises s
  /\ warnings (after_read s t vec tl) = warnings s
  /\ bindings (after_read s t vec tl) = bindings s.
Proof.
  unfold after_read, with_slot.
  destruct (vec !! index tl) as [v|]; [destruct (SCM_UNBOUNDP v)|];
    repeat split; reflexivity.
Qed.

Lemma vm_slots_after_write tl val :
  vm_slots (after_write s (threadLocals vm) t vec tl val) vm
  = Some (<[index tl := val]> (widened vec (index tl))).
Proof.
  unfold after_write. destruct (decide (size t <= index tl)) as [Hge|Hlt].
  - pose proof (vm_slots_grown _ Hge) as E.
    apply vm_slots_Some in E as (t' & Ht' & Hv' & Hs').
    assert (vector t' = length (arrays s)) as Ea.
    { unfold grown in Ht'. norm_state.
      rewrite list_lookup_insert_eq in Ht' by now apply lookup_lt_Some with t.
      now injection Ht' as <-. }
    rewrite <- Ea.
    replace (vec ++ replicate (grown_size (index tl) - size t) SCM_UNBOUND)
      with (widened vec (index tl)).
    + apply vm_slots_Some. exists t'. unfold with_slot. norm_state.
      repeat split; [assumption | | now rewrite length_insert].
      apply list_lookup_insert_eq. now apply lookup_lt_Some with (widened vec (index tl)).
    + unfold widened. rewrite Hsize.
      destruct (decide (length vec <= index tl)); [reflexivity | lia].
  - unfold widened. destruct (decide (length vec <= index tl)); [lia|].
    apply vm_slots_with_slot.
Qed.

Lemma after_write_frame tl val :
  next_tl_index (after_write s (threadLocals vm) t vec tl val) = next_tl_index s
  /\ promises (after_write s (threadLocals vm) t vec tl val) = promises s
  /\ warnings (after_write s (threadLocals vm) t vec tl val) = warnings s
  /\ bindings (after_write s (threadLocals vm) t vec tl val) = bindings s.
Proof.
  unfold after_write, with_slot, grown.
  destruct (decide (size t <= index tl)); repeat split; reflexivity.
Qed.
End Slots.

Lemma widened_length_grown vec i :
  length vec <= i -> length (widened vec i) = grown_size i.
Proof.
  intros Hi. unfold widened. pose proof (grown_size_gt i).
  destruct (decide (length vec <= i)); [|lia].
  rewrite length_app, length_replicate. lia.
Qed.

(** * The accessor protocol *)

(** C1.  Reading a descriptor whose slot is unset in the table (its index
    lies outside the vector, or the slot holds [SCM_UNBOUND]) returns the
    descriptor's initial value, forced if the descriptor is lazy.  If the
    slot is inside the vector, the read stores the initial value there; if
    the index is outside, no table and no vector changes. *)
Theorem read_of_unset_slot s vm vec tl :
  vm_slots s vm = Some vec ->
  vec !! index tl = None \/ vec !! index tl = Some SCM_UNBOUND ->
  exists s',
    Scm_ThreadLocalRef vm tl s = Done (read_result s tl (initialValue tl)) s'
    /\ (index tl < length vec ->
        vm_slots s' vm = Some (<[index tl := initialValue tl]> vec))
    /\ (length vec <= index tl -> tables s' = tables s /\ arrays s' = arrays s).
Proof.
  intros Hslots Hunset.
  apply vm_slots_Some in Hslots as (t & Htable & Hvec & Hsize).
  rewrite (Scm_ThreadLocalRef_eq s vm t vec Htable Hvec Hsize).
  assert (slot_value tl vec = initialValue tl) as ->.
  { unfold slot_value. now destruct Hunset as [-> | ->]. }
  destruct (force_if_lazy_Done tl (initialValue tl) (after_read s t vec tl))
    as (s' & E & _ & Ht & Ha & _ & _ & _ & _).
  destruct (after_read_frame s t vec tl) as (_ & Ft & Fp & _ & _).
  exists s'. split; [|split].
  - rewrite E. f_equal. apply read_result_thunks. intros l. now rewrite Fp.
  - intros Hin. rewrite (vm_slots_ext _ _ _ Ht Ha).
    rewrite (vm_slots_after_read s vm t vec Htable Hvec Hsize).
    destruct Hunset as [Hn | ->]; [|reflexivity].
    apply lookup_ge_None in Hn. lia.
  - intros Hout. rewrite Ht, Ha, Ft. split; [reflexivity|].
    unfold after_read.
    now rewrite (proj2 (lookup_ge_None vec (index tl))) by lia.
Qed.

(** An instance: the unbound slot 1 of the four-slot table. *)
Lemma read_of_unset_slot_witness :
  vm_slots sample_state sample_vm
    = Some [SCM_INT 10; SCM_UNBOUND; SCM_PROMISE 0; SCM_UNBOUND]
  /\ exists s',
       Scm_ThreadLocalRef sample_vm (sample_tl 1 (SCM_INT 7)) sample_state
       = Done (SCM_INT 7) s'
       /\ (1 < 4 -> vm_slots s' sample_vm
                    = Some [SCM_INT 10; SCM_INT 7; SCM_PROMISE 0; SCM_UNBOUND])
       /\ (4 <= 1 -> tables s' = tables sample_state /\ arrays s' = arrays sample_state).
Proof.
  split; [reflexivity|].
  apply (read_of_unset_slot sample_state sample_vm
           [SCM_INT 10; SCM_UNBOUND; SCM_PROMISE 0; SCM_UNBOUND]
           (sample_tl 1 (SCM_INT 7))); [reflexivity | right; reflexivity].
Defined.

(** C2.  A write returns the value a read would have returned just before
    it; for a slot that is unset (also one beyond the vector) this is the
    initial value, forced if the descriptor is lazy. *)
Theorem write_returns_previous_read s vm vec tl val :
  vm_slots s vm = Some vec ->
  exists old s1 s2,
    Scm_ThreadLocalRef vm tl s = Done old s1
    /\ Scm_ThreadLocalSet vm tl val s = Done old s2
    /\ (vec !! index tl = None \/ vec !! index tl = Some SCM_UNBOUND ->
        old = read_result s tl (initialValue tl)).
Proof.
  intros Hslots.
  apply vm_slots_Some in Hslots as (t & Htable & Hvec & Hsize).
  rewrite (Scm_ThreadLocalRef_eq s vm t vec Htable Hvec Hsize).
  rewrite (Scm_ThreadLocalSet_eq s vm t vec Htable Hvec Hsize).
  destruct (force_if_lazy_Done tl (slot_value tl vec) (after_read s t vec tl))
    as (s1 & E1 & _).
  destruct (force_if_lazy_Done tl (slot_value tl vec)
              (after_write s (threadLocals vm) t vec tl val))
    as (s2 & E2 & _).
  destruct (after_read_frame s t vec tl) as (_ & _ & Fp1 & _ & _).
  destruct (after_write_frame s vm t vec tl val) as (_ & Fp2 & _ & _).
  exists (read_result s tl (slot_value tl vec)), s1, s2. split; [|split].
  - rewrite E1. f_equal. apply read_result_thunks. intros l. now rewrite Fp1.
  - rewrite E2. f_equal. apply read_result_thunks. intros l. now rewrite Fp2.
  - intros Hunset. unfold slot_value. now destruct Hunset as [-> | ->].
Qed.

(** An instance: a first write to index 9, beyond the four-slot table. *)
Lemma write_returns_previous_read_witness :
  vm_slots sample_state sample_vm
    = Some [SCM_INT 10; SCM_UNBOUND; SCM_PROMISE 0; SCM_UNBOUND]
  /\ exists old s1 s2,
       Scm_ThreadLocalRef sample_vm (sample_tl 9 (SCM_INT 7)) sample_state = Done old s1
       /\ Scm_ThreadLocalSet sample_vm (sample_tl 9 (SCM_INT 7)) (SCM_INT 5) sample_state
          = Done old s2
       /\ (@None ScmObj = None \/ None = Some SCM_UNBOUND -> old = SCM_INT 7).
Proof.
  split; [reflexivity|].
  apply (write_returns_previous_read sample_state sample_vm
           [SCM_INT 10; SCM_UNBOUND; SCM_PROMISE 0; SCM_UNBOUND]
           (sample_tl 9 (SCM_INT 7)) (SCM_INT 5)); reflexivity.
Defined.

Lemma SCM_UNBOUNDP_false v : v <> SCM_UNBOUND -> SCM_UNBOUNDP v = false.
Proof. destruct v; intros Hne; try reflexivity. now elim Hne. Qed.

(** C3, as stated, fails for one value: writing [SCM_UNBOUND] resets the
    slot, and the next read yields the initial value.  Here the slot 0 of
    the sample table gets [SCM_UNBOUND] and the read returns 7. *)
Lemma write_unbound_then_read_differs :
  result_value
    ((Scm_ThreadLocalSet sample_vm (sample_tl 0 (SCM_INT 7)) SCM_UNBOUND ;;
      Scm_ThreadLocalRef sample_vm (sample_tl 0 (SCM_INT 7))) sample_state)
  = Some (SCM_INT 7)
  /\ SCM_INT 7 <> SCM_UNBOUND.
Proof. split; [reflexivity | discriminate]. Qed.

(** C3, amended.  For every value other than [SCM_UNBOUND], a write stores
    the value as it is, and a read after the write yields it, forced only
    if the descriptor is lazy. *)
Theorem write_then_read s vm vec tl val :
  vm_slots s vm = Some vec ->
  val <> SCM_UNBOUND ->
  exists old s1 vec1 s2,
    Scm_ThreadLocalSet vm tl val s = Done old s1
    /\ vm_slots s1 vm = Some vec1
    /\ vec1 !! index tl = Some val
    /\ Scm_ThreadLocalRef vm tl s1 = Done (read_result s1 tl val) s2.
Proof.
  intros Hslots Hval.
  apply vm_slots_Some in Hslots as (t & Htable & Hvec & Hsize).
  rewrite (Scm_ThreadLocalSet_eq s vm t vec Htable Hvec Hsize).
  destruct (force_if_lazy_Done tl (slot_value tl vec)
              (after_write s (threadLocals vm) t vec tl val))
    as (s1 & E1 & _ & Ht & Ha & _ & _ & _ & _).
  pose proof (vm_slots_after_write s vm t vec Htable Hvec Hsize tl val) as Hw.
  rewrite <- (vm_slots_ext _ _ _ Ht Ha) in Hw.
  set (vec1 := <[index tl := val]> (widened vec (index tl))) in *.
  assert (vec1 !! index tl = Some val) as Hslot.
  { apply list_lookup_insert_eq. apply widened_length. }
  pose proof Hw as Hw'.
  apply vm_slots_Some in Hw' as (t1 & Htable1 & Hvec1 & Hsize1).
  assert (slot_value tl vec1 = val) as Hval1.
  { unfold slot_value. now rewrite Hslot, (SCM_UNBOUNDP_false _ Hval). }
  destruct (force_if_lazy_Done tl val (after_read s1 t1 vec1 tl)) as (s2 & E2 & _).
  destruct (after_read_frame s1 t1 vec1 tl) as (_ & _ & Fp & _ & _).
  exists (read_result (after_write s (threadLocals vm) t vec tl val) tl
            (slot_value tl vec)), s1, vec1, s2.
  repeat split; try assumption.
  rewrite (Scm_ThreadLocalRef_eq s1 vm t1 vec1 Htable1 Hvec1 Hsize1), Hval1, E2.
  f_equal. apply read_result_thunks. intros l. now rewrite Fp.
Qed.

(** An instance: a promise written through a lazy descriptor at index 5. *)
Lemma write_then_read_witness :
  (vm_slots sample_state sample_vm
     = Some [SCM_INT 10; SCM_UNBOUND; SCM_PROMISE 0; SCM_UNBOUND]
   /\ SCM_PROMISE 1 <> SCM_UNBOUND)
  /\ exists old s1 vec1 s2,
       Scm_ThreadLocalSet sample_vm (sample_lazy_tl 5 (SCM_INT 7)) (SCM_PROMISE 1)
         sample_state = Done old s1
       /\ vm_slots s1 sample_vm = Some vec1
       /\ vec1 !! 5 = Some (SCM_PROMISE 1)
       /\ Scm_ThreadLocalRef sample_vm (sample_lazy_tl 5 (SCM_INT 7)) s1
          = Done (read_result s1 (sample_lazy_tl 5 (SCM_INT 7)) (SCM_PROMISE 1)) s2.
Proof.
  split; [split; [reflexivity | discriminate]|].
  apply (write_then_read sample_state sample_vm
           [SCM_INT 10; SCM_UNBOUND; SCM_PROMISE 0; SCM_UNBOUND]
           (sample_lazy_tl 5 (SCM_INT 7)) (SCM_PROMISE 1));
    [reflexivity | discriminate].
Defined.

(** * The table *)

(** C5.  [ensure_tl_slot] leaves everything as it is when the index is
    inside the table.  Otherwise the table grows: the new size exceeds the
    index and is a multiple of [THREAD_LOCAL_GROW], the old slots keep
    their values and places, and the added slots hold [SCM_UNBOUND].  The
    size never goes down. *)
Theorem ensure_tl_slot_capacity s p vec i :
  vm_slots s (mkVM p) = Some vec ->
  exists s' vec',
    ensure_tl_slot p i s = Done tt s'
    /\ vm_slots s' (mkVM p) = Some vec'
    /\ (i < length vec -> s' = s)
    /\ (length vec <= i ->
        i + 1 <= length vec'
        /\ (THREAD_LOCAL_GROW | length vec')
        /\ vec' = vec ++ replicate (length vec' - length vec) SCM_UNBOUND)
    /\ length vec <= length vec'
    /\ (forall j, j < length vec -> vec' !! j = vec !! j).
Proof.
  intros Hslots. pose proof Hslots as Hslots'.
  apply vm_slots_Some in Hslots' as (t & Htable & Hvec & Hsize).
  cbn [threadLocals] in Htable.
  destruct (decide (i < length vec)) as [Hin|Hout].
  - exists s, vec. rewrite (ensure_tl_slot_fits s p t Htable) by lia.
    repeat split; try assumption; try lia; reflexivity.
  - exists (grown s p t vec i), (widened vec i).
    rewrite (ensure_tl_slot_grows s p t vec Htable Hvec Hsize) by lia.
    pose proof (vm_slots_grown s (mkVM p) t vec Htable Hvec Hsize i) as Hg.
    cbn [threadLocals] in Hg.
    pose proof (grown_size_gt i). pose proof (widened_length vec i) as [Hl1 Hl2].
    repeat split; try lia.
    + apply Hg. lia.
    + rewrite widened_length_grown by lia. apply grown_size_multiple.
    + unfold widened at 1. destruct (decide (length vec <= i)); [|lia].
      now rewrite widened_length_grown by lia.
    + intros j Hj. now apply widened_lookup.
Qed.

(** An instance: the four-slot table asked to hold index 20. *)
Lemma ensure_tl_slot_capacity_witness :
  vm_slots sample_state (mkVM 0)
    = Some [SCM_INT 10; SCM_UNBOUND; SCM_PROMISE 0; SCM_UNBOUND]
  /\ exists s' vec',
       ensure_tl_slot 0 20 sample_state = Done tt s'
       /\ vm_slots s' (mkVM 0) = Some vec'
       /\ (20 < 4 -> s' = sample_state)
       /\ (4 <= 20 ->
           20 + 1 <= length vec'
           /\ (THREAD_LOCAL_GROW | length vec')
           /\ vec' = [SCM_INT 10; SCM_UNBOUND; SCM_PROMISE 0; SCM_UNBOUND]
                     ++ replicate (length vec' - 4) SCM_UNBOUND)
       /\ 4 <= length vec'
       /\ (forall j, j < 4 ->
             vec' !! j = [SCM_INT 10; SCM_UNBOUND; SCM_PROMISE 0; SCM_UNBOUND] !! j).
Proof.
  split; [reflexivity|].
  apply (ensure_tl_slot_capacity sample_state 0
           [SCM_INT 10; SCM_UNBOUND; SCM_PROMISE 0; SCM_UNBOUND] 20).
  reflexivity.
Defined.

(** ** Separate tables *)

Lemma with_slot_other_array s a vec i v q :
  q <> a -> arrays (with_slot s a vec i v) !! q = arrays s !! q.
Proof. intros Hq. unfold with_slot. norm_state. now apply list_lookup_insert_ne. Qed.

Lemma grown_other_table s p t vec i q :
  q <> p -> tables (grown s p t vec i) !! q = tables s !! q.
Proof. intros Hq. unfold grown. norm_state. now apply list_lookup_insert_ne. Qed.

Lemma grown_other_array s p t vec i q :
  q <> vector t -> q < length (arrays s) ->
  arrays (grown s p t vec i) !! q = arrays s !! q.
Proof.
  intros Hq Hlt. unfold grown. norm_state.
  rewrite lookup_app_l by (now rewrite length_insert).
  now apply list_lookup_insert_ne.
Qed.

Lemma isolated_slots s a b :
  isolated s a b -> is_Some (vm_slots s a) /\ is_Some (vm_slots s b).
Proof.
  intros (ta & tb & veca & vecb & H1 & H2 & H3 & H4 & H5 & H6 & _).
  split; [exists veca | exists vecb]; apply vm_slots_Some; eauto.
Qed.

(** What a read returns, as a function of the slots. *)
Lemma Scm_ThreadLocalRef_value s vm vec tl :
  vm_slots s vm = Some vec ->
  result_value (Scm_ThreadLocalRef vm tl s)
  = Some (read_result s tl (slot_value tl vec)).
Proof.
  intros Hslots. apply vm_slots_Some in Hslots as (t & Htable & Hvec & Hsize).
  rewrite (Scm_ThreadLocalRef_eq s vm t vec Htable Hvec Hsize).
  destruct (force_if_lazy_Done tl (slot_value tl vec) (after_read s t vec tl))
    as (s' & -> & _).
  destruct (after_read_frame s t vec tl) as (_ & _ & Fp & _ & _).
  cbn [result_value]. f_equal. apply read_result_thunks. intros l. now rewrite Fp.
Qed.

(** A write through one of two separate tables leaves the other table,
    its vector and the separation as they are. *)
Lemma write_isolated s a b tl val :
  isolated s a b ->
  exists old s',
    Scm_ThreadLocalSet a tl val s = Done old s'
    /\ isolated s' a b
    /\ vm_slots s' b = vm_slots s b
    /\ (forall l, thunk_value (promises s' l) = thunk_value (promises s l)).
Proof.
  intros (ta & tb & veca & vecb & Hta & Htb & Hva & Hvb & Hsa & Hsb & Hp & Hv).
  rewrite (Scm_ThreadLocalSet_eq s a ta veca Hta Hva Hsa).
  set (aw := after_write s (threadLocals a) ta veca tl val).
  destruct (force_if_lazy_Done tl (slot_value tl veca) aw)
    as (s' & E & _ & Ht & Ha & _ & _ & _ & Hth).
  destruct (after_write_frame s a ta veca tl val) as (_ & Fp & _ & _).
  pose proof (vm_slots_after_write s a ta veca Hta Hva Hsa tl val) as Hw.
  fold aw in Hw, Fp.
  apply vm_slots_Some in Hw as (ta' & Hta' & Hva' & Hsa').
  pose proof (lookup_lt_Some _ _ _ Hvb) as Hvb_lt.
  pose proof (lookup_lt_Some _ _ _ Hta) as Hta_lt.
  (* the table of [b] and its vector are where they were *)
  assert (tables aw !! threadLocals b = Some tb
          /\ arrays aw !! vector tb = Some vecb
          /\ vector ta' <> vector tb) as (Htb' & Hvb' & Hv').
  { unfold aw, after_write in *.
    destruct (decide (size ta <= index tl)).
    - unfold with_slot in *. norm_state.
      assert (vector ta' = length (arrays s)) as Ea.
      { unfold grown in Hta'. norm_state.
        rewrite list_lookup_insert_eq in Hta' by assumption.
        now injection Hta' as <-. }
      repeat split.
      + rewrite grown_other_table by congruence. assumption.
      + rewrite list_lookup_insert_ne by lia.
        rewrite grown_other_array by (assumption || congruence). assumption.
      + lia.
    - unfold with_slot in *. norm_state.
      assert (ta' = ta) as -> by congruence.
      repeat split; [assumption | | assumption].
      rewrite list_lookup_insert_ne by congruence. assumption. }
  exists (read_result aw tl (slot_value tl veca)), s'.
  split; [exact E|]. split; [|split].
  - exists ta', tb, (<[index tl := val]> (widened veca (index tl))), vecb.
    rewrite Ht, Ha. repeat split; assumption.
  - rewrite (vm_slots_ext _ _ _ Ht Ha).
    transitivity (Some vecb); [|symmetry]; apply vm_slots_Some; eauto.
  - intros l. now rewrite Hth, Fp.
Qed.

(** The same for a read, which may fill an unbound slot of its own table. *)
Lemma read_isolated s a b tl :
  isolated s a b ->
  exists v s',
    Scm_ThreadLocalRef a tl s = Done v s'
    /\ isolated s' a b
    /\ vm_slots s' b = vm_slots s b
    /\ (forall l, thunk_value (promises s' l) = thunk_value (promises s l)).
Proof.
  intros (ta & tb & veca & vecb & Hta & Htb & Hva & Hvb & Hsa & Hsb & Hp & Hv).
  rewrite (Scm_ThreadLocalRef_eq s a ta veca Hta Hva Hsa).
  set (ar := after_read s ta veca tl).
  destruct (force_if_lazy_Done tl (slot_value tl veca) ar)
    as (s' & E & _ & Ht & Ha & _ & _ & _ & Hth).
  destruct (after_read_frame s ta veca tl) as (_ & Ft & Fp & _ & _).
  pose proof (vm_slots_after_read s a ta veca Hta Hva Hsa tl) as Hr.
  fold ar in Hr, Ft, Fp.
  apply vm_slots_Some in Hr as (ta' & Hta' & Hva' & Hsa').
  assert (ta' = ta) as -> by (rewrite Ft in Hta'; congruence).
  assert (arrays ar !! vector tb = Some vecb) as Hvb'.
  { unfold ar, after_read.
    destruct (veca !! index tl) as [v|]; [destruct (SCM_UNBOUNDP v)|];
      try assumption.
    rewrite with_slot_other_array by congruence. assumption. }
  exists (read_result ar tl (slot_value tl veca)), s'.
  split; [exact E|]. split; [|split].
  - eexists ta, tb, _, vecb. rewrite Ht, Ha, Ft. repeat split; eassumption.
  - rewrite (vm_slots_ext _ _ _ Ht Ha).
    transitivity (Some vecb); [|symmetry]; apply vm_slots_Some;
      [exists tb; rewrite Ft | exists tb]; eauto.
  - intros l. now rewrite Hth, Fp.
Qed.

(** What a VM reads depends on its slots and on what the promises evaluate
    to, and on nothing else. *)
Lemma reads_agree s s' vm tl :
  is_Some (vm_slots s vm) ->
  vm_slots s' vm = vm_slots s vm ->
  (forall l, thunk_value (promises s' l) = thunk_value (promises s l)) ->
  result_value (Scm_ThreadLocalRef vm tl s')
  = result_value (Scm_ThreadLocalRef vm tl s).
Proof.
  intros [vec Hs] Hs' Hth. rewrite Hs in Hs'.
  rewrite (Scm_ThreadLocalRef_value _ _ _ _ Hs), (Scm_ThreadLocalRef_value _ _ _ _ Hs').
  f_equal. now apply read_result_thunks.
Qed.

(** The table made for a thread created by the thread of [parent]. *)
Lemma spawn_copy s parent vec :
  vm_slots s parent = Some vec ->
  exists tb s1,
    Scm__MakeVMThreadLocalTable (Some parent) s = Done tb s1
    /\ vm_slots s1 (mkVM tb) = Some vec
    /\ vm_slots s1 parent = Some vec
    /\ isolated s1 parent (mkVM tb).
Proof.
  intros Hslots. apply vm_slots_Some in Hslots as (t & Htable & Hvec & Hsize).
  rewrite (Scm__MakeVMThreadLocalTable_copy s parent t vec Htable Hvec Hsize).
  pose proof (lookup_lt_Some _ _ _ Htable) as Hp.
  pose proof (lookup_lt_Some _ _ _ Hvec) as Hv.
  eexists _, _. split; [reflexivity|].
  set (tb := mkTable (length (arrays s)) (size t)).
  assert ((tables s ++ [tb]) !! length (tables s) = Some tb) as Htb
    by now apply list_lookup_middle.
  assert ((tables s ++ [tb]) !! threadLocals parent = Some t) as Htp
    by now rewrite lookup_app_l.
  assert ((arrays s ++ [vec]) !! vector t = Some vec) as Hvp
    by now rewrite lookup_app_l.
  pose proof (heap1_lookup_new (arrays s) vec) as Hvb.
  split; [|split].
  - apply vm_slots_Some. exists tb. norm_state. now repeat split.
  - apply vm_slots_Some. exists t. norm_state. now repeat split.
  - exists t, tb, vec, vec. norm_state. cbn [threadLocals vector size tb].
    repeat split; try assumption; lia.
Qed.

(** * Inheritance at thread creation *)

(** C4.  The table of a spawned context has the slots of the parent's
    table, copied into a vector of its own: same size, same values.  From
    then on the two are separate, and reads and writes keep them so: a
    write in one, or a read that fills an unbound slot of its own table,
    changes neither the slots of the other nor the value any read in the
    other returns. *)
Theorem spawn_isolation s parent vec :
  vm_slots s parent = Some vec ->
  exists tb s1,
    Scm__MakeVMThreadLocalTable (Some parent) s = Done tb s1
    /\ vm_slots s1 (mkVM tb) = Some vec
    /\ vm_slots s1 parent = Some vec
    /\ isolated s1 parent (mkVM tb)
    /\ forall s2 a b,
         (a = parent /\ b = mkVM tb) \/ (a = mkVM tb /\ b = parent) ->
         isolated s2 a b ->
         forall tl val,
           (exists old s3,
              Scm_ThreadLocalSet a tl val s2 = Done old s3
              /\ isolated s3 a b
              /\ vm_slots s3 b = vm_slots s2 b
              /\ forall tl', result_value (Scm_ThreadLocalRef b tl' s3)
                             = result_value (Scm_ThreadLocalRef b tl' s2))
           /\ (exists v s3,
                 Scm_ThreadLocalRef a tl s2 = Done v s3
                 /\ isolated s3 a b
                 /\ vm_slots s3 b = vm_slots s2 b
                 /\ forall tl', result_value (Scm_ThreadLocalRef b tl' s3)
                                = result_value (Scm_ThreadLocalRef b tl' s2)).
Proof.
  intros Hslots.
  destruct (spawn_copy s parent vec Hslots) as (tb & s1 & E & Hc & Hp & Hiso).
  exists tb, s1. do 4 (split; [assumption|]).
  intros s2 a b _ Hiso2 tl val.
  pose proof (proj2 (isolated_slots s2 a b Hiso2)) as Hsome.
  split.
  - destruct (write_isolated s2 a b tl val Hiso2) as (old & s3 & Ew & Hiso3 & Hb & Hth).
    exists old, s3. repeat split; try assumption.
    intros tl'. now apply reads_agree.
  - destruct (read_isolated s2 a b tl Hiso2) as (v & s3 & Er & Hiso3 & Hb & Hth).
    exists v, s3. repeat split; try assumption.
    intros tl'. now apply reads_agree.
Qed.

(** An instance: a context spawned from the VM of the four-slot table. *)
Lemma spawn_isolation_witness :
  vm_slots sample_state sample_vm
    = Some [SCM_INT 10; SCM_UNBOUND; SCM_PROMISE 0; SCM_UNBOUND]
  /\ exists tb s1,
    Scm__MakeVMThreadLocalTable (Some sample_vm) sample_state = Done tb s1
    /\ vm_slots s1 (mkVM tb) = Some [SCM_INT 10; SCM_UNBOUND; SCM_PROMISE 0; SCM_UNBOUND]
    /\ vm_slots s1 sample_vm = Some [SCM_INT 10; SCM_UNBOUND; SCM_PROMISE 0; SCM_UNBOUND]
    /\ isolated s1 sample_vm (mkVM tb)
    /\ forall s2 a b,
         (a = sample_vm /\ b = mkVM tb) \/ (a = mkVM tb /\ b = sample_vm) ->
         isolated s2 a b ->
         forall tl val,
           (exists old s3,
              Scm_ThreadLocalSet a tl val s2 = Done old s3
              /\ isolated s3 a b
              /\ vm_slots s3 b = vm_slots s2 b
              /\ forall tl', result_value (Scm_ThreadLocalRef b tl' s3)
                             = result_value (Scm_ThreadLocalRef b tl' s2))
           /\ (exists v s3,
                 Scm_ThreadLocalRef a tl s2 = Done v s3
                 /\ isolated s3 a b
                 /\ vm_slots s3 b = vm_slots s2 b
                 /\ forall tl', result_value (Scm_ThreadLocalRef b tl' s3)
                                = result_value (Scm_ThreadLocalRef b tl' s2)).
Proof.
  split; [reflexivity|].
  apply (spawn_isolation sample_state sample_vm
           [SCM_INT 10; SCM_UNBOUND; SCM_PROMISE 0; SCM_UNBOUND]).
  reflexivity.
Defined.

(** The scenario of the spec, run from the start of the process: the first
    write returns 0, the read in A gives 5, the read in the spawned B gives
    5, and after B wrote 9 the read in A still gives 5. *)
Example spawn_scenario_runs :
  result_value (spawn_scenario (process_start delayed_42))
  = Some [SCM_INT 0; SCM_INT 5; SCM_INT 5; SCM_INT 5].
Proof. reflexivity. Qed.

(** * Creation of thread locals *)

Lemma vm_slots_same_table s a b :
  threadLocals a = threadLocals b -> vm_slots s a = vm_slots s b.
Proof. intros E. unfold vm_slots. now rewrite E. Qed.

(** [ensure_tl_slot] on the table of one VM keeps the table of every VM
    well formed. *)
Lemma ensure_tl_slot_slots s vm vec i :
  vm_slots s vm = Some vec ->
  exists s',
    ensure_tl_slot (threadLocals vm) i s = Done tt s'
    /\ vm_slots s' vm = Some (widened vec i)
    /\ next_tl_index s' = next_tl_index s
    /\ (forall other, is_Some (vm_slots s other) -> is_Some (vm_slots s' other)).
Proof.
  intros Hslots. pose proof Hslots as Hslots'.
  apply vm_slots_Some in Hslots' as (t & Htable & Hvec & Hsize).
  destruct (decide (i < length vec)) as [Hin|Hout].
  - exists s. rewrite (ensure_tl_slot_fits s _ t Htable) by lia.
    unfold widened. destruct (decide (length vec <= i)); [lia|]. auto.
  - exists (grown s (threadLocals vm) t vec i).
    rewrite (ensure_tl_slot_grows s _ t vec Htable Hvec Hsize) by lia.
    pose proof (vm_slots_grown s vm t vec Htable Hvec Hsize i ltac:(lia)) as Hg.
    repeat split; try assumption.
    intros other [vo Ho].
    destruct (decide (threadLocals other = threadLocals vm)) as [Eq|Hne].
    { rewrite (vm_slots_same_table _ other vm Eq), Hg. eauto. }
    apply vm_slots_Some in Ho as (to & Hto & Hvo & Hso).
    pose proof (lookup_lt_Some _ _ _ Hvo) as Hlt.
    destruct (decide (vector to = vector t)) as [Ev|Hv].
    + exists (replicate (size t) SCM_FALSE). apply vm_slots_Some. exists to.
      rewrite grown_other_table by assumption.
      repeat split; [assumption | |].
      * unfold grown. norm_state. rewrite Ev. apply heap2_lookup_old.
        now rewrite <- Ev.
      * rewrite length_replicate. rewrite Ev in Hvo. congruence.
    + exists vo. apply vm_slots_Some. exists to.
      rewrite grown_other_table, grown_other_array by assumption. auto.
Qed.

Lemma Scm_MakeThreadLocal_Done s cur k n v f :
  is_Some (vm_slots s cur) ->
  exists s' vec',
    Scm_MakeThreadLocal cur k n v f s = Done (mkThreadLocal k n (next_tl_index s) v f) s'
    /\ next_tl_index s' = S (next_tl_index s)
    /\ vm_slots s' cur = Some vec'
    /\ next_tl_index s < length vec'
    /\ (forall other, is_Some (vm_slots s other) -> is_Some (vm_slots s' other)).
Proof.
  intros [vec Hslots]. unfold Scm_MakeThreadLocal. unfold bind at 1.
  set (s0 := set_next_tl_index (S (next_tl_index s)) s).
  assert (forall vm, vm_slots s0 vm = vm_slots s vm) as Hsame by reflexivity.
  destruct (ensure_tl_slot_slots s0 cur vec (next_tl_index s))
    as (s' & E & Hs' & Hn & Hothers); [now rewrite Hsame|].
  rewrite (bind_Done _ _ _ _ _ E).
  exists s', (widened vec (next_tl_index s)). repeat split; try assumption.
  apply widened_length.
Qed.

(** The primordial thread starts with a well-formed table and with the
    index counter at 0. *)
Lemma primordial_table ps :
  exists t0 s0,
    Scm__MakeVMThreadLocalTable None (process_start ps) = Done t0 s0
    /\ next_tl_index s0 = 0
    /\ is_Some (vm_slots s0 (mkVM t0)).
Proof.
  rewrite Scm__MakeVMThreadLocalTable_root. eexists _, _.
  split; [reflexivity|]. split; [reflexivity|].
  exists (replicate THREAD_LOCAL_INIT_SIZE SCM_UNBOUND). reflexivity.
Qed.

(** C6.  In any sequence of creations, by whichever threads, the indices
    handed out are the consecutive numbers from the counter's value on:
    each is greater than all before it and none is used twice; the counter
    is 0 when the primordial thread gets its table.  Each creation returns
    with the table of the thread that called it grown as far as needed:
    the table points to an allocated vector of the recorded size, and the
    new index is a slot of that vector. *)
Theorem thread_local_indices s cs :
  Forall (fun c => is_Some (vm_slots s (by_vm c))) cs ->
  exists out s',
    make_all cs s = Done out s'
    /\ map (fun r => index (fst r)) out = seq (next_tl_index s) (length cs)
    /\ (forall i j a b, out !! i = Some a -> out !! j = Some b -> i < j ->
                        index (fst a) < index (fst b))
    /\ Forall (fun r => exists vec', snd r = Some vec' /\ index (fst r) < length vec') out
    /\ next_tl_index s' = next_tl_index s + length cs
    /\ forall ps, exists t0 s0,
         Scm__MakeVMThreadLocalTable None (process_start ps) = Done t0 s0
         /\ next_tl_index s0 = 0
         /\ is_Some (vm_slots s0 (mkVM t0)).
Proof.
  intros Hvalid.
  enough (exists out s',
             make_all cs s = Done out s'
             /\ map (fun r => index (fst r)) out = seq (next_tl_index s) (length cs)
             /\ Forall (fun r => exists vec', snd r = Some vec'
                                              /\ index (fst r) < length vec') out
             /\ next_tl_index s' = next_tl_index s + length cs) as (out & s' & H).
  { destruct H as (E & Hidx & Hcap & Hn).
    exists out, s'. do 2 (split; [assumption|]).
    split; [|do 2 (split; [assumption|]); apply primordial_table].
    intros i j a b Ha Hb Hij.
    assert (forall k r, out !! k = Some r -> index (fst r) = next_tl_index s + k) as Hk.
    { intros k r Hr.
      assert (map (fun r => index (fst r)) out !! k = Some (index (fst r))) as Hm
        by (rewrite list_lookup_fmap, Hr; reflexivity).
      rewrite Hidx in Hm. apply lookup_seq in Hm. lia. }
    rewrite (Hk _ _ Ha), (Hk _ _ Hb). lia. }
  revert s Hvalid. induction cs as [|c cs IH]; intros s Hvalid.
  - exists [], s. cbn. repeat split; [constructor | lia].
  - apply Forall_cons in Hvalid as [Hc Hrest].
    destruct (Scm_MakeThreadLocal_Done s (by_vm c) (c_klass c) (c_name c)
                (c_initval c) (c_flags c) Hc)
      as (s1 & vec1 & E1 & Hn1 & Hs1 & Hlt & Hothers).
    destruct (IH s1) as (out & s' & E2 & Hidx & Hcap & Hn').
    { eapply Forall_impl; [exact Hrest|]. intros c' Hc'. now apply Hothers. }
    exists ((mkThreadLocal (c_klass c) (c_name c) (next_tl_index s)
               (c_initval c) (c_flags c), Some vec1) :: out), s'.
    cbn [make_all].
    rewrite (bind_Done _ _ _ _ _ E1).
    unfold bind at 1. rewrite Hs1.
    rewrite (bind_Done _ _ _ _ _ E2).
    split; [reflexivity|]. split; [|split].
    + cbn. f_equal. now rewrite Hidx, Hn1.
    + constructor; [|assumption]. exists vec1. split; [reflexivity|]. exact Hlt.
    + cbn [length]. lia.
Qed.

(** An instance: three creations by two VMs, the counter being at 2. *)
Lemma thread_local_indices_witness :
  Forall (fun c => is_Some (vm_slots sample_state2 (by_vm c)))
    [mkCreation sample_vm SCM_CLASS_THREAD_LOCAL SCM_FALSE (SCM_INT 1) 0;
     mkCreation sample_child SCM_CLASS_PRIMITIVE_PARAMETER SCM_FALSE (SCM_INT 2) 0;
     mkCreation sample_vm SCM_CLASS_THREAD_LOCAL SCM_FALSE (SCM_INT 3) 0]
  /\ exists out s',
       make_all
         [mkCreation sample_vm SCM_CLASS_THREAD_LOCAL SCM_FALSE (SCM_INT 1) 0;
          mkCreation sample_child SCM_CLASS_PRIMITIVE_PARAMETER SCM_FALSE (SCM_INT 2) 0;
          mkCreation sample_vm SCM_CLASS_THREAD_LOCAL SCM_FALSE (SCM_INT 3) 0]
         sample_state2 = Done out s'
       /\ map (fun r => index (fst r)) out = seq 2 3
       /\ (forall i j a b, out !! i = Some a -> out !! j = Some b -> i < j ->
                           index (fst a) < index (fst b))
       /\ Forall (fun r => exists vec', snd r = Some vec'
                                        /\ index (fst r) < length vec') out
       /\ next_tl_index s' = 2 + 3
       /\ forall ps, exists t0 s0,
            Scm__MakeVMThreadLocalTable None (process_start ps) = Done t0 s0
            /\ next_tl_index s0 = 0
            /\ is_Some (vm_slots s0 (mkVM t0)).
Proof.
  assert (Forall (fun c => is_Some (vm_slots sample_state2 (by_vm c)))
    [mkCreation sample_vm SCM_CLASS_THREAD_LOCAL SCM_FALSE (SCM_INT 1) 0;
     mkCreation sample_child SCM_CLASS_PRIMITIVE_PARAMETER SCM_FALSE (SCM_INT 2) 0;
     mkCreation sample_vm SCM_CLASS_THREAD_LOCAL SCM_FALSE (SCM_INT 3) 0]) as Hv.
  { repeat constructor; eexists; reflexivity. }
  split; [exact Hv|].
  exact (thread_local_indices sample_state2 _ Hv).
Defined.

(** * Lazy descriptors *)

Lemma Scm_Force_delayed s l :
  forced (promises s l) = false ->
  exists s', Scm_Force (SCM_PROMISE l) s = Done (thunk_value (promises s l)) s'
             /\ tables s' = tables s /\ arrays s' = arrays s
             /\ promises s' l
                = mkPromise true (thunk_value (promises s l)) (S (thunk_runs (promises s l))).
Proof.
  intros Hf. cbn [Scm_Force]. rewrite Hf. eexists. split; [reflexivity|].
  norm_state. repeat split. destruct (decide (l = l)); [reflexivity | contradiction].
Qed.

Lemma Scm_Force_forced s l :
  forced (promises s l) = true ->
  Scm_Force (SCM_PROMISE l) s = Done (thunk_value (promises s l)) s.
Proof. intros Hf. cbn [Scm_Force]. now rewrite Hf. Qed.

(** C7, as stated, fails: the forced value is not stored in the slot.  A
    lazy descriptor whose initial value is a delayed promise is read in the
    sample table, where its slot 1 is unbound: the read returns 42, and
    the slot then holds the promise, not 42. *)
Lemma lazy_read_leaves_promise_in_slot :
  result_value
    (Scm_ThreadLocalRef sample_vm (sample_lazy_tl 1 (SCM_PROMISE 3)) sample_state)
  = Some (SCM_INT 42)
  /\ slot_after
       (Scm_ThreadLocalRef sample_vm (sample_lazy_tl 1 (SCM_PROMISE 3)) sample_state)
       sample_vm 1
     = Some (SCM_PROMISE 3)
  /\ SCM_PROMISE 3 <> SCM_INT 42.
Proof. split; [reflexivity | split; [reflexivity | discriminate]]. Qed.

(** The scenario of the spec: two reads of that descriptor return 42 both
    times, and the computation has then been run once. *)
Example lazy_scenario_runs :
  result_value
    ((Scm_ThreadLocalRef sample_vm (sample_lazy_tl 1 (SCM_PROMISE 3)) ;;
      Scm_ThreadLocalRef sample_vm (sample_lazy_tl 1 (SCM_PROMISE 3))) sample_state)
  = Some (SCM_INT 42)
  /\ runs_after
       (Scm_ThreadLocalRef sample_vm (sample_lazy_tl 1 (SCM_PROMISE 3)) sample_state) 3
     = Some 1
  /\ runs_after
       ((Scm_ThreadLocalRef sample_vm (sample_lazy_tl 1 (SCM_PROMISE 3)) ;;
         Scm_ThreadLocalRef sample_vm (sample_lazy_tl 1 (SCM_PROMISE 3))) sample_state) 3
     = Some 1.
Proof. split; [reflexivity | split; reflexivity]. Qed.

(** C7, amended.  When a lazy descriptor's slot holds a delayed promise, or
    is unset while the initial value is a delayed promise, the first read
    runs the promise's computation exactly once and returns its value.
    The slot keeps holding the promise; it is the promise that remembers
    its value, so a second read returns the same value without running
    the computation again. *)
Theorem lazy_read_forces_once s vm vec tl l :
  vm_slots s vm = Some vec ->
  lazy_flag tl = true ->
  vec !! index tl = Some (SCM_PROMISE l)
  \/ ((vec !! index tl = None \/ vec !! index tl = Some SCM_UNBOUND)
      /\ initialValue tl = SCM_PROMISE l) ->
  forced (promises s l) = false ->
  exists s1 vec1 s2,
    Scm_ThreadLocalRef vm tl s = Done (thunk_value (promises s l)) s1
    /\ thunk_runs (promises s1 l) = S (thunk_runs (promises s l))
    /\ vm_slots s1 vm = Some vec1
    /\ (index tl < length vec -> vec1 !! index tl = Some (SCM_PROMISE l))
    /\ Scm_ThreadLocalRef vm tl s1 = Done (thunk_value (promises s l)) s2
    /\ thunk_runs (promises s2 l) = thunk_runs (promises s1 l).
Proof.
  intros Hslots Hlazy Hslot Hdelayed.
  apply vm_slots_Some in Hslots as (t & Htable & Hvec & Hsize).
  rewrite (Scm_ThreadLocalRef_eq s vm t vec Htable Hvec Hsize).
  assert (slot_value tl vec = SCM_PROMISE l) as Hval.
  { unfold slot_value. destruct Hslot as [-> | [[-> | ->] Hinit]]; auto. }
  rewrite Hval. unfold force_if_lazy at 1. rewrite Hlazy.
  destruct (after_read_frame s t vec tl) as (_ & Ft & Fp & _ & _).
  destruct (Scm_Force_delayed (after_read s t vec tl) l) as (s1 & E1 & Ht1 & Ha1 & Hp1).
  { now rewrite Fp. }
  rewrite Fp in E1, Hp1.
  pose proof (vm_slots_after_read s vm t vec Htable Hvec Hsize tl) as Hr.
  rewrite <- (vm_slots_ext _ _ _ Ht1 Ha1) in Hr.
  set (vec1 := match vec !! index tl with
               | Some SCM_UNBOUND => <[index tl := initialValue tl]> vec
               | _ => vec
               end) in *.
  assert (index tl < length vec -> vec1 !! index tl = Some (SCM_PROMISE l)) as Hin.
  { intros Hlt. unfold vec1.
    destruct Hslot as [E | [[E | E] Hinit]]; rewrite E; try assumption.
    - apply lookup_ge_None in E. lia.
    - rewrite <- Hinit. now apply list_lookup_insert_eq. }
  assert (slot_value tl vec1 = SCM_PROMISE l) as Hval1.
  { unfold slot_value. destruct (decide (index tl < length vec)) as [Hlt|Hge].
    - now rewrite (Hin Hlt).
    - assert (vec !! index tl = None) as En by (apply lookup_ge_None; lia).
      unfold vec1. rewrite !En.
      destruct Hslot as [E | [_ Hinit]]; congruence. }
  pose proof Hr as Hr'. apply vm_slots_Some in Hr' as (t1 & Htable1 & Hvec1 & Hsize1).
  destruct (after_read_frame s1 t1 vec1 tl) as (_ & _ & Fp1 & _ & _).
  exists s1, vec1, (after_read s1 t1 vec1 tl).
  split; [exact E1|]. split; [now rewrite Hp1|]. split; [exact Hr|].
  split; [exact Hin|]. split.
  - rewrite (Scm_ThreadLocalRef_eq s1 vm t1 vec1 Htable1 Hvec1 Hsize1), Hval1.
    unfold force_if_lazy. rewrite Hlazy.
    rewrite Scm_Force_forced by now rewrite Fp1, Hp1.
    now rewrite Fp1, Hp1.
  - now rewrite Fp1.
Qed.

(** An instance: the unbound slot 1 and a delayed promise as initial value. *)
Lemma lazy_read_forces_once_witness :
  (vm_slots sample_state sample_vm
     = Some [SCM_INT 10; SCM_UNBOUND; SCM_PROMISE 0; SCM_UNBOUND]
   /\ lazy_flag (sample_lazy_tl 1 (SCM_PROMISE 3)) = true
   /\ forced (promises sample_state 3) = false)
  /\ exists s1 vec1 s2,
       Scm_ThreadLocalRef sample_vm (sample_lazy_tl 1 (SCM_PROMISE 3)) sample_state
       = Done (SCM_INT 42) s1
       /\ thunk_runs (promises s1 3) = 1
       /\ vm_slots s1 sample_vm = Some vec1
       /\ (1 < 4 -> vec1 !! 1 = Some (SCM_PROMISE 3))
       /\ Scm_ThreadLocalRef sample_vm (sample_lazy_tl 1 (SCM_PROMISE 3)) s1
          = Done (SCM_INT 42) s2
       /\ thunk_runs (promises s2 3) = thunk_runs (promises s1 3).
Proof.
  split; [repeat split|].
  apply (lazy_read_forces_once sample_state sample_vm
           [SCM_INT 10; SCM_UNBOUND; SCM_PROMISE 0; SCM_UNBOUND]
           (sample_lazy_tl 1 (SCM_PROMISE 3)) 3);
    [reflexivity | reflexivity | right; split; [right|]; reflexivity | reflexivity].
Defined.

(** * Parameter procedures *)

Lemma bind_ret_map {A B} (m : M A) (f : A -> B) s :
  bind m (fun a => ret (f a)) s = map_result f (m s).
Proof. unfold bind. now destruct (m s). Qed.

Lemma call_parameter_subr cur p args :
  call_subr cur (Scm_MakePrimitiveParameterSubr p) args
  = if decide (klass p = SCM_CLASS_PRIMITIVE_PARAMETER)
    then prim_param_proc cur [Scm_List args] 1 p
    else general_param_proc cur [Scm_List args] 1 p.
Proof.
  unfold call_subr, Scm_MakePrimitiveParameterSubr.
  destruct (decide (klass p = SCM_CLASS_PRIMITIVE_PARAMETER));
    cbn [subr_required subr_optional subr_func subr_data];
    (destruct (decide (length args < 0)); [lia|]);
    (destruct (decide (1 = 0 /\ 0 < length args)) as [[? _]|]; [lia|]);
    (destruct (decide (1 = 0)); [lia|]); reflexivity.
Qed.

Lemma result_value_map {A B} (f : A -> B) (r : Result A) :
  result_value (map_result f r) = f <$> result_value r.
Proof. now destruct r. Qed.

(** The three ways a call of a parameter's procedure can go. *)
Section ParameterCall.
Variables (cur : ScmVM) (p : ScmPrimitiveParameter).
Hypothesis Hp : SCM_PRIMITIVE_PARAMETER_P p = true.




End ParameterCall.





(** * The deprecated entry points *)

(** ** Operations that ignore the log of warnings *)

Lemma ignores_ret {A} (a : A) : ignores_warnings (ret a).
Proof. intros w s. reflexivity. Qed.

Lemma ignores_bind {A B} (m : M A) (f : A -> M B) :
  ignores_warnings m -> (forall a, ignores_warnings (f a)) ->
  ignores_warnings (bind m f).
Proof.
  intros Hm Hf w s. unfold bind. rewrite Hm.
  destruct (m s); cbn [map_state]; try reflexivity. apply Hf.
Qed.

Lemma ignores_get_table p : ignores_warnings (get_table p).
Proof. intros w s. unfold get_table. norm_state. now destruct (tables s !! p). Qed.

Lemma ignores_put_table p t : ignores_warnings (put_table p t).
Proof. intros w s. unfold put_table. norm_state. now destruct (tables s !! p). Qed.

Lemma ignores_SCM_NEW_ARRAY n : ignores_warnings (SCM_NEW_ARRAY n).
Proof. intros w s. reflexivity. Qed.

Lemma ignores_load a i : ignores_warnings (load a i).
Proof.
  intros w s. unfold load. norm_state.
  destruct (arrays s !! a) as [vec|]; [|reflexivity]. now destruct (vec !! i).
Qed.

Lemma ignores_store a i v : ignores_warnings (store a i v).
Proof.
  intros w s. unfold store. norm_state.
  destruct (arrays s !! a) as [vec|]; [|reflexivity].
  now destruct (decide (i < length vec)).
Qed.

Lemma ignores_for_range body n :
  (forall i, ignores_warnings (body i)) ->
  forall lo, ignores_warnings (for_range lo n body).
Proof.
  intros Hbody. induction n as [|n IH]; intros lo; cbn [for_range].
  - apply ignores_ret.
  - apply ignores_bind; [apply Hbody | intros _; apply IH].
Qed.

Lemma ignores_Scm_Force obj : ignores_warnings (Scm_Force obj).
Proof.
  intros w s. destruct obj; try reflexivity.
  cbn [Scm_Force]. norm_state. now destruct (forced (promises s p)).
Qed.

Lemma ignores_ensure_tl_slot p i : ignores_warnings (ensure_tl_slot p i).
Proof.
  unfold ensure_tl_slot.
  apply ignores_bind; [apply ignores_get_table | intros t].
  destruct (decide (size t <= i)); [|apply ignores_ret].
  apply ignores_bind; [apply ignores_SCM_NEW_ARRAY | intros newvec].
  apply ignores_bind.
  { apply ignores_for_range. intros j.
    apply ignores_bind; [apply ignores_load | intros x].
    apply ignores_bind; [apply ignores_store | intros _; apply ignores_store]. }
  intros _. apply ignores_bind; [|intros _; apply ignores_put_table].
  apply ignores_for_range. intros j. apply ignores_store.
Qed.

Lemma ignores_Scm_MakeThreadLocal cur k n v f :
  ignores_warnings (Scm_MakeThreadLocal cur k n v f).
Proof.
  unfold Scm_MakeThreadLocal.
  apply ignores_bind; [intros w s; reflexivity | intros i].
  apply ignores_bind; [apply ignores_ensure_tl_slot | intros _; apply ignores_ret].
Qed.

Lemma ignores_Scm_ThreadLocalRef vm tl : ignores_warnings (Scm_ThreadLocalRef vm tl).
Proof.
  unfold Scm_ThreadLocalRef.
  apply ignores_bind; [apply ignores_get_table | intros t].
  apply ignores_bind.
  - destruct (decide (size t <= index tl)); [apply ignores_ret|].
    apply ignores_bind; [apply ignores_load | intros r].
    destruct (SCM_UNBOUNDP r); [|apply ignores_ret].
    apply ignores_bind; [apply ignores_store | intros _; apply ignores_ret].
  - intros r. destruct (lazy_flag tl); [apply ignores_Scm_Force | apply ignores_ret].
Qed.

Lemma ignores_Scm_ThreadLocalSet vm tl val :
  ignores_warnings (Scm_ThreadLocalSet vm tl val).
Proof.
  unfold Scm_ThreadLocalSet.
  apply ignores_bind; [apply ignores_get_table | intros t].
  apply ignores_bind.
  - destruct (decide (size t <= index tl)); [|apply ignores_load].
    apply ignores_bind; [apply ignores_ensure_tl_slot | intros _; apply ignores_ret].
  - intros old. apply ignores_bind; [apply ignores_get_table | intros t'].
    apply ignores_bind; [apply ignores_store | intros _].
    destruct (lazy_flag tl); [apply ignores_Scm_Force | apply ignores_ret].
Qed.

(** A warning followed by an operation that ignores the log. *)
Lemma warn_then {A} (msg : string) (m : M A) s :
  ignores_warnings m ->
  bind (Scm_Warn msg) (fun _ => m) s = map_state (warned [msg] s) (m s).
Proof. intros Hm. unfold bind, Scm_Warn. apply Hm. Qed.

(** C9, as stated, fails: one of the deprecated entry points forwards to
    nothing and returns nothing.  [Scm__VMParameterTableInit] aborts the
    process, whatever the state. *)
Lemma table_init_panics :
  Scm__VMParameterTableInit (process_start delayed_42)
  = Panicked "Scm__VMParameterTableInit is obsoleted.  Shouldn't be called."
  /\ result_state (Scm__VMParameterTableInit (process_start delayed_42)) = None.
Proof. split; reflexivity. Qed.

(** C9, amended.  [Scm_ParameterRef], [Scm_ParameterSet],
    [Scm_InitParameterLoc] and [Scm_MakeParameterSlot] print a deprecation
    warning and then end exactly as the operation they forward to, in a
    state that differs by the warnings only.  [Scm_DefinePrimitiveParameter]
    ends as [Scm_BindPrimitiveParameter] with no flags does, the log of
    warnings left aside.  [Scm__VMParameterTableInit] forwards to nothing:
    it aborts the process. *)
Theorem deprecated_entry_points (cur vm : ScmVM) (location : ScmParameterLoc)
    (module : ScmModule) (cname : string) (v : ScmObj) (s : State) :
  Scm_ParameterRef vm location s
  = map_state (warned ["Scm_ParameterRef is deprecated."] s)
      (Scm_PrimitiveParameterRef vm (loc_p location) s)
  /\ Scm_ParameterSet vm location v s
     = map_state (warned ["Scm_ParameterSet is deprecated."] s)
         (Scm_PrimitiveParameterSet vm (loc_p location) v s)
  /\ Scm_InitParameterLoc cur vm v s
     = map_state
         (warned ["Scm_InitParameterLoc is deprecated.  Use Scm_MakePrimitiveParameter"] s)
         (map_result mkParameterLoc
            (Scm_MakePrimitiveParameter cur SCM_CLASS_PRIMITIVE_PARAMETER SCM_FALSE v 0 s))
  /\ Scm_MakeParameterSlot cur vm s
     = map_state
         (warned ["Scm_MakeParameterSlot is deprecated.  Use Scm_MakePrimitiveParameter.";
                  "Scm_InitParameterLoc is deprecated.  Use Scm_MakePrimitiveParameter"] s)
         (map_result mkParameterLoc
            (Scm_MakePrimitiveParameter cur SCM_CLASS_PRIMITIVE_PARAMETER
               SCM_FALSE SCM_FALSE 0 s))
  /\ map_state (set_warnings [])
       (Scm_DefinePrimitiveParameter cur module cname v s)
     = map_state (set_warnings [])
         (map_result mkParameterLoc (Scm_BindPrimitiveParameter cur module cname v 0 s))
  /\ Scm__VMParameterTableInit s
     = Panicked "Scm__VMParameterTableInit is obsoleted.  Shouldn't be called.".
Proof.
  assert (forall w, ignores_warnings
            (let* p := Scm_MakePrimitiveParameter cur SCM_CLASS_PRIMITIVE_PARAMETER
                         SCM_FALSE w 0 in
             ret (mkParameterLoc p))) as Hmake.
  { intros w. apply ignores_bind; [apply ignores_Scm_MakeThreadLocal|].
    intros p. apply ignores_ret. }
  repeat split.
  - unfold Scm_ParameterRef. apply warn_then, ignores_Scm_ThreadLocalRef.
  - unfold Scm_ParameterSet. apply warn_then, ignores_Scm_ThreadLocalSet.
  - unfold Scm_InitParameterLoc. rewrite warn_then by apply Hmake.
    now rewrite bind_ret_map.
  - unfold Scm_MakeParameterSlot, Scm_InitParameterLoc.
    unfold bind at 1, Scm_Warn at 1. unfold bind at 1, Scm_Warn at 1.
    norm_state. rewrite <- app_assoc. cbn [app].
    rewrite !(Hmake SCM_FALSE), bind_ret_map.
    now destruct (Scm_MakePrimitiveParameter cur SCM_CLASS_PRIMITIVE_PARAMETER
                    SCM_FALSE SCM_FALSE 0 s).
Qed.

(** * Primitive parameters and thread locals *)

(** C10.  At this layer a primitive parameter is a thread local: the
    accessor, the modifier and the constructor of primitive parameters end
    as those of thread locals do, with the same value and the same state,
    on every input. *)
Theorem primitive_parameter_is_thread_local (cur vm : ScmVM) (p : ScmPrimitiveParameter)
    (v : ScmObj) (k : ScmClass) (n initval : ScmObj) (f : N) (s : State) :
  Scm_PrimitiveParameterRef vm p s = Scm_ThreadLocalRef vm p s
  /\ Scm_PrimitiveParameterSet vm p v s = Scm_ThreadLocalSet vm p v s
  /\ Scm_MakePrimitiveParameter cur k n initval f s
     = Scm_MakeThreadLocal cur k n initval f s.
Proof. split; [|split]; reflexivity. Qed.

(** * The UTF-8 codec *)

Local Open Scope Z_scope.

(** ** Bit operations as arithmetic *)

Lemma lor_disjoint (a b k : Z) :
  (0 <= k) -> (0 <= b < 2 ^ k) -> Z.lor (a * 2 ^ k) b = (a * 2 ^ k + b).
Proof.
  intros Hk Hb.
  assert (Z.land (a * 2 ^ k) b = 0) as Hland.
  { apply Z.bits_inj'. intros n Hn.
    rewrite Z.land_spec, Z.bits_0.
    destruct (Z.lt_ge_cases n k) as [Hlt|Hge].
    - rewrite Z.mul_pow2_bits_low by assumption. reflexivity.
    - destruct (Z.eq_dec b 0) as [->|Hne].
      + rewrite Z.bits_0. apply andb_false_r.
      + rewrite (Z.bits_above_log2 b n); [apply andb_false_r | lia |].
        apply Z.lt_le_trans with k; [|assumption].
        apply Z.log2_lt_pow2; lia. }
  rewrite <- Z.lxor_lor by assumption.
  symmetry. now apply Z.add_nocarry_lxor.
Qed.

Lemma tagged_bits (x t k : Z) :
  (0 <= k) ->
  Z.lor (Z.land x (Z.ones k)) (t * 2 ^ k) = (t * 2 ^ k + x mod 2 ^ k).
Proof.
  intros Hk. rewrite Z.land_ones by assumption. rewrite Z.lor_comm.
  apply lor_disjoint; [assumption|]. apply Z.mod_pos_bound. lia.
Qed.

Lemma continuation_value (x : Z) :
  Z.lor (Z.land x 0x3f) 0x80 = (128 + x mod 64).
Proof. exact (tagged_bits x 2 6 ltac:(lia)). Qed.

Lemma follow_value (ch b : Z) :
  Z.lor (Z.shiftl ch 6) (Z.land b 0x3f) = (ch * 64 + b mod 64).
Proof.
  rewrite Z.shiftl_mul_pow2 by lia.
  change 0x3f with (Z.ones 6). rewrite Z.land_ones by lia.
  apply (lor_disjoint ch (b mod 2 ^ 6) 6); [lia|]. apply Z.mod_pos_bound. lia.
Qed.

Lemma low_byte (v : Z) : Z.land v 0xff = (v mod 256).
Proof. exact (Z.land_ones v 8 ltac:(lia)). Qed.

(** ** Stores and reads in the buffer *)

Lemma put_bytes_Some vs : forall (i : nat) (buf : list Z),
  (i + length vs <= length buf)%nat ->
  put_bytes i vs buf = Some (spliced buf i (map (fun v => Z.land v 0xff) vs)).
Proof.
  induction vs as [|v vs IH]; intros i buf Hlen; cbn [put_bytes map].
  - unfold spliced. cbn [length app]. rewrite Nat.add_0_r. now rewrite take_drop.
  - cbn [length] in Hlen. unfold put_byte.
    destruct (decide (i < length buf)%nat) as [Hi|]; [|lia]. cbn [and_then].
    rewrite IH by (rewrite length_insert; lia). f_equal. unfold spliced.
    rewrite length_map. cbn [length].
    rewrite (take_S_r _ _ (Z.land v 255)) by now apply list_lookup_insert_eq.
    rewrite take_insert_ge by lia. rewrite drop_insert_lt by lia.
    rewrite <- app_assoc. cbn [app]. rewrite length_map.
    now replace (i + S (length vs))%nat with (S i + length vs)%nat by lia.
Qed.

Lemma put_bytes_None vs : forall (i : nat) (buf : list Z),
  vs <> [] -> (length buf < i + length vs)%nat -> put_bytes i vs buf = None.
Proof.
  induction vs as [|v vs IH]; intros i buf Hne Hlen; [contradiction|].
  cbn [put_bytes length] in *. unfold put_byte.
  destruct (decide (i < length buf)%nat) as [Hi|]; [|reflexivity]. cbn [and_then].
  destruct vs as [|v' vs']; [cbn [length] in Hlen; lia|].
  apply IH; [discriminate | rewrite length_insert; lia].
Qed.

(** [Scm_CharUtf8Putc] is the sequence of stores of [putc_values]. *)
Lemma Scm_CharUtf8Putc_put_bytes buf cp ch :
  Scm_CharUtf8Putc buf cp ch = put_bytes cp (putc_values ch) buf.
Proof.
  unfold Scm_CharUtf8Putc, putc_values.
  replace (cp + 1)%nat with (S cp) by lia.
  replace (cp + 2)%nat with (S (S cp)) by lia.
  replace (cp + 3)%nat with (S (S (S cp))) by lia.
  replace (cp + 4)%nat with (S (S (S (S cp)))) by lia.
  replace (cp + 5)%nat with (S (S (S (S (S cp))))) by lia.
  repeat match goal with |- context [if ?c then _ else _] => destruct c end;
    cbn [put_bytes];
    repeat match goal with
           | |- context [put_byte ?i ?v ?b] =>
               is_var b; destruct (put_byte i v b);
               cbn [and_then put_bytes]; try reflexivity
           end.
Qed.

Lemma lead2_value x : Z.lor (Z.land x 0x1f) 0xc0 = 192 + x mod 32.
Proof. exact (tagged_bits x 6 5 ltac:(lia)). Qed.
Lemma lead3_value x : Z.lor (Z.land x 0x0f) 0xe0 = 224 + x mod 16.
Proof. exact (tagged_bits x 14 4 ltac:(lia)). Qed.
Lemma lead4_value x : Z.lor (Z.land x 0x07) 0xf0 = 240 + x mod 8.
Proof. exact (tagged_bits x 30 3 ltac:(lia)). Qed.
Lemma lead5_value x : Z.lor (Z.land x 0x03) 0xf8 = 248 + x mod 4.
Proof. exact (tagged_bits x 62 2 ltac:(lia)). Qed.
Lemma lead6_value x : Z.lor (Z.land x 0x1) 0xfc = 252 + x mod 2.
Proof. exact (tagged_bits x 126 1 ltac:(lia)). Qed.

Lemma mask5 x : Z.land x 0x1f = x mod 32.
Proof. exact (Z.land_ones x 5 ltac:(lia)). Qed.
Lemma mask4 x : Z.land x 0x0f = x mod 16.
Proof. exact (Z.land_ones x 4 ltac:(lia)). Qed.
Lemma mask3 x : Z.land x 0x07 = x mod 8.
Proof. exact (Z.land_ones x 3 ltac:(lia)). Qed.
Lemma mask2 x : Z.land x 0x03 = x mod 4.
Proof. exact (Z.land_ones x 2 ltac:(lia)). Qed.
Lemma mask1 x : Z.land x 0x01 = x mod 2.
Proof. exact (Z.land_ones x 1 ltac:(lia)). Qed.

Lemma shiftr_6 x : Z.shiftr x 6 = x / 64.
Proof. exact (Z.shiftr_div_pow2 x 6 ltac:(lia)). Qed.
Lemma shiftr_12 x : Z.shiftr x 12 = x / 64 / 64.
Proof. rewrite (Z.shiftr_div_pow2 x 12) by lia. now rewrite Z.div_div by lia. Qed.
Lemma shiftr_18 x : Z.shiftr x 18 = x / 64 / 64 / 64.
Proof. rewrite (Z.shiftr_div_pow2 x 18) by lia. now rewrite !Z.div_div by lia. Qed.
Lemma shiftr_24 x : Z.shiftr x 24 = x / 64 / 64 / 64 / 64.
Proof. rewrite (Z.shiftr_div_pow2 x 24) by lia. now rewrite !Z.div_div by lia. Qed.
Lemma shiftr_30 x : Z.shiftr x 30 = x / 64 / 64 / 64 / 64 / 64.
Proof. rewrite (Z.shiftr_div_pow2 x 30) by lia. now rewrite !Z.div_div by lia. Qed.

(** Rewrites the bit operations of the codec into division and remainder. *)
Ltac codec_arith :=
  rewrite ?shiftr_6, ?shiftr_12, ?shiftr_18, ?shiftr_24, ?shiftr_30,
    ?lead2_value, ?lead3_value, ?lead4_value, ?lead5_value, ?lead6_value,
    ?continuation_value, ?follow_value, ?mask5, ?mask4, ?mask3, ?mask2, ?mask1,
    ?low_byte.

(** Decides the comparisons of a goal by linear arithmetic. *)
Ltac decide_ltb :=
  repeat match goal with
         | |- context [(?a <? ?b)] =>
             destruct (Z.ltb_spec a b); try (exfalso; Z.div_mod_to_equations; lia)
         | |- context [(?a <=? ?b)] =>
             destruct (Z.leb_spec a b); try (exfalso; Z.div_mod_to_equations; lia)
         end.

(** The bytes of a character, in arithmetic. *)
Lemma utf8_bytes_arith ch :
  0 <= ch ->
  utf8_bytes ch =
    if ch <? 0x80 then [ch]
    else if ch <? 0x800 then [192 + ch / 64 mod 32; 128 + ch mod 64]
    else if ch <? 0x10000 then
      [224 + ch / 64 / 64 mod 16; 128 + ch / 64 mod 64; 128 + ch mod 64]
    else if ch <? 0x200000 then
      [240 + ch / 64 / 64 / 64 mod 8; 128 + ch / 64 / 64 mod 64;
       128 + ch / 64 mod 64; 128 + ch mod 64]
    else if ch <? 0x4000000 then
      [248 + ch / 64 / 64 / 64 / 64 mod 4; 128 + ch / 64 / 64 / 64 mod 64;
       128 + ch / 64 / 64 mod 64; 128 + ch / 64 mod 64; 128 + ch mod 64]
    else
      [252 + ch / 64 / 64 / 64 / 64 / 64 mod 2;
       128 + ch / 64 / 64 / 64 / 64 mod 64; 128 + ch / 64 / 64 / 64 mod 64;
       128 + ch / 64 / 64 mod 64; 128 + ch / 64 mod 64; 128 + ch mod 64].
Proof.
  intros Hch. unfold utf8_bytes, putc_values.
  repeat match goal with |- context [if ?c then _ else _] => destruct c eqn:? end;
    cbn [map]; codec_arith;
    repeat (f_equal; try (apply Z.mod_small; Z.div_mod_to_equations; lia)).
Qed.

(** The table, entry by entry, against the ranges of lead bytes. *)
Lemma Scm_CharSizeTable_ranges :
  forallb (fun n => bool_decide
                      (Scm_CharSizeTable !! n
                       = Some (Z.of_nat (lead_follows (Z.of_nat n)))))
    (seq 0 256) = true.
Proof. vm_compute. reflexivity. Qed.

Lemma SCM_CHAR_NFOLLOWS_byte b :
  0 <= b < 256 -> SCM_CHAR_NFOLLOWS b = Some (Z.of_nat (lead_follows b)).
Proof.
  intros Hb. unfold SCM_CHAR_NFOLLOWS.
  destruct (decide (0 <= b)) as [_|]; [|lia].
  pose proof Scm_CharSizeTable_ranges as H.
  rewrite forallb_forall in H.
  assert (In (Z.to_nat b) (seq 0 256)) as Hin by (apply in_seq; lia).
  apply H, bool_decide_eq_true in Hin.
  now rewrite Z2Nat.id in Hin by lia.
Qed.

Lemma SCM_CHAR_NFOLLOWS_None b :
  SCM_CHAR_NFOLLOWS b = None <-> ~ 0 <= b < 256.
Proof.
  unfold SCM_CHAR_NFOLLOWS. destruct (decide (0 <= b)) as [Hb|Hb].
  - rewrite lookup_ge_None. change (length Scm_CharSizeTable) with 256%nat. lia.
  - split; [lia | reflexivity].
Qed.

(** The decoder reads relative to [cp] only. *)
Lemma Scm_CharUtf8Getc_drop buf cp :
  Scm_CharUtf8Getc buf cp = Scm_CharUtf8Getc (drop cp buf) 0.
Proof.
  unfold Scm_CharUtf8Getc, follow_byte. rewrite !lookup_drop.
  cbn [Nat.add]. now rewrite Nat.add_0_r.
Qed.

Lemma decode_value_1 f b1 : decode_value f [b1] = f mod 32 * 64 + b1 mod 64.
Proof. reflexivity. Qed.
Lemma decode_value_2 f b1 b2 :
  decode_value f [b1; b2] = (f mod 16 * 64 + b1 mod 64) * 64 + b2 mod 64.
Proof. reflexivity. Qed.
Lemma decode_value_3 f b1 b2 b3 :
  decode_value f [b1; b2; b3]
  = ((f mod 8 * 64 + b1 mod 64) * 64 + b2 mod 64) * 64 + b3 mod 64.
Proof. reflexivity. Qed.
Lemma decode_value_4 f b1 b2 b3 b4 :
  decode_value f [b1; b2; b3; b4]
  = (((f mod 4 * 64 + b1 mod 64) * 64 + b2 mod 64) * 64 + b3 mod 64) * 64 + b4 mod 64.
Proof. reflexivity. Qed.
Lemma decode_value_5 f b1 b2 b3 b4 b5 :
  decode_value f [b1; b2; b3; b4; b5]
  = ((((f mod 2 * 64 + b1 mod 64) * 64 + b2 mod 64) * 64 + b3 mod 64) * 64
     + b4 mod 64) * 64 + b5 mod 64.
Proof. reflexivity. Qed.

(** Decides the comparisons with a literal bound. *)
Ltac decide_ltb_literal :=
  repeat match goal with
         | |- context [(?a <? Z.pos ?p)] =>
             destruct (Z.ltb_spec a (Z.pos p));
             try (exfalso; Z.div_mod_to_equations; lia)
         end.

(** On a lead byte of a given range. *)
Ltac lead_range first :=
  repeat match goal with
         | |- context [(first <? ?b)] => destruct (Z.ltb_spec first b); try lia
         end.

(** The decoder on a lead byte that announces following bytes. *)
Lemma Scm_CharUtf8Getc_arith first rest :
  0xc0 <= first < 0xfe ->
  Scm_CharUtf8Getc (first :: rest) 0 =
    if decide (lead_follows first <= length rest)%nat then
      GotChar (if decode_value first (take (lead_follows first) rest)
                  <? least_of (lead_follows first)
               then SCM_CHAR_INVALID
               else decode_value first (take (lead_follows first) rest))
    else ReadOutside.
Proof.
  intros Hfirst. unfold Scm_CharUtf8Getc, lead_follows.
  cbn [lookup list_lookup Nat.add].
  lead_range first;
    repeat (destruct rest as [|? rest];
            [cbn [follow_byte lookup list_lookup and_then least_or_invalid length];
             unfold follow_byte;
             cbn [lookup list_lookup and_then least_or_invalid];
             match goal with
             | |- context [decide ?P] => destruct (decide P); [cbn [length] in *; lia|]
             end; reflexivity|]);
    unfold follow_byte; cbn [lookup list_lookup and_then least_or_invalid take least_of];
    rewrite ?decode_value_1, ?decode_value_2, ?decode_value_3, ?decode_value_4,
      ?decode_value_5;
    codec_arith;
    match goal with
    | |- context [decide ?P] => destruct (decide P); [|cbn [length] in *; lia]
    end;
    reflexivity.
Qed.

Lemma SCM_CHAR_GET_drop buf cp : SCM_CHAR_GET buf cp = SCM_CHAR_GET (drop cp buf) 0.
Proof.
  unfold SCM_CHAR_GET. rewrite <- Scm_CharUtf8Getc_drop, lookup_drop.
  now rewrite Nat.add_0_r.
Qed.

Lemma drop_spliced (buf : list Z) i bs :
  (i <= length buf)%nat -> drop i (spliced buf i bs) = bs ++ drop (i + length bs) buf.
Proof.
  intros Hi. unfold spliced. apply drop_app_length'. rewrite length_take. lia.
Qed.

Lemma length_spliced (buf : list Z) i bs :
  (i + length bs <= length buf)%nat -> length (spliced buf i bs) = length buf.
Proof.
  intros Hi. unfold spliced. rewrite !length_app, length_take, length_drop. lia.
Qed.

Lemma length_putc_values ch : length (putc_values ch) = SCM_CHAR_NBYTES ch.
Proof.
  unfold putc_values, SCM_CHAR_NBYTES.
  repeat match goal with |- context [if ?c then _ else _] => destruct c end;
    reflexivity.
Qed.

Lemma length_utf8_bytes ch : length (utf8_bytes ch) = SCM_CHAR_NBYTES ch.
Proof. unfold utf8_bytes. now rewrite length_map, length_putc_values. Qed.

(** The macro and the function store the same. *)
Lemma SCM_CHAR_PUT_Putc buf cp ch : SCM_CHAR_PUT buf cp ch = Scm_CharUtf8Putc buf cp ch.
Proof.
  unfold SCM_CHAR_PUT, Scm_CharUtf8Putc.
  destruct (Z.leb_spec 0x80 ch), (Z.ltb_spec ch 0x80); try reflexivity; lia.
Qed.

(** With room for the bytes of [ch], the stores put them in place. *)
Lemma Scm_CharUtf8Putc_room buf cp ch :
  (cp + SCM_CHAR_NBYTES ch <= length buf)%nat ->
  Scm_CharUtf8Putc buf cp ch = Some (spliced buf cp (utf8_bytes ch)).
Proof.
  intros Hroom. rewrite Scm_CharUtf8Putc_put_bytes.
  apply put_bytes_Some. now rewrite length_putc_values.
Qed.

(** The decoder on the bytes of a character. *)
Lemma Scm_CharUtf8Getc_utf8_bytes ch rest :
  0x80 <= ch < 2 ^ 31 -> Scm_CharUtf8Getc (utf8_bytes ch ++ rest) 0 = GotChar ch.
Proof.
  intros Hch. rewrite utf8_bytes_arith by lia.
  assert (2 ^ 31 = 2147483648) as E31 by reflexivity. rewrite E31 in Hch.
  repeat match goal with
         | |- context [if (ch <? ?b) then _ else _] =>
             destruct (Z.ltb_spec ch b); try lia
         end;
    cbn [app];
    (rewrite Scm_CharUtf8Getc_arith by (Z.div_mod_to_equations; lia));
    unfold lead_follows; decide_ltb_literal; cbn [length take least_of];
    (match goal with
     | |- context [decide ?P] => destruct (decide P); [|cbn [length] in *; lia]
     end);
    rewrite ?decode_value_1, ?decode_value_2, ?decode_value_3, ?decode_value_4,
      ?decode_value_5;
    decide_ltb_literal; f_equal; Z.div_mod_to_equations; lia.
Qed.

(** ** Encoding *)

(** X1.  A character from 0 to 2^31 - 1 that [SCM_CHAR_PUT] stores where
    the buffer has room for it is the character [SCM_CHAR_GET] reads back
    from the same place; from 0x80 on the same holds of
    [Scm_CharUtf8Putc] and [Scm_CharUtf8Getc] themselves. *)
Theorem utf8_put_get_roundtrip (buf : list Z) (cp : nat) (ch : Z) :
  0 <= ch < 2 ^ 31 ->
  (cp + SCM_CHAR_NBYTES ch <= length buf)%nat ->
  exists buf',
    SCM_CHAR_PUT buf cp ch = Some buf'
    /\ SCM_CHAR_GET buf' cp = GotChar ch
    /\ (0x80 <= ch ->
        Scm_CharUtf8Putc buf cp ch = Some buf'
        /\ Scm_CharUtf8Getc buf' cp = GotChar ch).
Proof.
  intros Hch Hroom. exists (spliced buf cp (utf8_bytes ch)).
  rewrite SCM_CHAR_PUT_Putc, (Scm_CharUtf8Putc_room _ _ _ Hroom).
  split; [reflexivity|].
  rewrite SCM_CHAR_GET_drop, Scm_CharUtf8Getc_drop, drop_spliced by lia.
  destruct (Z.lt_ge_cases ch 0x80) as [Hlow|Hhigh].
  - split; [|lia]. rewrite utf8_bytes_arith by lia.
    destruct (Z.ltb_spec ch 0x80); [|lia].
    unfold SCM_CHAR_GET. cbn [app lookup list_lookup].
    destruct (Z.leb_spec 0x80 ch); [lia | reflexivity].
  - assert (Scm_CharUtf8Getc (utf8_bytes ch ++ drop (cp + length (utf8_bytes ch)) buf) 0
            = GotChar ch) as Hget by (apply Scm_CharUtf8Getc_utf8_bytes; lia).
    split; [|intros _; split; [reflexivity | exact Hget]].
    unfold SCM_CHAR_GET.
    destruct ((utf8_bytes ch ++ drop (cp + length (utf8_bytes ch)) buf) !! 0%nat)
      as [first|] eqn:Efirst.
    + destruct (Z.leb_spec 0x80 first) as [_|Hascii]; [exact Hget|].
      unfold Scm_CharUtf8Getc in Hget. rewrite Efirst in Hget.
      destruct (Z.ltb_spec first 0x80); [discriminate | lia].
    + unfold Scm_CharUtf8Getc in Hget. rewrite Efirst in Hget. discriminate.
Qed.

(** An instance: the euro sign written at offset 1 of eight bytes. *)
Lemma utf8_put_get_roundtrip_witness :
  (0 <= 0x20ac < 2 ^ 31 /\ (1 + SCM_CHAR_NBYTES 0x20ac <= length (replicate 8 0))%nat)
  /\ exists buf',
       SCM_CHAR_PUT (replicate 8 0) 1 0x20ac = Some buf'
       /\ SCM_CHAR_GET buf' 1 = GotChar 0x20ac
       /\ (0x80 <= 0x20ac ->
           Scm_CharUtf8Putc (replicate 8 0) 1 0x20ac = Some buf'
           /\ Scm_CharUtf8Getc buf' 1 = GotChar 0x20ac).
Proof.
  assert (0 <= 0x20ac < 2 ^ 31) as H1 by (split; [discriminate | reflexivity]).
  assert (1 + SCM_CHAR_NBYTES 0x20ac <= length (replicate 8 0))%nat as H2
    by (cbn; lia).
  split; [split; assumption|].
  exact (utf8_put_get_roundtrip (replicate 8 0) 1 0x20ac H1 H2).
Defined.

(** X2.  [Scm_CharUtf8Putc] stores exactly [SCM_CHAR_NBYTES(ch)] bytes, for
    every value of [ch]: with that much room from [cp] on it succeeds,
    keeps the length of the buffer and every byte outside the range, and
    what it stores are bytes; with less room it runs over the end of the
    buffer.  [SCM_CHAR_MAX_BYTES] bytes of room are always enough. *)
Theorem utf8_putc_stores_nbytes (buf : list Z) (cp : nat) (ch : Z) :
  ((cp + SCM_CHAR_NBYTES ch <= length buf)%nat ->
   exists buf',
     Scm_CharUtf8Putc buf cp ch = Some buf'
     /\ length buf' = length buf
     /\ (forall i, (i < cp \/ cp + SCM_CHAR_NBYTES ch <= i)%nat -> buf' !! i = buf !! i)
     /\ (forall i b, (cp <= i < cp + SCM_CHAR_NBYTES ch)%nat ->
                     buf' !! i = Some b -> 0 <= b < 256))
  /\ ((length buf < cp + SCM_CHAR_NBYTES ch)%nat -> Scm_CharUtf8Putc buf cp ch = None)
  /\ (1 <= SCM_CHAR_NBYTES ch <= SCM_CHAR_MAX_BYTES)%nat.
Proof.
  split; [|split].
  - intros Hroom. exists (spliced buf cp (utf8_bytes ch)).
    split; [now apply Scm_CharUtf8Putc_room|].
    pose proof (length_utf8_bytes ch) as Hlen.
    split; [apply length_spliced; lia|]. split.
    + intros i Hi. unfold spliced. destruct Hi as [Hi|Hi].
      * rewrite lookup_app_l by (rewrite length_take; lia).
        apply lookup_take_lt. lia.
      * rewrite lookup_app_r by (rewrite length_take; lia).
        rewrite lookup_app_r by (rewrite length_take; lia).
        rewrite lookup_drop, length_take. f_equal. lia.
    + intros i b Hi Hb. unfold spliced in Hb.
      rewrite lookup_app_r in Hb by (rewrite length_take; lia).
      rewrite lookup_app_l in Hb by (rewrite length_take; lia).
      unfold utf8_bytes in Hb. rewrite list_lookup_fmap in Hb.
      destruct (putc_values ch !! (i - length (take cp buf))%nat) as [v|];
        [|discriminate].
      injection Hb as <-. rewrite low_byte. apply Z.mod_pos_bound. lia.
  - intros Hshort. rewrite Scm_CharUtf8Putc_put_bytes.
    apply put_bytes_None; [|now rewrite length_putc_values].
    intros E. pose proof (length_putc_values ch) as Hlen. rewrite E in Hlen.
    unfold SCM_CHAR_NBYTES in Hlen.
    repeat match goal with H : context [if ?c then _ else _] |- _ => destruct c end;
      discriminate.
  - unfold SCM_CHAR_NBYTES, SCM_CHAR_MAX_BYTES.
    repeat match goal with |- context [if ?c then _ else _] => destruct c end; lia.
Qed.

Lemma lookup_spliced (buf : list Z) i bs j :
  (i <= length buf)%nat -> (j < length bs)%nat ->
  spliced buf i bs !! (i + j)%nat = bs !! j.
Proof.
  intros Hi Hj. unfold spliced.
  rewrite lookup_app_r by (rewrite length_take; lia).
  rewrite lookup_app_l by (rewrite length_take; lia).
  f_equal. rewrite length_take. lia.
Qed.

(** The shape of the bytes of a character: a lead byte that announces the
    bytes after it, and continuation bytes. *)
Lemma utf8_bytes_shape ch :
  0 <= ch < 2 ^ 31 ->
  exists first conts,
    utf8_bytes ch = first :: conts
    /\ 0 <= first < 256
    /\ lead_follows first = length conts
    /\ S (length conts) = SCM_CHAR_NBYTES ch
    /\ Forall continuation conts
    /\ (ch < 0x80 -> first = ch)
    /\ (0x80 <= ch -> 0xc0 <= first < 0xfe).
Proof.
  intros Hch. rewrite utf8_bytes_arith by lia.
  assert (2 ^ 31 = 2147483648) as E31 by reflexivity. rewrite E31 in Hch.
  unfold SCM_CHAR_NBYTES.
  repeat match goal with
         | |- context [if (ch <? ?b) then _ else _] => destruct (Z.ltb_spec ch b)
         end;
    eexists _, _; (split; [reflexivity|]);
    (split; [Z.div_mod_to_equations; lia|]);
    (split; [unfold lead_follows; decide_ltb_literal; reflexivity|]);
    (split; [reflexivity|]);
    (split; [repeat constructor; unfold continuation; Z.div_mod_to_equations; lia|]);
    split; intros; try lia; Z.div_mod_to_equations; lia.
Qed.

(** X3.  In what [Scm_CharUtf8Putc] stores for a character from 0 to
    2^31 - 1, the first byte announces the length: its entry in
    [Scm_CharSizeTable] is [SCM_CHAR_NBYTES(ch) - 1].  Every byte after it
    is a continuation byte, from 0x80 to 0xbf, whose table entry is 0. *)
Theorem utf8_lead_byte_announces_length (buf buf' : list Z) (cp : nat) (ch : Z) :
  0 <= ch < 2 ^ 31 ->
  Scm_CharUtf8Putc buf cp ch = Some buf' ->
  (exists first,
     buf' !! cp = Some first
     /\ SCM_CHAR_NFOLLOWS first = Some (Z.of_nat (SCM_CHAR_NBYTES ch) - 1))
  /\ forall j, (1 <= j < SCM_CHAR_NBYTES ch)%nat ->
       exists b, buf' !! (cp + j)%nat = Some b
                 /\ 0x80 <= b < 0xc0
                 /\ SCM_CHAR_NFOLLOWS b = Some 0.
Proof.
  intros Hch Hput.
  destruct (decide (cp + SCM_CHAR_NBYTES ch <= length buf)%nat) as [Hroom|Hshort].
  2: { rewrite Scm_CharUtf8Putc_put_bytes, put_bytes_None in Hput;
         [discriminate | | rewrite length_putc_values; lia].
       intros E. pose proof (length_utf8_bytes ch) as Hlen.
       unfold utf8_bytes in Hlen. rewrite E in Hlen.
       destruct (utf8_bytes_shape ch Hch) as (f & c & _ & _ & _ & Hn & _).
       rewrite <- Hn in Hlen. discriminate. }
  rewrite (Scm_CharUtf8Putc_room _ _ _ Hroom) in Hput. injection Hput as <-.
  destruct (utf8_bytes_shape ch Hch)
    as (first & conts & Ebytes & Hfirst & Hfollows & Hn & Hconts & _ & _).
  split.
  - exists first. split.
    + rewrite <- (Nat.add_0_r cp) at 1. rewrite lookup_spliced; [|lia|].
      * now rewrite Ebytes.
      * rewrite length_utf8_bytes. lia.
    + rewrite SCM_CHAR_NFOLLOWS_byte by assumption. f_equal. lia.
  - intros j Hj.
    rewrite lookup_spliced by (rewrite ?length_utf8_bytes; lia).
    rewrite Ebytes. destruct j as [|j]; [lia|]. cbn [lookup list_lookup].
    destruct (lookup_lt_is_Some_2 conts j) as [b Hb]; [lia|].
    exists b. split; [exact Hb|].
    rewrite Forall_lookup in Hconts. specialize (Hconts _ _ Hb).
    unfold continuation in Hconts. split; [exact Hconts|].
    rewrite SCM_CHAR_NFOLLOWS_byte by lia.
    unfold lead_follows. destruct (Z.ltb_spec b 0xc0); [reflexivity | lia].
Qed.

(** An instance: the three bytes of the euro sign. *)
Lemma utf8_lead_byte_announces_length_witness :
  (0 <= 0x20ac < 2 ^ 31
   /\ Scm_CharUtf8Putc (replicate 8 0) 1 0x20ac = Some [0; 0xe2; 0x82; 0xac; 0; 0; 0; 0])
  /\ (exists first,
        [0; 0xe2; 0x82; 0xac; 0; 0; 0; 0] !! 1%nat = Some first
        /\ SCM_CHAR_NFOLLOWS first = Some (Z.of_nat (SCM_CHAR_NBYTES 0x20ac) - 1))
  /\ forall j, (1 <= j < SCM_CHAR_NBYTES 0x20ac)%nat ->
       exists b, [0; 0xe2; 0x82; 0xac; 0; 0; 0; 0] !! (1 + j)%nat = Some b
                 /\ 0x80 <= b < 0xc0
                 /\ SCM_CHAR_NFOLLOWS b = Some 0.
Proof.
  assert (0 <= 0x20ac < 2 ^ 31) as H1 by (split; [discriminate | reflexivity]).
  assert (Scm_CharUtf8Putc (replicate 8 0) 1 0x20ac
          = Some [0; 0xe2; 0x82; 0xac; 0; 0; 0; 0]) as H2 by reflexivity.
  split; [split; assumption|].
  exact (utf8_lead_byte_announces_length _ _ 1%nat 0x20ac H1 H2).
Defined.

(** ** Decoding *)

Lemma Scm_CharUtf8Getc_no_follow first rest :
  first < 0xc0 \/ 0xfe <= first ->
  Scm_CharUtf8Getc (first :: rest) 0
  = if first <? 0x80 then Unassigned else GotChar SCM_CHAR_INVALID.
Proof.
  intros Hfirst. unfold Scm_CharUtf8Getc. cbn [lookup list_lookup].
  lead_range first; reflexivity.
Qed.

(** A lead byte with the following bytes it announces, case by case. *)
Lemma lead_cases first (rest : list Z) :
  0xc0 <= first < 0xfe -> (lead_follows first <= length rest)%nat ->
  (exists b1 r, first < 0xe0 /\ lead_follows first = 1%nat /\ rest = b1 :: r)
  \/ (exists b1 b2 r, 0xe0 <= first < 0xf0 /\ lead_follows first = 2%nat
                      /\ rest = b1 :: b2 :: r)
  \/ (exists b1 b2 b3 r, 0xf0 <= first < 0xf8 /\ lead_follows first = 3%nat
                         /\ rest = b1 :: b2 :: b3 :: r)
  \/ (exists b1 b2 b3 b4 r, 0xf8 <= first < 0xfc /\ lead_follows first = 4%nat
                            /\ rest = b1 :: b2 :: b3 :: b4 :: r)
  \/ (exists b1 b2 b3 b4 b5 r, 0xfc <= first /\ lead_follows first = 5%nat
                               /\ rest = b1 :: b2 :: b3 :: b4 :: b5 :: r).
Proof.
  intros Hfirst. unfold lead_follows. lead_range first; intros Hlen.
  - destruct rest as [|b1 r]; [cbn in Hlen; lia|]. left. eauto.
  - destruct rest as [|b1 [|b2 r]]; try (cbn in Hlen; lia).
    right; left. eauto 10.
  - destruct rest as [|b1 [|b2 [|b3 r]]]; try (cbn in Hlen; lia).
    do 2 right; left. eauto 10.
  - destruct rest as [|b1 [|b2 [|b3 [|b4 r]]]]; try (cbn in Hlen; lia).
    do 3 right; left. eauto 10.
  - destruct rest as [|b1 [|b2 [|b3 [|b4 [|b5 r]]]]]; try (cbn in Hlen; lia).
    do 4 right. eauto 12.
Qed.

Lemma Scm_CharUtf8Getc_head buf cp :
  Scm_CharUtf8Getc buf cp
  = match drop cp buf with
    | [] => ReadOutside
    | first :: rest => Scm_CharUtf8Getc (first :: rest) 0
    end.
Proof. rewrite Scm_CharUtf8Getc_drop. now destruct (drop cp buf). Qed.

Lemma drop_head (buf : list Z) cp first rest :
  drop cp buf = first :: rest ->
  buf !! cp = Some first
  /\ (forall j, buf !! (cp + S j)%nat = rest !! j)
  /\ length buf = (cp + S (length rest))%nat.
Proof.
  intros E. split; [|split].
  - rewrite <- (Nat.add_0_r cp), <- lookup_drop, E. reflexivity.
  - intros j. now rewrite <- lookup_drop, E.
  - pose proof (length_drop buf cp) as Hl. rewrite E in Hl. cbn [length] in Hl.
    lia.
Qed.

(** X4.  A character [Scm_CharUtf8Getc] returns, other than
    [SCM_CHAR_INVALID], is never read from an overlong sequence: it lies
    between 0x80 and 2^31 - 1, and the number of bytes [SCM_CHAR_NBYTES]
    gives for it is the number the lead byte announces in
    [Scm_CharSizeTable]. *)
Theorem utf8_getc_shortest_form (buf : list Z) (cp : nat) (ch : Z) :
  Scm_CharUtf8Getc buf cp = GotChar ch ->
  ch <> SCM_CHAR_INVALID ->
  0x80 <= ch < 2 ^ 31
  /\ exists first,
       buf !! cp = Some first
       /\ 0xc0 <= first < 0xfe
       /\ SCM_CHAR_NFOLLOWS first = Some (Z.of_nat (SCM_CHAR_NBYTES ch) - 1).
Proof.
  intros Hget Hvalid. rewrite Scm_CharUtf8Getc_head in Hget.
  destruct (drop cp buf) as [|first rest] eqn:Edrop; [discriminate|].
  apply drop_head in Edrop as (Hfirst & _ & _).
  destruct (decide (0xc0 <= first < 0xfe)) as [Hrange|Hout].
  2: { rewrite Scm_CharUtf8Getc_no_follow in Hget by lia.
       destruct (first <? 0x80); [discriminate|]. injection Hget as <-.
       contradiction. }
  rewrite (Scm_CharUtf8Getc_arith _ _ Hrange) in Hget.
  destruct (decide (lead_follows first <= length rest)%nat) as [Hlen|];
    [|discriminate].
  injection Hget as Hch.
  assert (2 ^ 31 = 2147483648) as E31 by reflexivity. rewrite E31.
  assert (SCM_CHAR_NFOLLOWS first = Some (Z.of_nat (lead_follows first))) as Htable
    by (apply SCM_CHAR_NFOLLOWS_byte; lia).
  enough (0x80 <= ch < 2147483648
          /\ SCM_CHAR_NBYTES ch = S (lead_follows first)) as [Hb Hn].
  { split; [exact Hb|]. exists first. repeat split; try lia; try assumption.
    rewrite Htable, Hn. f_equal. lia. }
  destruct (lead_cases first rest Hrange Hlen)
    as [(b1 & r & Hf & En & ->)
       |[(b1 & b2 & r & Hf & En & ->)
        |[(b1 & b2 & b3 & r & Hf & En & ->)
         |[(b1 & b2 & b3 & b4 & r & Hf & En & ->)
          |(b1 & b2 & b3 & b4 & b5 & r & Hf & En & ->)]]]];
    rewrite En in Hch |- *; cbn [take least_of] in Hch;
    rewrite ?decode_value_1, ?decode_value_2, ?decode_value_3, ?decode_value_4,
      ?decode_value_5 in Hch;
    match type of Hch with
    | context [(?a <? ?b)] => destruct (Z.ltb_spec a b); [congruence|]
    end;
    unfold SCM_CHAR_NBYTES; subst ch;
    (split; [Z.div_mod_to_equations; lia|]);
    decide_ltb_literal; reflexivity.
Qed.

(** An instance: the two bytes of e with acute accent. *)
Lemma utf8_getc_shortest_form_witness :
  (Scm_CharUtf8Getc [0xc3; 0xa9] 0 = GotChar 0xe9 /\ 0xe9 <> SCM_CHAR_INVALID)
  /\ 0x80 <= 0xe9 < 2 ^ 31
  /\ exists first,
       [0xc3; 0xa9] !! 0%nat = Some first
       /\ 0xc0 <= first < 0xfe
       /\ SCM_CHAR_NFOLLOWS first = Some (Z.of_nat (SCM_CHAR_NBYTES 0xe9) - 1).
Proof.
  assert (Scm_CharUtf8Getc [0xc3; 0xa9] 0 = GotChar 0xe9) as H1 by reflexivity.
  assert (0xe9 <> SCM_CHAR_INVALID) as H2 by discriminate.
  split; [split; assumption|].
  exact (utf8_getc_shortest_form [0xc3; 0xa9] 0 0xe9 H1 H2).
Defined.

(** X5.  [Scm_CharUtf8Getc] returns its unassigned local exactly when the
    byte at [cp] is below 0x80; [SCM_CHAR_GET] never comes to that: for
    such a byte it yields the byte and does not call the function.  A
    byte from 0x80 to 0xbf, or 0xfe or 0xff, in the place of a lead byte
    gives [SCM_CHAR_INVALID], whatever follows it. *)
Theorem utf8_getc_unassigned_only_below_0x80 (buf : list Z) (cp : nat) :
  (Scm_CharUtf8Getc buf cp = Unassigned
   <-> exists first, buf !! cp = Some first /\ first < 0x80)
  /\ SCM_CHAR_GET buf cp <> Unassigned
  /\ (forall first, buf !! cp = Some first -> first < 0x80 ->
                    SCM_CHAR_GET buf cp = GotChar first)
  /\ (forall first, buf !! cp = Some first ->
                    0x80 <= first < 0xc0 \/ 0xfe <= first ->
                    Scm_CharUtf8Getc buf cp = GotChar SCM_CHAR_INVALID).
Proof.
  assert (forall first, buf !! cp = Some first -> 0x80 <= first ->
                        Scm_CharUtf8Getc buf cp <> Unassigned) as Hhigh.
  { intros first Hfirst Hge. unfold Scm_CharUtf8Getc. rewrite Hfirst.
    destruct (Z.ltb_spec first 0x80); [lia|].
    repeat match goal with
           | |- context [if ?c then _ else _] => destruct c; try discriminate
           end;
      match goal with
      | |- least_or_invalid _ ?r <> _ => destruct r; discriminate
      end. }
  split; [|split; [|split]].
  - split.
    + intros Hget. destruct (buf !! cp) as [first|] eqn:Efirst.
      * exists first. split; [reflexivity|].
        destruct (Z.lt_ge_cases first 0x80) as [|Hge]; [assumption|].
        now elim (Hhigh first eq_refl Hge).
      * unfold Scm_CharUtf8Getc in Hget. rewrite Efirst in Hget. discriminate.
    + intros (first & Hfirst & Hlt). unfold Scm_CharUtf8Getc. rewrite Hfirst.
      destruct (Z.ltb_spec first 0x80); [reflexivity | lia].
  - unfold SCM_CHAR_GET. destruct (buf !! cp) as [first|] eqn:Efirst;
      [|discriminate].
    destruct (Z.leb_spec 0x80 first); [|discriminate]. now apply (Hhigh first).
  - intros first Hfirst Hlt. unfold SCM_CHAR_GET. rewrite Hfirst.
    destruct (Z.leb_spec 0x80 first); [lia | reflexivity].
  - intros first Hfirst Hrange. unfold Scm_CharUtf8Getc. rewrite Hfirst.
    lead_range first; reflexivity.
Qed.

Lemma decode_value_low_bits first (conts conts' : list Z) :
  Forall2 (fun b b' => b mod 64 = b' mod 64) conts conts' ->
  decode_value first conts = decode_value first conts'.
Proof.
  intros H. unfold decode_value. rewrite (Forall2_length _ _ _ H).
  generalize (first mod 2 ^ (6 - Z.of_nat (length conts'))).
  induction H as [|b b' l l' Hb _ IH]; intros acc; cbn [fold_left]; [reflexivity|].
  rewrite Hb. apply IH.
Qed.

(** X6.  [Scm_CharUtf8Getc] does not look at the two top bits of the bytes
    after the lead byte: any bytes are taken as continuation bytes, and a
    sequence decodes to the same as the one in which each of them is cut
    to six bits and marked 10xxxxxx. *)
Theorem utf8_getc_ignores_top_bits (before rest : list Z) (first : Z) :
  Scm_CharUtf8Getc
    (before ++ first :: map (fun b => Z.lor (Z.land b 0x3f) 0x80) rest)
    (length before)
  = Scm_CharUtf8Getc (before ++ first :: rest) (length before).
Proof.
  rewrite (Scm_CharUtf8Getc_drop (before ++ first :: rest)).
  rewrite (Scm_CharUtf8Getc_drop (before ++ first :: map _ rest)).
  rewrite !drop_app_length.
  destruct (decide (0xc0 <= first < 0xfe)) as [Hrange|Hout].
  2: { now rewrite !Scm_CharUtf8Getc_no_follow by lia. }
  rewrite !(Scm_CharUtf8Getc_arith _ _ Hrange), length_map.
  destruct (decide (lead_follows first <= length rest)%nat); [|reflexivity].
  rewrite (decode_value_low_bits first
             (take (lead_follows first)
                (map (fun b => Z.lor (Z.land b 0x3f) 0x80) rest))
             (take (lead_follows first) rest)); [reflexivity|].
  rewrite <- fmap_take. apply Forall2_fmap_l, Forall_Forall2_diag, Forall_forall.
  intros b _. unfold compose. rewrite continuation_value.
  Z.div_mod_to_equations; lia.
Qed.

(** X7.  [Scm_CharUtf8Getc] reads the byte at [cp] and as many bytes after
    it as the table [Scm_CharSizeTable] gives for that byte, and no other:
    it leaves the buffer exactly when fewer bytes are there, and its
    result is the same on the buffer cut after them. *)
Theorem utf8_getc_reads_announced_bytes (buf : list Z) (cp : nat) (first : Z) :
  buf !! cp = Some first ->
  0 <= first < 256 ->
  exists n : nat,
    SCM_CHAR_NFOLLOWS first = Some (Z.of_nat n)
    /\ (Scm_CharUtf8Getc buf cp = ReadOutside <-> (length buf < cp + 1 + n)%nat)
    /\ Scm_CharUtf8Getc (take (cp + 1 + n) buf) cp = Scm_CharUtf8Getc buf cp.
Proof.
  intros Hfirst Hbyte. exists (lead_follows first).
  split; [now apply SCM_CHAR_NFOLLOWS_byte|].
  pose proof (lookup_lt_Some _ _ _ Hfirst) as Hcp.
  replace (cp + 1 + lead_follows first)%nat with (cp + S (lead_follows first))%nat
    by lia.
  rewrite (Scm_CharUtf8Getc_head buf), (Scm_CharUtf8Getc_head (take _ buf)).
  rewrite <- take_drop_commute.
  destruct (drop cp buf) as [|first' rest] eqn:Edrop.
  { apply (f_equal length) in Edrop. rewrite length_drop in Edrop.
    cbn [length] in Edrop. lia. }
  apply drop_head in Edrop as (Hfirst' & _ & Hlen).
  assert (first' = first) as -> by congruence.
  cbn [take].
  destruct (decide (0xc0 <= first < 0xfe)) as [Hrange|Hout].
  - rewrite !(Scm_CharUtf8Getc_arith _ _ Hrange), length_take, take_take.
    rewrite Nat.min_id.
    destruct (decide (lead_follows first <= length rest)%nat) as [Hle|Hgt].
    + destruct (decide (lead_follows first
                        <= lead_follows first `min` length rest)%nat); [|lia].
      split; [|reflexivity]. split; [discriminate | lia].
    + destruct (decide (lead_follows first
                        <= lead_follows first `min` length rest)%nat); [lia|].
      split; [|reflexivity]. split; [lia | reflexivity].
  - rewrite !Scm_CharUtf8Getc_no_follow by lia.
    assert (lead_follows first = 0%nat) as E0
      by (unfold lead_follows; lead_range first; reflexivity).
    split; [|reflexivity]. rewrite E0.
    split; [destruct (first <? 0x80); discriminate | lia].
Qed.

(** An instance: a three-byte lead byte with one byte after it. *)
Lemma utf8_getc_reads_announced_bytes_witness :
  ([0x41; 0xe2; 0x82] !! 1%nat = Some 0xe2 /\ 0 <= 0xe2 < 256)
  /\ exists n : nat,
       SCM_CHAR_NFOLLOWS 0xe2 = Some (Z.of_nat n)
       /\ (Scm_CharUtf8Getc [0x41; 0xe2; 0x82] 1 = ReadOutside
           <-> (length [0x41; 0xe2; 0x82] < 1 + 1 + n)%nat)
       /\ Scm_CharUtf8Getc (take (1 + 1 + n) [0x41; 0xe2; 0x82]) 1
          = Scm_CharUtf8Getc [0x41; 0xe2; 0x82] 1.
Proof.
  assert ([0x41; 0xe2; 0x82] !! 1%nat = Some 0xe2) as H1 by reflexivity.
  assert (0 <= 0xe2 < 256) as H2 by (split; [discriminate | reflexivity]).
  split; [split; assumption|].
  exact (utf8_getc_reads_announced_bytes [0x41; 0xe2; 0x82] 1 0xe2 H1 H2).
Defined.

Lemma spliced_same (buf : list Z) cp bs r :
  drop cp buf = bs ++ r -> spliced buf cp bs = buf.
Proof.
  intros E. unfold spliced.
  rewrite <- drop_drop, E, drop_app_length, <- E.
  apply take_drop.
Qed.

(** X8.  Decoding and encoding again gives the bytes back: when
    [Scm_CharUtf8Getc] returns a character other than [SCM_CHAR_INVALID]
    and the bytes it read after the lead byte are continuation bytes,
    [Scm_CharUtf8Putc] of that character at the same place leaves the
    buffer as it is. *)
Theorem utf8_getc_putc_restores (buf : list Z) (cp : nat) (ch : Z) :
  Scm_CharUtf8Getc buf cp = GotChar ch ->
  ch <> SCM_CHAR_INVALID ->
  (forall j b, (1 <= j < SCM_CHAR_NBYTES ch)%nat ->
               buf !! (cp + j)%nat = Some b -> 0x80 <= b < 0xc0) ->
  Scm_CharUtf8Putc buf cp ch = Some buf.
Proof.
  intros Hget Hvalid Hconts. rewrite Scm_CharUtf8Getc_head in Hget.
  destruct (drop cp buf) as [|first rest] eqn:Edrop; [discriminate|].
  pose proof (drop_head _ _ _ _ Edrop) as (Hfirst & Hrest & Hlength).
  destruct (decide (0xc0 <= first < 0xfe)) as [Hrange|Hout].
  2: { rewrite Scm_CharUtf8Getc_no_follow in Hget by lia.
       destruct (first <? 0x80); [discriminate|]. injection Hget as <-.
       contradiction. }
  rewrite (Scm_CharUtf8Getc_arith _ _ Hrange) in Hget.
  destruct (decide (lead_follows first <= length rest)%nat) as [Hlen|];
    [|discriminate].
  injection Hget as Hch.
  enough (SCM_CHAR_NBYTES ch = S (lead_follows first)
          /\ (SCM_CHAR_NBYTES ch = S (lead_follows first) ->
              utf8_bytes ch = first :: take (lead_follows first) rest))
    as [Hn Hbytes].
  { rewrite Scm_CharUtf8Putc_room by lia. f_equal.
    apply spliced_same with (drop (lead_follows first) rest).
    rewrite Edrop, (Hbytes Hn). cbn [app]. now rewrite take_drop. }
  destruct (lead_cases first rest Hrange Hlen)
    as [(b1 & r & Hf & En & ->)
       |[(b1 & b2 & r & Hf & En & ->)
        |[(b1 & b2 & b3 & r & Hf & En & ->)
         |[(b1 & b2 & b3 & b4 & r & Hf & En & ->)
          |(b1 & b2 & b3 & b4 & b5 & r & Hf & En & ->)]]]];
    rewrite En in Hch |- *; cbn [take least_of] in Hch |- *;
    rewrite ?decode_value_1, ?decode_value_2, ?decode_value_3, ?decode_value_4,
      ?decode_value_5 in Hch;
    match type of Hch with
    | context [(?a <? ?b)] => destruct (Z.ltb_spec a b); [congruence|]
    end;
    (split;
     [unfold SCM_CHAR_NBYTES; subst ch; decide_ltb_literal; reflexivity|]);
    intros Hn;
    pose proof (fun j b (Hj : (1 <= j < _)%nat) => Hconts j b ltac:(rewrite Hn; exact Hj))
      as Hc;
    try pose proof (Hc 1%nat b1 ltac:(lia) ltac:(now rewrite Hrest));
    try pose proof (Hc 2%nat b2 ltac:(lia) ltac:(now rewrite Hrest));
    try pose proof (Hc 3%nat b3 ltac:(lia) ltac:(now rewrite Hrest));
    try pose proof (Hc 4%nat b4 ltac:(lia) ltac:(now rewrite Hrest));
    try pose proof (Hc 5%nat b5 ltac:(lia) ltac:(now rewrite Hrest));
    (rewrite utf8_bytes_arith by (Z.div_mod_to_equations; lia));
    subst ch; decide_ltb_literal;
    repeat (f_equal; try (Z.div_mod_to_equations; lia)).
Qed.

(** An instance: the three bytes of the euro sign in the middle of a
    buffer. *)
Lemma utf8_getc_putc_restores_witness :
  (Scm_CharUtf8Getc [0x41; 0xe2; 0x82; 0xac; 0x42] 1 = GotChar 0x20ac
   /\ 0x20ac <> SCM_CHAR_INVALID
   /\ (forall j b, (1 <= j < SCM_CHAR_NBYTES 0x20ac)%nat ->
                   [0x41; 0xe2; 0x82; 0xac; 0x42] !! (1 + j)%nat = Some b ->
                   0x80 <= b < 0xc0))
  /\ Scm_CharUtf8Putc [0x41; 0xe2; 0x82; 0xac; 0x42] 1 0x20ac
     = Some [0x41; 0xe2; 0x82; 0xac; 0x42].
Proof.
  assert (Scm_CharUtf8Getc [0x41; 0xe2; 0x82; 0xac; 0x42] 1 = GotChar 0x20ac) as H1
    by reflexivity.
  assert (0x20ac <> SCM_CHAR_INVALID) as H2 by discriminate.
  assert (forall j b, (1 <= j < SCM_CHAR_NBYTES 0x20ac)%nat ->
                      [0x41; 0xe2; 0x82; 0xac; 0x42] !! (1 + j)%nat = Some b ->
                      0x80 <= b < 0xc0) as H3.
  { intros j b Hj Hb. change (SCM_CHAR_NBYTES 0x20ac) with 3%nat in Hj.
    destruct j as [|[|[|j]]]; try lia; injection Hb as <-; lia. }
  split; [split; [exact H1 | split; [exact H2 | exact H3]]|].
  exact (utf8_getc_putc_restores _ 1%nat 0x20ac H1 H2 H3).
Defined.

(** ** Stepping backward *)

(** The loop over [k] positions from [start] on, all of them bytes of the
    buffer: it stops at the last position that passes the test. *)
Lemma backward_loop_spec (buf : list Z) (cp start : Z) (k : nat) :
  0 <= start ->
  (forall r, start <= r < start + Z.of_nat k ->
             exists b, buf !! Z.to_nat r = Some b /\ 0 <= b < 256) ->
  match backward_loop buf cp start k with
  | FoundAt r =>
      start <= r < start + Z.of_nat k /\ ends_before buf cp r
      /\ forall r', r < r' < start + Z.of_nat k -> ~ ends_before buf cp r'
  | FoundNull => forall r', start <= r' < start + Z.of_nat k -> ~ ends_before buf cp r'
  | BackwardOutside => False
  end.
Proof.
  intros Hstart. induction k as [|k IH]; intros Hbytes; cbn [backward_loop].
  - intros r' Hr'. lia.
  - destruct (decide (0 <= start + Z.of_nat k)) as [_|]; [|lia].
    destruct (Hbytes (start + Z.of_nat k)) as (b & Hb & Hbyte); [lia|].
    rewrite Hb, (SCM_CHAR_NFOLLOWS_byte b Hbyte).
    destruct (Z.eqb_spec (start + Z.of_nat k + Z.of_nat (lead_follows b) + 1) cp)
      as [Hhit|Hmiss].
    + split; [lia|]. split.
      * exists b, (Z.of_nat (lead_follows b)).
        repeat split; try lia; try assumption.
        now apply SCM_CHAR_NFOLLOWS_byte.
      * intros r' Hr'. lia.
    + assert (~ ends_before buf cp (start + Z.of_nat k)) as Hnot.
      { intros (b' & n' & _ & Hb' & Hn' & Hsum).
        rewrite Hb in Hb'. injection Hb' as <-.
        rewrite (SCM_CHAR_NFOLLOWS_byte b Hbyte) in Hn'. injection Hn' as <-.
        lia. }
      specialize (IH ltac:(intros r Hr; apply Hbytes; lia)).
      destruct (backward_loop buf cp start k) as [r| |]; [| |exact IH].
      * destruct IH as (Hr & Hends & Hlast). split; [lia|]. split; [exact Hends|].
        intros r' Hr'.
        destruct (Z.eq_dec r' (start + Z.of_nat k)) as [->|]; [exact Hnot|].
        apply Hlast. lia.
      * intros r' Hr'.
        destruct (Z.eq_dec r' (start + Z.of_nat k)) as [->|]; [exact Hnot|].
        apply IH. lia.
Qed.

(** X9.  [SCM_CHAR_BACKWARD(cp, start, result)], on a buffer whose bytes
    from [start] to [cp] can be read, gives the position nearest to [cp]
    at which a byte and the bytes it announces end right before [cp], and
    tries no position below [start]; where there is none, and always when
    [cp] is not above [start], it gives [NULL]. *)
Theorem utf8_backward_nearest_match (buf : list Z) (cp start : Z) :
  0 <= start ->
  (forall r, start <= r <= cp ->
             exists b, buf !! Z.to_nat r = Some b /\ 0 <= b < 256) ->
  match SCM_CHAR_BACKWARD buf cp start with
  | FoundAt r =>
      start <= r < cp /\ ends_before buf cp r
      /\ forall r', r < r' <= cp -> ~ ends_before buf cp r'
  | FoundNull => forall r', start <= r' <= cp -> ~ ends_before buf cp r'
  | BackwardOutside => False
  end
  /\ (cp <= start -> SCM_CHAR_BACKWARD buf cp start = FoundNull).
Proof.
  intros Hstart Hbytes. unfold SCM_CHAR_BACKWARD.
  pose proof (backward_loop_spec buf cp start (Z.to_nat (cp - start + 1)) Hstart)
    as Hloop.
  assert (forall r, start <= r < start + Z.of_nat (Z.to_nat (cp - start + 1))
                    <-> start <= r <= cp) as Hrange by (intros r; lia).
  specialize (Hloop ltac:(intros r Hr; apply Hbytes, Hrange, Hr)).
  assert (forall r, start <= r -> ends_before buf cp r -> r < cp) as Hbelow.
  { intros r Hr (b & n & _ & Hb & Hn & Hsum).
    destruct (decide (0 <= b < 256)) as [Hbyte|Hno].
    - rewrite (SCM_CHAR_NFOLLOWS_byte b Hbyte) in Hn. injection Hn as <-. lia.
    - apply SCM_CHAR_NFOLLOWS_None in Hno. congruence. }
  split.
  - destruct (backward_loop buf cp start (Z.to_nat (cp - start + 1))) as [r| |];
      [| |exact Hloop].
    + destruct Hloop as (Hr & Hends & Hlast).
      split; [split; [lia | apply Hbelow; [lia | exact Hends]]|].
      split; [exact Hends|]. intros r' Hr'. apply Hlast. lia.
    + intros r' Hr'. apply Hloop, Hrange, Hr'.
  - intros Hle.
    destruct (backward_loop buf cp start (Z.to_nat (cp - start + 1))) as [r| |];
      [|reflexivity|contradiction].
    destruct Hloop as (Hr & Hends & _).
    pose proof (Hbelow r ltac:(lia) Hends). lia.
Qed.

(** An instance: one position back over an ASCII byte. *)
Lemma utf8_backward_nearest_match_witness :
  (0 <= 0
   /\ forall r, 0 <= r <= 2 ->
                exists b, [0x41; 0x42; 0] !! Z.to_nat r = Some b /\ 0 <= b < 256)
  /\ match SCM_CHAR_BACKWARD [0x41; 0x42; 0] 2 0 with
     | FoundAt r =>
         0 <= r < 2 /\ ends_before [0x41; 0x42; 0] 2 r
         /\ forall r', r < r' <= 2 -> ~ ends_before [0x41; 0x42; 0] 2 r'
     | FoundNull => forall r', 0 <= r' <= 2 -> ~ ends_before [0x41; 0x42; 0] 2 r'
     | BackwardOutside => False
     end
     /\ (2 <= 0 -> SCM_CHAR_BACKWARD [0x41; 0x42; 0] 2 0 = FoundNull).
Proof.
  assert (forall r, 0 <= r <= 2 ->
                    exists b, [0x41; 0x42; 0] !! Z.to_nat r = Some b /\ 0 <= b < 256)
    as H2.
  { intros r Hr.
    assert (r = 0 \/ r = 1 \/ r = 2) as [->|[->| ->]] by lia;
      eexists; (split; [reflexivity | lia]). }
  split; [split; [lia | exact H2]|].
  exact (utf8_backward_nearest_match [0x41; 0x42; 0] 2 0 ltac:(lia) H2).
Defined.

(** The last byte of a character announces no byte after it. *)
Lemma utf8_bytes_last ch :
  0 <= ch < 2 ^ 31 ->
  exists b, utf8_bytes ch !! (SCM_CHAR_NBYTES ch - 1)%nat = Some b
            /\ 0 <= b < 256 /\ lead_follows b = 0%nat.
Proof.
  intros Hch.
  destruct (utf8_bytes_shape ch Hch)
    as (first & conts & Ebytes & Hfirst & Hfollows & Hn & Hconts & _ & _).
  rewrite Ebytes, <- Hn. cbn [Nat.sub]. rewrite Nat.sub_0_r.
  destruct conts as [|c conts'] eqn:Ec.
  - exists first. cbn [length] in *. now repeat split; try lia.
  - rewrite <- Ec in *. cbn [lookup list_lookup].
    assert (0 < length conts)%nat as Hpos by (rewrite Ec; cbn [length]; lia).
    destruct (length conts) as [|m] eqn:Elen; [lia|].
    cbn [lookup list_lookup]. rewrite Nat.sub_0_r || idtac.
    destruct (lookup_lt_is_Some_2 conts m) as [b Hb]; [lia|].
    exists b. split; [exact Hb|].
    rewrite Forall_lookup in Hconts. specialize (Hconts _ _ Hb).
    unfold continuation in Hconts. split; [lia|].
    unfold lead_follows. destruct (Z.ltb_spec b 0xc0); [reflexivity | lia].
Qed.

(** One position back: the byte before [cp] announces nothing. *)
Lemma SCM_CHAR_BACKWARD_one (buf : list Z) (cp start b0 b1 : Z) :
  start < cp -> 1 <= cp ->
  buf !! Z.to_nat cp = Some b0 -> 0 <= b0 < 256 ->
  buf !! Z.to_nat (cp - 1) = Some b1 -> 0 <= b1 < 256 -> lead_follows b1 = 0%nat ->
  SCM_CHAR_BACKWARD buf cp start = FoundAt (cp - 1).
Proof.
  intros Hstart Hcp Hb0 Hbyte0 Hb1 Hbyte1 Hlast. unfold SCM_CHAR_BACKWARD.
  replace (Z.to_nat (cp - start + 1)) with (S (S (Z.to_nat (cp - start - 1)))) by lia.
  cbn [backward_loop].
  replace (start + Z.of_nat (S (Z.to_nat (cp - start - 1)))) with cp by lia.
  replace (start + Z.of_nat (Z.to_nat (cp - start - 1))) with (cp - 1) by lia.
  destruct (decide (0 <= cp)) as [_|]; [|lia].
  rewrite Hb0, (SCM_CHAR_NFOLLOWS_byte b0 Hbyte0).
  destruct (Z.eqb_spec (cp + Z.of_nat (lead_follows b0) + 1) cp) as [|_]; [lia|].
  destruct (decide (0 <= cp - 1)) as [_|]; [|lia].
  rewrite Hb1, (SCM_CHAR_NFOLLOWS_byte b1 Hbyte1), Hlast.
  destruct (Z.eqb_spec (cp - 1 + Z.of_nat 0 + 1) cp) as [_|]; [reflexivity | lia].
Qed.

(** X10.  Where the macro reads the buffer as unsigned bytes (its
    pointers are [unsigned char *], or [char] is unsigned, so that
    [*(result)] is a number from 0 to 255 and indexes the table inside
    it): [SCM_CHAR_BACKWARD] from the end of a character that
    [SCM_CHAR_PUT] stored at [p] gives the position of the character's
    last byte, whatever [start] at or below [p]: that is [p], the start of
    the character, exactly when the character is below 0x80.  The byte at
    [cp] itself, which the macro reads first, is taken to be a byte of the
    buffer, also read as a number from 0 to 255.  The macro has no cast of
    its own: nothing is said here of a buffer read through a signed
    [char], where a byte of 0x80 or more is a negative index into
    [Scm_CharSizeTable]. *)
Theorem utf8_backward_after_put (buf buf' : list Z) (p : nat) (ch start b0 : Z) :
  0 <= ch < 2 ^ 31 ->
  SCM_CHAR_PUT buf p ch = Some buf' ->
  start <= Z.of_nat p ->
  buf !! (p + SCM_CHAR_NBYTES ch)%nat = Some b0 -> 0 <= b0 < 256 ->
  SCM_CHAR_BACKWARD buf' (Z.of_nat (p + SCM_CHAR_NBYTES ch)) start
  = FoundAt (Z.of_nat (p + SCM_CHAR_NBYTES ch) - 1)
  /\ (Z.of_nat (p + SCM_CHAR_NBYTES ch) - 1 = Z.of_nat p <-> ch < 0x80).
Proof.
  intros Hch Hput Hstart Hb0 Hbyte0.
  pose proof (lookup_lt_Some _ _ _ Hb0) as Hroom.
  rewrite SCM_CHAR_PUT_Putc, Scm_CharUtf8Putc_room in Hput by lia.
  injection Hput as <-.
  assert (1 <= SCM_CHAR_NBYTES ch)%nat as Hn.
  { unfold SCM_CHAR_NBYTES.
    repeat match goal with |- context [if ?c then _ else _] => destruct c end; lia. }
  destruct (utf8_bytes_last ch Hch) as (b1 & Hb1 & Hbyte1 & Hlast).
  split.
  - apply (SCM_CHAR_BACKWARD_one _ _ _ b0 b1); try assumption; try lia.
    + rewrite Nat2Z.id. unfold spliced.
      rewrite lookup_app_r by (rewrite length_take; lia).
      rewrite lookup_app_r by (rewrite length_take, length_utf8_bytes; lia).
      rewrite lookup_drop, length_take, length_utf8_bytes, <- Hb0. f_equal. lia.
    + replace (Z.to_nat (Z.of_nat (p + SCM_CHAR_NBYTES ch) - 1))
        with (p + (SCM_CHAR_NBYTES ch - 1))%nat by lia.
      rewrite lookup_spliced by (rewrite ?length_utf8_bytes; lia). exact Hb1.
  - clear Hb0 Hb1 Hroom. unfold SCM_CHAR_NBYTES in *.
    repeat match goal with
           | |- context [if ?a <? ?b then _ else _] => destruct (Z.ltb_spec a b)
           end; lia.
Qed.

(** An instance: after the three bytes of the euro sign at 1, stepping
    back from 4 gives 3. *)
Lemma utf8_backward_after_put_witness :
  (0 <= 0x20ac < 2 ^ 31
   /\ SCM_CHAR_PUT (replicate 8 0) 1 0x20ac = Some [0; 0xe2; 0x82; 0xac; 0; 0; 0; 0]
   /\ 0 <= Z.of_nat 1
   /\ replicate 8 0 !! (1 + SCM_CHAR_NBYTES 0x20ac)%nat = Some 0
   /\ 0 <= 0 < 256)
  /\ SCM_CHAR_BACKWARD [0; 0xe2; 0x82; 0xac; 0; 0; 0; 0]
       (Z.of_nat (1 + SCM_CHAR_NBYTES 0x20ac)) 0
     = FoundAt (Z.of_nat (1 + SCM_CHAR_NBYTES 0x20ac) - 1)
  /\ (Z.of_nat (1 + SCM_CHAR_NBYTES 0x20ac) - 1 = Z.of_nat 1 <-> 0x20ac < 0x80).
Proof.
  assert (0 <= 0x20ac < 2 ^ 31) as H1 by (split; [discriminate | reflexivity]).
  assert (SCM_CHAR_PUT (replicate 8 0) 1 0x20ac
          = Some [0; 0xe2; 0x82; 0xac; 0; 0; 0; 0]) as H2 by reflexivity.
  assert (0 <= Z.of_nat 1) as H3 by discriminate.
  assert (replicate 8 0 !! (1 + SCM_CHAR_NBYTES 0x20ac)%nat = Some 0) as H4
    by reflexivity.
  assert (0 <= 0 < 256) as H5 by (split; [discriminate | reflexivity]).
  split; [split; [exact H1 | split; [exact H2 | split; [exact H3 | split; [exact H4 | exact H5]]]]|].
  exact (utf8_backward_after_put _ _ 1%nat 0x20ac 0 0 H1 H2 H3 H4 H5).
Defined.

(** * The heap invariant *)

Local Close Scope Z_scope.

Lemma heap_ok_ext s s' :
  next_tl_index s <= next_tl_index s' ->
  tables s' = tables s -> arrays s' = arrays s ->
  heap_ok s -> heap_ok s'.
Proof.
  intros Hn Ht Ha [Hvec Hsep]. split.
  - intros p t Hp. rewrite Ht in Hp.
    destruct (Hvec p t Hp) as (vec & Hv & Hs & Hu).
    exists vec. rewrite Ha. split; [exact Hv|]. split; [exact Hs|].
    intros j Hj. apply Hu. lia.
  - intros p q tp tq Hp Hq. rewrite Ht in Hp, Hq. now apply Hsep.
Qed.

(** The table of a VM in a heap that satisfies the invariant. *)
Lemma heap_ok_table s vm :
  heap_ok s -> threadLocals vm < length (tables s) ->
  exists t vec,
    tables s !! threadLocals vm = Some t /\ arrays s !! vector t = Some vec
    /\ size t = length vec
    /\ vm_slots s vm = Some vec
    /\ forall j, next_tl_index s <= j < length vec -> vec !! j = Some SCM_UNBOUND.
Proof.
  intros [Hvec _] Hlt.
  destruct (lookup_lt_is_Some_2 _ _ Hlt) as [t Ht].
  destruct (Hvec _ _ Ht) as (vec & Hv & Hs & Hu).
  exists t, vec. repeat split; try assumption.
  apply vm_slots_Some. now exists t.
Qed.


(** The growth of one table. *)
Lemma heap_ok_grown s p t vec i :
  heap_ok s -> tables s !! p = Some t -> arrays s !! vector t = Some vec ->
  size t = length vec -> size t <= i ->
  heap_ok (grown s p t vec i).
Proof.
  intros [Hvec Hsep] Hp Ha Hs Hi.
  pose proof (lookup_lt_Some _ _ _ Ha) as Hlt.
  pose proof (lookup_lt_Some _ _ _ Hp) as Hplt.
  pose proof (grown_size_gt i) as Hgt.
  destruct (Hvec p t Hp) as (vec0 & Hv0 & _ & Hu).
  assert (vec0 = vec) as -> by congruence.
  unfold grown. split; norm_state.
  - intros q tq Hq. destruct (decide (q = p)) as [->|Hne].
    + rewrite list_lookup_insert_eq in Hq by assumption. injection Hq as <-.
      cbn [vector size].
      exists (vec ++ replicate (grown_size i - size t) SCM_UNBOUND).
      split; [now apply heap2_lookup_new|].
      split; [rewrite length_app, length_replicate; lia|].
      intros j Hj. rewrite length_app, length_replicate in Hj.
      destruct (decide (j < length vec)).
      * rewrite lookup_app_l by assumption. apply Hu. lia.
      * rewrite lookup_app_r by lia. apply lookup_replicate_2. lia.
    + rewrite list_lookup_insert_ne in Hq by congruence.
      destruct (Hvec q tq Hq) as (vq & Hvq & Hsq & Huq). exists vq.
      split; [|split; assumption].
      pose proof (lookup_lt_Some _ _ _ Hvq).
      rewrite lookup_app_l by (rewrite length_insert; assumption).
      rewrite list_lookup_insert_ne; [assumption|].
      intros E. apply Hne. symmetry. now apply (Hsep p q t tq).
  - intros q r tq tr Hq Hr E.
    destruct (decide (q = p)) as [->|Hqp], (decide (r = p)) as [->|Hrp];
      try reflexivity.
    + rewrite list_lookup_insert_eq in Hq by assumption. injection Hq as <-.
      rewrite list_lookup_insert_ne in Hr by congruence. cbn [vector] in E.
      destruct (Hvec r tr Hr) as (vr & Hvr & _). apply lookup_lt_Some in Hvr. lia.
    + rewrite list_lookup_insert_eq in Hr by assumption. injection Hr as <-.
      rewrite list_lookup_insert_ne in Hq by congruence. cbn [vector] in E.
      destruct (Hvec q tq Hq) as (vq & Hvq & _). apply lookup_lt_Some in Hvq. lia.
    + rewrite list_lookup_insert_ne in Hq, Hr by congruence. now apply (Hsep q r tq tr).
Qed.

(** A new table with a new vector. *)
Lemma heap_ok_new_table s vec :
  heap_ok s ->
  (forall j, next_tl_index s <= j < length vec -> vec !! j = Some SCM_UNBOUND) ->
  heap_ok (set_tables (tables s ++ [mkTable (length (arrays s)) (length vec)])
             (set_arrays (arrays s ++ [vec]) s)).
Proof.
  intros [Hvec Hsep] Hu. split; norm_state.
  - intros q tq Hq. apply lookup_app_Some in Hq as [Hq | [Hge Hq]].
    + destruct (Hvec q tq Hq) as (vq & Hvq & Hsq & Huq). exists vq.
      split; [|split; assumption].
      rewrite lookup_app_l by now apply lookup_lt_Some with vq. exact Hvq.
    + apply list_lookup_singleton_Some in Hq as [_ <-]. cbn [vector size].
      exists vec. split; [apply heap1_lookup_new|]. split; [reflexivity | exact Hu].
  - intros q r tq tr Hq Hr E.
    apply lookup_app_Some in Hq as [Hq | [Hgeq Hq]];
      apply lookup_app_Some in Hr as [Hr | [Hger Hr]].
    + now apply (Hsep q r tq tr).
    + apply list_lookup_singleton_Some in Hr as [_ <-]. cbn [vector] in E.
      destruct (Hvec q tq Hq) as (vq & Hvq & _). apply lookup_lt_Some in Hvq. lia.
    + apply list_lookup_singleton_Some in Hq as [_ <-]. cbn [vector] in E.
      destruct (Hvec r tr Hr) as (vr & Hvr & _). apply lookup_lt_Some in Hvr. lia.
    + apply list_lookup_singleton_Some in Hq as [Hq0 _].
      apply list_lookup_singleton_Some in Hr as [Hr0 _]. lia.
Qed.


Lemma heap_ok_started_state : heap_ok started_state.
Proof.
  split; cbn [started_state tables arrays next_tl_index].
  - intros p t Hp. destruct p as [|p]; [|destruct p; discriminate].
    injection Hp as <-. eexists. split; [reflexivity|]. split; [reflexivity|].
    intros j Hj. cbn [length] in Hj.
    assert (j = 2 \/ j = 3) as [-> | ->] by lia; reflexivity.
  - intros p q tp tq Hp Hq _.
    destruct p as [|p]; [|destruct p; discriminate].
    destruct q as [|q]; [reflexivity | destruct q; discriminate].
Qed.



(** The creation of a descriptor: the new index is the counter's value,
    and in the state reached the slots from that index on are still
    unset in every table. *)
Lemma Scm_MakeThreadLocal_heap s cur k n v f :
  heap_ok s -> threadLocals cur < length (tables s) ->
  exists s',
    Scm_MakeThreadLocal cur k n v f s
    = Done (mkThreadLocal k n (next_tl_index s) v f) s'
    /\ next_tl_index s' = S (next_tl_index s)
    /\ length (tables s') = length (tables s)
    /\ promises s' = promises s
    /\ bindings s' = bindings s
    /\ heap_ok (set_next_tl_index (next_tl_index s) s').
Proof.
  intros Hok Hcur.
  destruct (heap_ok_table s cur Hok Hcur) as (t & vec & Ht & Hv & Hs & _ & _).
  unfold Scm_MakeThreadLocal. unfold bind at 1.
  set (s0 := set_next_tl_index (S (next_tl_index s)) s).
  destruct (decide (next_tl_index s < size t)) as [Hin|Hout].
  - rewrite (bind_Done _ _ _ _ _ (ensure_tl_slot_fits s0 _ t Ht _ Hin)).
    exists s0. do 5 (split; [reflexivity|]).
    apply (heap_ok_ext s); [reflexivity | reflexivity | reflexivity | exact Hok].
  - assert (size t <= next_tl_index s) as Hge by lia.
    rewrite (bind_Done _ _ _ _ _
               (ensure_tl_slot_grows s0 _ t vec Ht Hv Hs _ Hge)).
    exists (grown s0 (threadLocals cur) t vec (next_tl_index s)).
    split; [reflexivity|]. split; [reflexivity|].
    split; [unfold grown; norm_state; now rewrite length_insert|].
    split; [reflexivity|]. split; [reflexivity|].
    apply (heap_ok_ext (grown s (threadLocals cur) t vec (next_tl_index s)));
      [reflexivity | reflexivity | reflexivity |].
    now apply heap_ok_grown.
Qed.



(** * Descriptors and their slots *)

(** A read through a descriptor whose slot is unset. *)
Lemma unset_slot_read s vm vec tl :
  vm_slots s vm = Some vec ->
  vec !! index tl = None \/ vec !! index tl = Some SCM_UNBOUND ->
  result_value (Scm_ThreadLocalRef vm tl s)
  = Some (read_result s tl (initialValue tl)).
Proof.
  intros Hslots Hunset. rewrite (Scm_ThreadLocalRef_value s vm vec tl Hslots).
  unfold slot_value. now destruct Hunset as [-> | ->].
Qed.

(** In a heap that satisfies the invariant, the slot of an index at or
    above the counter is unset in every table. *)
Lemma heap_ok_unset s vm i :
  heap_ok s -> threadLocals vm < length (tables s) -> next_tl_index s <= i ->
  exists vec, vm_slots s vm = Some vec
              /\ (vec !! i = None \/ vec !! i = Some SCM_UNBOUND).
Proof.
  intros Hok Hvm Hi.
  destruct (heap_ok_table s vm Hok Hvm) as (t & vec & _ & _ & _ & Hslots & Hu).
  exists vec. split; [exact Hslots|].
  destruct (decide (i < length vec)).
  - right. apply Hu. lia.
  - left. apply lookup_ge_None. lia.
Qed.

(** X13.  A descriptor that [Scm_MakeThreadLocal] has just created reads
    as its initial value (forced if the descriptor is lazy) in every VM
    that has a table, not only in the VM of the thread that created it:
    no slot of the new index holds a value left over from before. *)
Theorem fresh_thread_local_reads_initial s cur k n v f :
  heap_ok s -> threadLocals cur < length (tables s) ->
  exists tl s',
    Scm_MakeThreadLocal cur k n v f s = Done tl s'
    /\ initialValue tl = v
    /\ forall vm, threadLocals vm < length (tables s) ->
         result_value (Scm_ThreadLocalRef vm tl s') = Some (read_result s' tl v).
Proof.
  intros Hok Hcur.
  destruct (Scm_MakeThreadLocal_heap s cur k n v f Hok Hcur)
    as (s' & E & Hn & Hl & _ & _ & Hok').
  eexists _, s'. split; [exact E|]. split; [reflexivity|].
  intros vm Hvm.
  destruct (heap_ok_unset (set_next_tl_index (next_tl_index s) s') vm (next_tl_index s))
    as (vec & Hslots & Hunset); [exact Hok' | norm_state; lia | reflexivity |].
  exact (unset_slot_read s' vm vec (mkThreadLocal k n (next_tl_index s) v f)
           Hslots Hunset).
Qed.

(** An instance: a third descriptor in the started process. *)
Lemma fresh_thread_local_reads_initial_witness :
  (heap_ok started_state /\ 0 < 1)
  /\ exists tl s',
       Scm_MakeThreadLocal sample_vm SCM_CLASS_THREAD_LOCAL SCM_FALSE (SCM_INT 7) 0
         started_state = Done tl s'
       /\ initialValue tl = SCM_INT 7
       /\ forall vm, threadLocals vm < 1 ->
            result_value (Scm_ThreadLocalRef vm tl s')
            = Some (read_result s' tl (SCM_INT 7)).
Proof.
  split; [split; [exact heap_ok_started_state | lia]|].
  exact (fresh_thread_local_reads_initial started_state sample_vm
           SCM_CLASS_THREAD_LOCAL SCM_FALSE (SCM_INT 7) 0
           heap_ok_started_state ltac:(cbn; lia)).
Defined.

(** The value a slot vector gives for a descriptor does not change when
    the vector is widened and another slot is written. *)
Lemma slot_value_other_index tl tl' vec val :
  index tl' <> index tl ->
  slot_value tl' (<[index tl := val]> (widened vec (index tl))) = slot_value tl' vec.
Proof.
  intros Hne. unfold slot_value.
  rewrite list_lookup_insert_ne by congruence.
  destruct (decide (index tl' < length vec)) as [Hin|Hout].
  - now rewrite widened_lookup.
  - rewrite (proj2 (lookup_ge_None vec (index tl'))) by lia.
    unfold widened. destruct (decide (length vec <= index tl)); [|
      now rewrite (proj2 (lookup_ge_None vec (index tl'))) by lia].
    destruct (decide (index tl' < grown_size (index tl))).
    + rewrite lookup_app_r by lia.
      rewrite lookup_replicate_2 by lia. reflexivity.
    + rewrite (proj2 (lookup_ge_None _ (index tl')));
        [reflexivity | rewrite length_app, length_replicate; lia].
Qed.

(** X14.  A write through one descriptor leaves what every descriptor with
    another index reads in the same VM as it was, also when the write
    makes the table grow. *)
Theorem write_leaves_other_descriptors s vm vec tl val :
  vm_slots s vm = Some vec ->
  exists old s',
    Scm_ThreadLocalSet vm tl val s = Done old s'
    /\ forall tl', index tl' <> index tl ->
         result_value (Scm_ThreadLocalRef vm tl' s')
         = result_value (Scm_ThreadLocalRef vm tl' s).
Proof.
  intros Hslots. pose proof Hslots as Hslots0.
  apply vm_slots_Some in Hslots as (t & Htable & Hvec & Hsize).
  rewrite (Scm_ThreadLocalSet_eq s vm t vec Htable Hvec Hsize).
  destruct (force_if_lazy_Done tl (slot_value tl vec)
              (after_write s (threadLocals vm) t vec tl val))
    as (s' & E & _ & Ht & Ha & _ & _ & _ & Hth).
  destruct (after_write_frame s vm t vec tl val) as (_ & Fp & _ & _).
  pose proof (vm_slots_after_write s vm t vec Htable Hvec Hsize tl val) as Hw.
  rewrite <- (vm_slots_ext _ _ _ Ht Ha) in Hw.
  eexists _, s'. split; [exact E|]. intros tl' Hne.
  rewrite (Scm_ThreadLocalRef_value _ _ _ tl' Hw).
  rewrite (Scm_ThreadLocalRef_value _ _ _ tl' Hslots0).
  rewrite slot_value_other_index by assumption. f_equal.
  apply read_result_thunks. intros l. now rewrite Hth, Fp.
Qed.

(** An instance: a write to index 9, which makes the four-slot table grow. *)
Lemma write_leaves_other_descriptors_witness :
  vm_slots sample_state sample_vm
    = Some [SCM_INT 10; SCM_UNBOUND; SCM_PROMISE 0; SCM_UNBOUND]
  /\ exists old s',
       Scm_ThreadLocalSet sample_vm (sample_tl 9 (SCM_INT 7)) (SCM_INT 5) sample_state
       = Done old s'
       /\ forall tl', index tl' <> 9 ->
            result_value (Scm_ThreadLocalRef sample_vm tl' s')
            = result_value (Scm_ThreadLocalRef sample_vm tl' sample_state).
Proof.
  split; [reflexivity|].
  exact (write_leaves_other_descriptors sample_state sample_vm _
           (sample_tl 9 (SCM_INT 7)) (SCM_INT 5) eq_refl).
Defined.

(** A store of the value a slot already holds changes nothing. *)
Lemma with_slot_same s a vec i v :
  arrays s !! a = Some vec -> vec !! i = Some v -> with_slot s a vec i v = s.
Proof.
  intros Ha Hi. unfold with_slot.
  rewrite (list_insert_id vec i v Hi), (list_insert_id _ a vec Ha).
  now destruct s.
Qed.

(** The forcing step, done twice: the second time it yields the same value
    and changes nothing. *)
Lemma force_if_lazy_twice tl x s :
  exists v s1,
    force_if_lazy tl x s = Done v s1 /\ force_if_lazy tl x s1 = Done v s1
    /\ tables s1 = tables s /\ arrays s1 = arrays s.
Proof.
  unfold force_if_lazy. destruct (lazy_flag tl); [|now exists x, s].
  destruct x; try (eexists _, s; repeat split; reflexivity).
  cbn [Scm_Force]. destruct (forced (promises s p)) eqn:Ef.
  - eexists _, s. rewrite Ef. repeat split; reflexivity.
  - eexists _, _. split; [reflexivity|]. norm_state.
    destruct (decide (p = p)) as [_|]; [|contradiction].
    cbn [forced thunk_value]. repeat split; reflexivity.
Qed.

(** X15.  A read is idempotent: a second read through the same descriptor
    in the same VM, right after the first, returns the same value and
    changes nothing, whatever the first read did (it may have stored the
    initial value in the slot and forced a promise). *)
Theorem read_twice s vm vec tl :
  vm_slots s vm = Some vec ->
  exists v s1,
    Scm_ThreadLocalRef vm tl s = Done v s1
    /\ Scm_ThreadLocalRef vm tl s1 = Done v s1.
Proof.
  intros Hslots. apply vm_slots_Some in Hslots as (t & Htable & Hvec & Hsize).
  rewrite (Scm_ThreadLocalRef_eq s vm t vec Htable Hvec Hsize).
  destruct (force_if_lazy_twice tl (slot_value tl vec) (after_read s t vec tl))
    as (v & s1 & E1 & E2 & Ht & Ha).
  destruct (after_read_frame s t vec tl) as (_ & Ft & _).
  pose proof (vm_slots_after_read s vm t vec Htable Hvec Hsize tl) as Hr.
  rewrite <- (vm_slots_ext _ _ _ Ht Ha) in Hr.
  set (vec1 := match vec !! index tl with
               | Some SCM_UNBOUND => <[index tl := initialValue tl]> vec
               | _ => vec
               end) in *.
  apply vm_slots_Some in Hr as (t1 & Htable1 & Hvec1 & Hsize1).
  assert (t1 = t) as -> by (rewrite Ht, Ft in Htable1; congruence).
  exists v, s1. split; [exact E1|].
  rewrite (Scm_ThreadLocalRef_eq s1 vm t vec1 Htable1 Hvec1 Hsize1).
  assert (slot_value tl vec1 = slot_value tl vec
          /\ after_read s1 t vec1 tl = s1) as [-> ->]; [|exact E2].
  unfold slot_value, after_read, vec1 in *.
  destruct (vec !! index tl) as [x|] eqn:Ex.
  - assert (index tl < length vec) as Hin by now apply lookup_lt_Some with x.
    destruct (decide (x = SCM_UNBOUND)) as [->|Hx].
    + rewrite list_lookup_insert_eq by assumption. cbn [SCM_UNBOUNDP].
      destruct (SCM_UNBOUNDP (initialValue tl)) eqn:Ei; split; try reflexivity.
      apply with_slot_same; [assumption | now apply list_lookup_insert_eq].
    + assert ((match x with
               | SCM_UNBOUND => <[index tl := initialValue tl]> vec
               | _ => vec
               end) = vec) as Esame by (destruct x; congruence).
      rewrite Esame in *. rewrite Ex.
      now rewrite (SCM_UNBOUNDP_false x Hx).
  - now rewrite Ex.
Qed.

(** An instance: the unbound slot 1 of the four-slot table. *)
Lemma read_twice_witness :
  vm_slots sample_state sample_vm
    = Some [SCM_INT 10; SCM_UNBOUND; SCM_PROMISE 0; SCM_UNBOUND]
  /\ exists v s1,
       Scm_ThreadLocalRef sample_vm (sample_lazy_tl 1 (SCM_PROMISE 3)) sample_state
       = Done v s1
       /\ Scm_ThreadLocalRef sample_vm (sample_lazy_tl 1 (SCM_PROMISE 3)) s1 = Done v s1.
Proof.
  split; [reflexivity|].
  exact (read_twice sample_state sample_vm _ (sample_lazy_tl 1 (SCM_PROMISE 3)) eq_refl).
Defined.

Lemma slot_value_unbound tl vec :
  SCM_UNBOUNDP (slot_value tl vec) = true -> initialValue tl = slot_value tl vec.
Proof.
  unfold slot_value. destruct (vec !! index tl) as [x|]; [|reflexivity].
  destruct (SCM_UNBOUNDP x) eqn:Ex; [reflexivity|]. congruence.
Qed.

(** X16.  Saving and restoring, for a descriptor that is not lazy: a write
    returns the old value, and writing that value back makes the
    descriptor read as it did before the first write; the second write
    returns the value the first one stored, unless that was
    [SCM_UNBOUND]. *)
Theorem write_back_restores s vm vec tl val :
  vm_slots s vm = Some vec ->
  lazy_flag tl = false ->
  exists old s1 back s2,
    Scm_ThreadLocalSet vm tl val s = Done old s1
    /\ Scm_ThreadLocalSet vm tl old s1 = Done back s2
    /\ (val <> SCM_UNBOUND -> back = val)
    /\ result_value (Scm_ThreadLocalRef vm tl s) = Some old
    /\ result_value (Scm_ThreadLocalRef vm tl s2) = Some old.
Proof.
  intros Hslots Hlazy. pose proof Hslots as Hslots0.
  apply vm_slots_Some in Hslots as (t & Htable & Hvec & Hsize).
  pose proof (Scm_ThreadLocalSet_eq s vm t vec Htable Hvec Hsize tl val) as E1.
  pose proof (vm_slots_after_write s vm t vec Htable Hvec Hsize tl val) as Hw1.
  set (s1 := after_write s (threadLocals vm) t vec tl val) in *.
  set (vec1 := <[index tl := val]> (widened vec (index tl))) in *.
  pose proof Hw1 as Hw1'.
  apply vm_slots_Some in Hw1' as (t1 & Htable1 & Hvec1 & Hsize1).
  pose proof (Scm_ThreadLocalSet_eq s1 vm t1 vec1 Htable1 Hvec1 Hsize1 tl
                (slot_value tl vec)) as E2.
  pose proof (vm_slots_after_write s1 vm t1 vec1 Htable1 Hvec1 Hsize1 tl
                (slot_value tl vec)) as Hw2.
  set (s2 := after_write s1 (threadLocals vm) t1 vec1 tl (slot_value tl vec)) in *.
  assert (vec1 !! index tl = Some val) as Hslot1
    by (apply list_lookup_insert_eq, widened_length).
  unfold force_if_lazy in E1, E2. rewrite Hlazy in E1, E2.
  exists (slot_value tl vec), s1, (slot_value tl vec1), s2.
  split; [exact E1|]. split; [exact E2|]. split; [|split].
  - intros Hval. unfold slot_value. now rewrite Hslot1, (SCM_UNBOUNDP_false _ Hval).
  - rewrite (Scm_ThreadLocalRef_value s vm vec tl Hslots0).
    unfold read_result. now rewrite Hlazy.
  - rewrite (Scm_ThreadLocalRef_value s2 vm _ tl Hw2).
    unfold read_result. rewrite Hlazy. f_equal.
    unfold slot_value at 1.
    rewrite list_lookup_insert_eq by apply widened_length.
    destruct (SCM_UNBOUNDP (slot_value tl vec)) eqn:Eu; [|reflexivity].
    now apply slot_value_unbound.
Qed.

(** An instance: slot 0 of the four-slot table, which holds 10. *)
Lemma write_back_restores_witness :
  (vm_slots sample_state sample_vm
     = Some [SCM_INT 10; SCM_UNBOUND; SCM_PROMISE 0; SCM_UNBOUND]
   /\ lazy_flag (sample_tl 0 (SCM_INT 7)) = false)
  /\ exists old s1 back s2,
       Scm_ThreadLocalSet sample_vm (sample_tl 0 (SCM_INT 7)) (SCM_INT 5) sample_state
       = Done old s1
       /\ Scm_ThreadLocalSet sample_vm (sample_tl 0 (SCM_INT 7)) old s1 = Done back s2
       /\ (SCM_INT 5 <> SCM_UNBOUND -> back = SCM_INT 5)
       /\ result_value (Scm_ThreadLocalRef sample_vm (sample_tl 0 (SCM_INT 7)) sample_state)
          = Some old
       /\ result_value (Scm_ThreadLocalRef sample_vm (sample_tl 0 (SCM_INT 7)) s2)
          = Some old.
Proof.
  split; [split; reflexivity|].
  exact (write_back_restores sample_state sample_vm _ (sample_tl 0 (SCM_INT 7))
           (SCM_INT 5) eq_refl eq_refl).
Defined.

(** * The procedure of a bound parameter *)

(** X17.  [Scm_BindPrimitiveParameter] creates a parameter of the class
    [SCM_CLASS_PRIMITIVE_PARAMETER], named by the symbol of the given
    name, and binds that symbol in the module to the parameter's
    procedure, which is the primitive one ([prim_param_proc], never the
    one that goes through the Scheme-level setter).  Called without
    arguments right away, in any VM that has a table, the procedure
    returns the initial value, forced if the parameter is lazy. *)
Theorem bound_parameter_procedure s cur module cname v f :
  heap_ok s -> threadLocals cur < length (tables s) ->
  exists p s',
    Scm_BindPrimitiveParameter cur module cname v f s = Done p s'
    /\ p = mkThreadLocal SCM_CLASS_PRIMITIVE_PARAMETER (SCM_SYMBOL cname)
             (next_tl_index s) v f
    /\ bindings s'
       = bindings s ++ [(module, SCM_SYMBOL cname, Scm_MakePrimitiveParameterSubr p)]
    /\ subr_func (Scm_MakePrimitiveParameterSubr p) = prim_param_proc_ptr
    /\ forall vm, threadLocals vm < length (tables s) ->
         result_value (call_subr vm (Scm_MakePrimitiveParameterSubr p) [] s')
         = Some (SubrValue (read_result s' p v)).
Proof.
  intros Hok Hcur.
  destruct (Scm_MakeThreadLocal_heap s cur SCM_CLASS_PRIMITIVE_PARAMETER
              (SCM_INTERN cname) v f Hok Hcur)
    as (s1 & E & Hn & Hl & _ & Hb & Hok').
  unfold Scm_BindPrimitiveParameter, Scm_MakePrimitiveParameter.
  rewrite (bind_Done _ _ _ _ _ E).
  set (p := mkThreadLocal SCM_CLASS_PRIMITIVE_PARAMETER (SCM_INTERN cname)
              (next_tl_index s) v f).
  assert (SCM_PRIMITIVE_PARAMETER_P p = true) as HP.
  { unfold SCM_PRIMITIVE_PARAMETER_P, p. cbn [klass SCM_ISA].
    destruct (decide (SCM_CLASS_PRIMITIVE_PARAMETER = SCM_CLASS_PRIMITIVE_PARAMETER));
      [reflexivity | contradiction]. }
  eexists p, _. split; [reflexivity|]. split; [reflexivity|].
  split; [norm_state; now rewrite Hb|].
  split.
  { unfold Scm_MakePrimitiveParameterSubr.
    destruct (decide (klass p = SCM_CLASS_PRIMITIVE_PARAMETER)) as [_|Hne];
      [reflexivity | now elim Hne]. }
  intros vm Hvm.
  destruct (heap_ok_unset (set_next_tl_index (next_tl_index s) s1) vm (next_tl_index s))
    as (vec & Hslots & Hunset); [exact Hok' | norm_state; lia | reflexivity |].
  rewrite call_parameter_subr.
  destruct (decide (klass p = SCM_CLASS_PRIMITIVE_PARAMETER)) as [_|Hne];
    [|now elim Hne].
  set (s' := set_bindings _ s1).
  assert (prim_param_proc vm [Scm_List []] 1 p s'
          = map_result SubrValue (Scm_PrimitiveParameterRef vm p s')) as ->.
  { unfold prim_param_proc. rewrite HP. cbn [Scm_List lookup list_lookup].
    apply bind_ret_map. }
  rewrite result_value_map. unfold Scm_PrimitiveParameterRef.
  now rewrite (unset_slot_read s' vm vec p Hslots Hunset).
Qed.

(** An instance: a parameter bound in the started process. *)
Lemma bound_parameter_procedure_witness :
  (heap_ok started_state /\ 0 < 1)
  /\ exists p s',
       Scm_BindPrimitiveParameter sample_vm "gauche" "depth" (SCM_INT 7) 0 started_state
       = Done p s'
       /\ p = mkThreadLocal SCM_CLASS_PRIMITIVE_PARAMETER (SCM_SYMBOL "depth") 2
                (SCM_INT 7) 0
       /\ bindings s' = [] ++ [("gauche", SCM_SYMBOL "depth",
                                Scm_MakePrimitiveParameterSubr p)]
       /\ subr_func (Scm_MakePrimitiveParameterSubr p) = prim_param_proc_ptr
       /\ forall vm, threadLocals vm < 1 ->
            result_value (call_subr vm (Scm_MakePrimitiveParameterSubr p) [] s')
            = Some (SubrValue (read_result s' p (SCM_INT 7))).
Proof.
  split; [split; [exact heap_ok_started_state | lia]|].
  exact (bound_parameter_procedure started_state sample_vm "gauche" "depth" (SCM_INT 7) 0
           heap_ok_started_state ltac:(cbn; lia)).
Defined.

(** * Growth and separation *)

Lemma grown_size_le index : grown_size index <= index + THREAD_LOCAL_GROW.
Proof.
  unfold grown_size, THREAD_LOCAL_GROW.
  pose proof (Nat.div_mod_eq (index + 16) 16) as E. lia.
Qed.

(** X18.  When [ensure_tl_slot] has to grow a table, the new vector is a
    block allocated by this call, and the table is redirected to it; the
    new size is the least multiple of [THREAD_LOCAL_GROW] above the index,
    so it exceeds the index by at most [THREAD_LOCAL_GROW]; every slot of
    the old vector is overwritten with [SCM_FALSE]; no other vector and no
    other table is touched. *)
Theorem ensure_tl_slot_releases_old_vector s p t vec i :
  tables s !! p = Some t -> arrays s !! vector t = Some vec -> size t = length vec ->
  size t <= i ->
  exists s',
    ensure_tl_slot p i s = Done tt s'
    /\ tables s' !! p = Some (mkTable (length (arrays s)) (grown_size i))
    /\ length (arrays s') = S (length (arrays s))
    /\ arrays s' !! vector t = Some (replicate (size t) SCM_FALSE)
    /\ i < grown_size i <= i + THREAD_LOCAL_GROW
    /\ (forall m, (THREAD_LOCAL_GROW | m) -> i < m -> grown_size i <= m)
    /\ (forall a, a <> vector t -> a < length (arrays s) ->
                  arrays s' !! a = arrays s !! a)
    /\ (forall q, q <> p -> tables s' !! q = tables s !! q).
Proof.
  intros Ht Hv Hs Hi.
  rewrite (ensure_tl_slot_grows s p t vec Ht Hv Hs i Hi).
  pose proof (lookup_lt_Some _ _ _ Ht) as Hp.
  pose proof (lookup_lt_Some _ _ _ Hv) as Ha.
  exists (grown s p t vec i). split; [reflexivity|].
  split; [unfold grown; norm_state; now apply list_lookup_insert_eq|].
  split; [unfold grown; norm_state;
          rewrite length_app, length_insert; cbn [length]; lia|].
  split; [unfold grown; norm_state; now apply heap2_lookup_old|].
  split; [split; [apply grown_size_gt | apply grown_size_le]|].
  split.
  { intros m [c ->] Hm. unfold grown_size, THREAD_LOCAL_GROW in *.
    pose proof (Nat.div_mod_eq (i + 16) 16) as E.
    pose proof (Nat.mod_upper_bound (i + 16) 16 ltac:(lia)) as Hmod.
    set (q := (i + 16) / 16) in *. lia. }
  split.
  - intros a Hne Hlt. now apply grown_other_array.
  - intros q Hne. now apply grown_other_table.
Qed.

(** An instance: the four-slot table asked to hold index 20. *)
Lemma ensure_tl_slot_releases_old_vector_witness :
  (tables sample_state !! 0 = Some (mkTable 0 4)
   /\ arrays sample_state !! 0
      = Some [SCM_INT 10; SCM_UNBOUND; SCM_PROMISE 0; SCM_UNBOUND]
   /\ 4 = 4 /\ 4 <= 20)
  /\ exists s',
       ensure_tl_slot 0 20 sample_state = Done tt s'
       /\ tables s' !! 0 = Some (mkTable 1 (grown_size 20))
       /\ length (arrays s') = 2
       /\ arrays s' !! 0 = Some (replicate 4 SCM_FALSE)
       /\ 20 < grown_size 20 <= 20 + THREAD_LOCAL_GROW
       /\ (forall m, (THREAD_LOCAL_GROW | m) -> 20 < m -> grown_size 20 <= m)
       /\ (forall a, a <> 0 -> a < 1 -> arrays s' !! a = arrays sample_state !! a)
       /\ (forall q, q <> 0 -> tables s' !! q = tables sample_state !! q).
Proof.
  split; [split; [reflexivity | split; [reflexivity | split; [reflexivity | lia]]]|].
  exact (ensure_tl_slot_releases_old_vector sample_state 0 (mkTable 0 4)
           [SCM_INT 10; SCM_UNBOUND; SCM_PROMISE 0; SCM_UNBOUND] 20
           eq_refl eq_refl eq_refl ltac:(cbn; lia)).
Defined.

(** In a heap that satisfies the invariant, VMs with different tables are
    separate. *)
Lemma heap_ok_isolated s a b :
  heap_ok s -> threadLocals a < length (tables s) -> threadLocals b < length (tables s) ->
  threadLocals a <> threadLocals b ->
  isolated s a b.
Proof.
  intros Hok Ha Hb Hne.
  destruct (heap_ok_table s a Hok Ha) as (ta & veca & Hta & Hva & Hsa & _).
  destruct (heap_ok_table s b Hok Hb) as (tb & vecb & Htb & Hvb & Hsb & _).
  exists ta, tb, veca, vecb. repeat split; try assumption.
  intros E. apply Hne. destruct Hok as [_ Hsep]. now apply (Hsep _ _ ta tb).
Qed.

(** The creation of a descriptor leaves the slots of the other VMs alone. *)
Lemma Scm_MakeThreadLocal_others s cur k n v f b :
  heap_ok s -> threadLocals cur < length (tables s) ->
  threadLocals b <> threadLocals cur ->
  exists tl s',
    Scm_MakeThreadLocal cur k n v f s = Done tl s'
    /\ vm_slots s' b = vm_slots s b
    /\ promises s' = promises s.
Proof.
  intros Hok Hcur Hne.
  destruct (heap_ok_table s cur Hok Hcur) as (t & vec & Ht & Hv & Hs & _ & _).
  unfold Scm_MakeThreadLocal. unfold bind at 1.
  set (s0 := set_next_tl_index (S (next_tl_index s)) s).
  destruct (decide (next_tl_index s < size t)) as [Hin|Hout].
  - rewrite (bind_Done _ _ _ _ _ (ensure_tl_slot_fits s0 _ t Ht _ Hin)).
    eexists _, s0. repeat split.
  - assert (size t <= next_tl_index s) as Hge by lia.
    rewrite (bind_Done _ _ _ _ _
               (ensure_tl_slot_grows s0 _ t vec Ht Hv Hs _ Hge)).
    eexists _, _. split; [reflexivity|]. split; [|reflexivity].
    unfold vm_slots. rewrite grown_other_table by assumption.
    change (tables s0) with (tables s).
    destruct (tables s !! threadLocals b) as [tb|] eqn:Etb; [|reflexivity].
    destruct Hok as [Hvec Hsep].
    destruct (Hvec _ _ Etb) as (vb & Hvb & _).
    rewrite grown_other_array;
      [reflexivity | | now apply lookup_lt_Some with vb].
    intros E. apply Hne. now apply (Hsep _ _ tb t).
Qed.

(** X19.  In a heap that satisfies the invariant, whatever one VM does
    through its table (the creation of a descriptor, a read, a write,
    through any descriptor and also when its table grows) leaves the slots
    of every VM with another table, and what that VM reads, as they were. *)
Theorem separate_tables_never_interfere s a b :
  heap_ok s ->
  threadLocals a < length (tables s) -> threadLocals b < length (tables s) ->
  threadLocals a <> threadLocals b ->
  (forall tl val, exists old s',
      Scm_ThreadLocalSet a tl val s = Done old s'
      /\ vm_slots s' b = vm_slots s b
      /\ forall tl', result_value (Scm_ThreadLocalRef b tl' s')
                     = result_value (Scm_ThreadLocalRef b tl' s))
  /\ (forall tl, exists v s',
        Scm_ThreadLocalRef a tl s = Done v s'
        /\ vm_slots s' b = vm_slots s b
        /\ forall tl', result_value (Scm_ThreadLocalRef b tl' s')
                       = result_value (Scm_ThreadLocalRef b tl' s))
  /\ (forall k n v f, exists tl s',
        Scm_MakeThreadLocal a k n v f s = Done tl s'
        /\ vm_slots s' b = vm_slots s b
        /\ forall tl', result_value (Scm_ThreadLocalRef b tl' s')
                       = result_value (Scm_ThreadLocalRef b tl' s)).
Proof.
  intros Hok Ha Hb Hne.
  pose proof (heap_ok_isolated s a b Hok Ha Hb Hne) as Hiso.
  pose proof (proj2 (isolated_slots s a b Hiso)) as Hsome.
  split; [|split].
  - intros tl val.
    destruct (write_isolated s a b tl val Hiso) as (old & s' & E & _ & Hslots & Hth).
    exists old, s'. split; [exact E|]. split; [exact Hslots|].
    intros tl'. now apply reads_agree.
  - intros tl.
    destruct (read_isolated s a b tl Hiso) as (v & s' & E & _ & Hslots & Hth).
    exists v, s'. split; [exact E|]. split; [exact Hslots|].
    intros tl'. now apply reads_agree.
  - intros k n v f.
    destruct (Scm_MakeThreadLocal_others s a k n v f b Hok Ha ltac:(congruence))
      as (tl & s' & E & Hslots & Hp).
    exists tl, s'. split; [exact E|]. split; [exact Hslots|].
    intros tl'. apply reads_agree; [assumption | assumption |].
    intros l. now rewrite Hp.
Qed.

Lemma heap_ok_started_state2 : heap_ok started_state2.
Proof.
  apply (heap_ok_new_table started_state
           [SCM_INT 10; SCM_UNBOUND; SCM_UNBOUND; SCM_UNBOUND] heap_ok_started_state).
  intros j Hj. cbn [started_state next_tl_index length] in Hj.
  assert (j = 2 \/ j = 3) as [-> | ->] by lia; reflexivity.
Qed.

(** An instance: the two VMs of the started process with two threads. *)
Lemma separate_tables_never_interfere_witness :
  (heap_ok started_state2 /\ 0 < 2 /\ 1 < 2 /\ 0 <> 1)
  /\ (forall tl val, exists old s',
        Scm_ThreadLocalSet sample_vm tl val started_state2 = Done old s'
        /\ vm_slots s' sample_child = vm_slots started_state2 sample_child
        /\ forall tl', result_value (Scm_ThreadLocalRef sample_child tl' s')
                       = result_value (Scm_ThreadLocalRef sample_child tl' started_state2))
  /\ (forall tl, exists v s',
        Scm_ThreadLocalRef sample_vm tl started_state2 = Done v s'
        /\ vm_slots s' sample_child = vm_slots started_state2 sample_child
        /\ forall tl', result_value (Scm_ThreadLocalRef sample_child tl' s')
                       = result_value (Scm_ThreadLocalRef sample_child tl' started_state2))
  /\ (forall k n v f, exists tl s',
        Scm_MakeThreadLocal sample_vm k n v f started_state2 = Done tl s'
        /\ vm_slots s' sample_child = vm_slots started_state2 sample_child
        /\ forall tl', result_value (Scm_ThreadLocalRef sample_child tl' s')
                       = result_value (Scm_ThreadLocalRef sample_child tl' started_state2)).
Proof.
  split; [split; [exact heap_ok_started_state2 | lia]|].
  exact (separate_tables_never_interfere started_state2 sample_vm sample_child
           heap_ok_started_state2 ltac:(cbn; lia) ltac:(cbn; lia) ltac:(cbn; lia)).
Defined.

(** * Writes through lazy descriptors *)

(** X20.  A write through a lazy descriptor forces the value it replaces:
    when the slot holds a delayed promise, the write runs the promise's
    computation, once, and returns its value, although the promise is no
    longer in the slot afterwards.  The value written is stored as it is,
    not forced. *)
Theorem lazy_write_forces_old_value s vm vec tl l val :
  vm_slots s vm = Some vec ->
  lazy_flag tl = true ->
  vec !! index tl = Some (SCM_PROMISE l) ->
  forced (promises s l) = false ->
  exists s',
    Scm_ThreadLocalSet vm tl val s = Done (thunk_value (promises s l)) s'
    /\ thunk_runs (promises s' l) = S (thunk_runs (promises s l))
    /\ forced (promises s' l) = true
    /\ vm_slots s' vm = Some (<[index tl := val]> vec).
Proof.
  intros Hslots Hlazy Hslot Hdelayed.
  apply vm_slots_Some in Hslots as (t & Htable & Hvec & Hsize).
  rewrite (Scm_ThreadLocalSet_eq s vm t vec Htable Hvec Hsize).
  assert (slot_value tl vec = SCM_PROMISE l) as ->
    by (unfold slot_value; now rewrite Hslot).
  unfold force_if_lazy. rewrite Hlazy.
  destruct (after_write_frame s vm t vec tl val) as (_ & Fp & _ & _).
  destruct (Scm_Force_delayed (after_write s (threadLocals vm) t vec tl val) l)
    as (s' & E & Ht & Ha & Hp); [now rewrite Fp|].
  rewrite Fp in E, Hp.
  exists s'. split; [exact E|]. rewrite Hp. cbn [thunk_runs forced].
  split; [reflexivity|]. split; [reflexivity|].
  rewrite (vm_slots_ext _ _ _ Ht Ha).
  rewrite (vm_slots_after_write s vm t vec Htable Hvec Hsize tl val).
  unfold widened. apply lookup_lt_Some in Hslot.
  destruct (decide (length vec <= index tl)); [lia | reflexivity].
Qed.

(** An instance: the promise in slot 2 of the four-slot table. *)
Lemma lazy_write_forces_old_value_witness :
  (vm_slots sample_state sample_vm
     = Some [SCM_INT 10; SCM_UNBOUND; SCM_PROMISE 0; SCM_UNBOUND]
   /\ lazy_flag (sample_lazy_tl 2 (SCM_INT 7)) = true
   /\ [SCM_INT 10; SCM_UNBOUND; SCM_PROMISE 0; SCM_UNBOUND] !! 2 = Some (SCM_PROMISE 0)
   /\ forced (promises sample_state 0) = false)
  /\ exists s',
       Scm_ThreadLocalSet sample_vm (sample_lazy_tl 2 (SCM_INT 7)) (SCM_INT 5) sample_state
       = Done (SCM_INT 42) s'
       /\ thunk_runs (promises s' 0) = 1
       /\ forced (promises s' 0) = true
       /\ vm_slots s' sample_vm
          = Some [SCM_INT 10; SCM_UNBOUND; SCM_INT 5; SCM_UNBOUND].
Proof.
  split; [repeat split|].
  exact (lazy_write_forces_old_value sample_state sample_vm _
           (sample_lazy_tl 2 (SCM_INT 7)) 0 (SCM_INT 5)
           eq_refl eq_refl eq_refl eq_refl).
Defined.

(** * The order of encoded characters *)

Local Open Scope Z_scope.

(** What a successful [SCM_CHAR_PUT] has done. *)
Lemma SCM_CHAR_PUT_Some buf cp ch buf' :
  SCM_CHAR_PUT buf cp ch = Some buf' ->
  (cp + SCM_CHAR_NBYTES ch <= length buf)%nat
  /\ buf' = spliced buf cp (utf8_bytes ch).
Proof.
  intros Hput. rewrite SCM_CHAR_PUT_Putc in Hput.
  destruct (decide (cp + SCM_CHAR_NBYTES ch <= length buf)%nat) as [Hroom|Hshort].
  - rewrite (Scm_CharUtf8Putc_room _ _ _ Hroom) in Hput. injection Hput as <-.
    now split.
  - rewrite Scm_CharUtf8Putc_put_bytes, put_bytes_None in Hput;
      [discriminate | | rewrite length_putc_values; lia].
    intros E. pose proof (length_putc_values ch) as Hlen. rewrite E in Hlen.
    unfold SCM_CHAR_NBYTES in Hlen.
    repeat match type of Hlen with
           | context [if ?c then _ else _] => destruct c
           end; discriminate.
Qed.

(** The bytes of two characters in the order of the characters. *)
Lemma utf8_bytes_order c1 c2 :
  0 <= c1 -> c1 < c2 -> c2 < 2 ^ 31 -> bytes_lt (utf8_bytes c1) (utf8_bytes c2).
Proof.
  intros H0 Hlt Hmax. assert (2 ^ 31 = 2147483648) as E31 by reflexivity.
  rewrite E31 in Hmax.
  rewrite !utf8_bytes_arith by lia.
  decide_ltb; cbn [bytes_lt]; Z.div_mod_to_equations; lia.
Qed.

Lemma bytes_lt_app a : forall b r1 r2,
  bytes_lt a b -> bytes_lt (a ++ r1) (b ++ r2).
Proof.
  induction a as [|x a IH]; intros [|y b] r1 r2; cbn [bytes_lt app];
    try contradiction.
  intros [Hlt | [-> Hrest]]; [now left | right]. split; [reflexivity|].
  now apply IH.
Qed.

(** X21.  The encoding keeps the order of characters: when [SCM_CHAR_PUT]
    has stored two characters from 0 to 2^31 - 1, the smaller one in one
    buffer and the greater one in another, the two buffers, compared byte
    by byte from the places of the characters on, differ within the bytes
    of both characters, and at the first difference the byte of the
    smaller character is the smaller one. *)
Theorem utf8_put_keeps_order (buf1 buf2 buf1' buf2' : list Z) (cp1 cp2 : nat)
    (c1 c2 : Z) :
  0 <= c1 -> c1 < c2 -> c2 < 2 ^ 31 ->
  SCM_CHAR_PUT buf1 cp1 c1 = Some buf1' ->
  SCM_CHAR_PUT buf2 cp2 c2 = Some buf2' ->
  bytes_lt (drop cp1 buf1') (drop cp2 buf2')
  /\ bytes_lt (take (SCM_CHAR_NBYTES c1) (drop cp1 buf1'))
       (take (SCM_CHAR_NBYTES c2) (drop cp2 buf2')).
Proof.
  intros H0 Hlt Hmax Hput1 Hput2.
  apply SCM_CHAR_PUT_Some in Hput1 as [Hroom1 ->].
  apply SCM_CHAR_PUT_Some in Hput2 as [Hroom2 ->].
  rewrite !drop_spliced by lia.
  pose proof (utf8_bytes_order c1 c2 H0 Hlt Hmax) as Horder.
  split; [now apply bytes_lt_app|].
  rewrite <- (length_utf8_bytes c1), <- (length_utf8_bytes c2).
  now rewrite !take_app_length.
Qed.

(** An instance: U+00FF before U+0100. *)
Lemma utf8_put_keeps_order_witness :
  (0 <= 0xff /\ 0xff < 0x100 /\ 0x100 < 2 ^ 31
   /\ SCM_CHAR_PUT (replicate 4 0) 1 0xff = Some [0; 0xc3; 0xbf; 0]
   /\ SCM_CHAR_PUT (replicate 4 0) 0 0x100 = Some [0xc4; 0x80; 0; 0])
  /\ bytes_lt (drop 1 [0; 0xc3; 0xbf; 0]) (drop 0 [0xc4; 0x80; 0; 0])
  /\ bytes_lt (take (SCM_CHAR_NBYTES 0xff) (drop 1 [0; 0xc3; 0xbf; 0]))
       (take (SCM_CHAR_NBYTES 0x100) (drop 0 [0xc4; 0x80; 0; 0])).
Proof.
  assert (0 <= 0xff) as H1 by discriminate.
  assert (0xff < 0x100) as H2 by reflexivity.
  assert (0x100 < 2 ^ 31) as H3 by reflexivity.
  assert (SCM_CHAR_PUT (replicate 4 0) 1 0xff = Some [0; 0xc3; 0xbf; 0]) as H4
    by reflexivity.
  assert (SCM_CHAR_PUT (replicate 4 0) 0 0x100 = Some [0xc4; 0x80; 0; 0]) as H5
    by reflexivity.
  split; [split; [exact H1 | split; [exact H2 | split; [exact H3 | split;
    [exact H4 | exact H5]]]]|].
  exact (utf8_put_keeps_order _ _ _ _ 1%nat 0%nat 0xff 0x100 H1 H2 H3 H4 H5).
Defined.
